(** * Mixing console: deck routing, crossfade law, scratch engine and
    step sequencer

  A shallow embedding of the audio core of the application:
  - [src/components/drum-machine/samples.ts] (pads and kits),
  - [src/components/drum-machine/drum-machine.component.ts] (the 16-step
    sequencer),
  - [src/components/video-editor/app.component.ts] (decks, mixer, drum
    routing, scratching).

  JavaScript numbers are idealised: values that come from [parseInt] are
  integers ([Z]), every other number is a real ([R]); rounding of IEEE
  doubles, [NaN] and infinities are outside the model.  Angular signals are
  plain record fields, [signal.update f] is a field update, and the bodies
  of the reactive [effect]s are gathered in one function that is run as a
  step of its own. *)

From Stdlib Require Import Reals Lra Lia ZArith.
From stdpp Require Import gmap strings list.

(** ** Platform functions used by the components *)

Module JS.

Local Open Scope R_scope.

(** [a % b] on integers: the remainder takes the sign of the dividend. *)
Definition rem (a b : Z) : Z := Z.rem a b.

(** [Math.pow(x, y)] for a positive base. *)
Definition Math_pow (x y : R) : R := Rpower x y.

(** [Math.log]: the natural logarithm. *)
Definition Math_log (x : R) : R := ln x.

Definition Math_max (x y : R) : R := Rmax x y.
Definition Math_min (x y : R) : R := Rmin x y.

(** [Math.atan2(y, x)]: the angle of the point [(x, y)], counter-clockwise
    from the positive x axis. *)
Definition Math_atan2 (y x : R) : R :=
  if Rlt_dec 0 x then atan (y / x)
  else if Rlt_dec x 0 then
    (if Rle_dec 0 y then atan (y / x) + PI else atan (y / x) - PI)
  else if Rlt_dec 0 y then PI / 2
  else if Rlt_dec y 0 then - (PI / 2)
  else 0.

(** Truthiness of a string: only the empty string is falsy. *)
Definition truthy (s : string) : bool :=
  match s with EmptyString => false | _ => true end.

End JS.

(** ** samples.ts *)

Module Pad.
Record t : Type := mk {
  name : string;
  key : string;
  sampleKey : string;
}.
End Pad.

Module Kit.
Record t : Type := mk {
  name : string;
  pads : list Pad.t;
}.
End Kit.

Module Samples.
Definition kits : list Kit.t :=
[ Kit.mk "808 Classic"
    [ Pad.mk "Kick" "1" "kick808";
      Pad.mk "Kick 2" "2" "kick909";
      Pad.mk "Snare" "3" "snare808";
      Pad.mk "Clap" "4" "clap808";
      Pad.mk "Snare 2" "q" "snare909";
      Pad.mk "Perc 1" "w" "perc1";
      Pad.mk "CHH" "e" "hihat808_closed";
      Pad.mk "Perc 2" "r" "perc2";
      Pad.mk "OHH" "a" "hihat808_open";
      Pad.mk "Perc 3" "s" "perc3";
      Pad.mk "Tom L" "d" "tom_low";
      Pad.mk "Perc 4" "f" "perc4";
      Pad.mk "Tom M" "z" "tom_mid";
      Pad.mk "Tom H" "x" "tom_high";
      Pad.mk "Crash" "c" "crash";
      Pad.mk "Ride" "v" "ride" ] ].
End Samples.

(** ** drum-machine.component.ts *)

Module DrumMachine.

(** The component's state.  [sequence] is the [Map<string, boolean[]>] from
    sample key to step array.  [timerId] is the pending timeout: [Some ms]
    when a tick is scheduled [ms] milliseconds ahead.  [played] logs the
    sample keys handed to [playSound], oldest first.  The cache of decoded
    buffers, the lit pads and the routing outputs are left out. *)
Record State : Type := mkState {
  kits : list Kit.t;
  activeKit : Kit.t;
  pads : list Pad.t;
  bpm : Z;
  isPlaying : bool;
  currentStep : Z;
  sequence : gmap string (list bool);
  showSampleLibrary : bool;
  selectedPadIndex : option nat;
  customSampleData : gmap string string;
  timerId : option R;
  played : list string;
}.

Definition set_activeKit (v : Kit.t) (s : State) : State :=
  mkState (kits s) v (pads s) (bpm s) (isPlaying s) (currentStep s)
    (sequence s) (showSampleLibrary s) (selectedPadIndex s)
    (customSampleData s) (timerId s) (played s).
Definition set_pads (v : list Pad.t) (s : State) : State :=
  mkState (kits s) (activeKit s) v (bpm s) (isPlaying s) (currentStep s)
    (sequence s) (showSampleLibrary s) (selectedPadIndex s)
    (customSampleData s) (timerId s) (played s).
Definition set_bpm (v : Z) (s : State) : State :=
  mkState (kits s) (activeKit s) (pads s) v (isPlaying s) (currentStep s)
    (sequence s) (showSampleLibrary s) (selectedPadIndex s)
    (customSampleData s) (timerId s) (played s).
Definition set_isPlaying (v : bool) (s : State) : State :=
  mkState (kits s) (activeKit s) (pads s) (bpm s) v (currentStep s)
    (sequence s) (showSampleLibrary s) (selectedPadIndex s)
    (customSampleData s) (timerId s) (played s).
Definition set_currentStep (v : Z) (s : State) : State :=
  mkState (kits s) (activeKit s) (pads s) (bpm s) (isPlaying s) v
    (sequence s) (showSampleLibrary s) (selectedPadIndex s)
    (customSampleData s) (timerId s) (played s).
Definition set_sequence (v : gmap string (list bool)) (s : State) : State :=
  mkState (kits s) (activeKit s) (pads s) (bpm s) (isPlaying s)
    (currentStep s) v (showSampleLibrary s) (selectedPadIndex s)
    (customSampleData s) (timerId s) (played s).
Definition set_showSampleLibrary (v : bool) (s : State) : State :=
  mkState (kits s) (activeKit s) (pads s) (bpm s) (isPlaying s)
    (currentStep s) (sequence s) v (selectedPadIndex s)
    (customSampleData s) (timerId s) (played s).
Definition set_selectedPadIndex (v : option nat) (s : State) : State :=
  mkState (kits s) (activeKit s) (pads s) (bpm s) (isPlaying s)
    (currentStep s) (sequence s) (showSampleLibrary s) v
    (customSampleData s) (timerId s) (played s).
Definition set_customSampleData (v : gmap string string) (s : State) : State :=
  mkState (kits s) (activeKit s) (pads s) (bpm s) (isPlaying s)
    (currentStep s) (sequence s) (showSampleLibrary s) (selectedPadIndex s)
    v (timerId s) (played s).
Definition set_timerId (v : option R) (s : State) : State :=
  mkState (kits s) (activeKit s) (pads s) (bpm s) (isPlaying s)
    (currentStep s) (sequence s) (showSampleLibrary s) (selectedPadIndex s)
    (customSampleData s) v (played s).
Definition set_played (v : list string) (s : State) : State :=
  mkState (kits s) (activeKit s) (pads s) (bpm s) (isPlaying s)
    (currentStep s) (sequence s) (showSampleLibrary s) (selectedPadIndex s)
    (customSampleData s) (timerId s) v.

(** [createEmptySequence]: one 16-slot all-false array per pad of
    [this.pads()], keyed by sample key; [forEach] visits the pads in order,
    so a later pad with the same key overwrites the earlier entry. *)
Definition createEmptySequence (s : State) : gmap string (list bool) :=
  fold_left (fun newSequence pad =>
               <[Pad.sampleKey pad := replicate 16 false]> newSequence)
            (pads s) ∅.

(** [stop]: clears the pending timeout, keeps [currentStep]. *)
Definition stop (s : State) : State :=
  let s1 := set_isPlaying false s in
  match timerId s1 with
  | Some _ => set_timerId None s1
  | None => s1
  end.

Definition resetSequencer (s : State) : State :=
  set_currentStep (-1) (stop s).

(** [padSequence?.[step]]: a missing array or a missing slot is falsy. *)
Definition stepIsOn (padSequence : option (list bool)) (step : Z) : bool :=
  match padSequence with
  | Some l => default false (l !! Z.to_nat step)
  | None => false
  end.

(** [playStep]: every pad whose array is on at [step] is played. *)
Definition playStep (step : Z) (s : State) : State :=
  if (step <? 0)%Z then s
  else
    let hits :=
      filter (fun pad => stepIsOn (sequence s !! Pad.sampleKey pad) step = true)
             (pads s) in
    set_played (played s ++ map Pad.sampleKey hits) s.

Definition secondsPerBeat (s : State) : R := (60 / IZR (bpm s))%R.
Definition secondsPerStep (s : State) : R := (secondsPerBeat s / 4)%R.

(** [scheduleNextStep]: plays the current step and arms the timeout with
    [secondsPerStep * 1000] milliseconds. *)
Definition scheduleNextStep (s : State) : State :=
  if negb (isPlaying s) then s
  else
    let s1 := playStep (currentStep s) s in
    set_timerId (Some (secondsPerStep s1 * 1000)%R) s1.

(** The timeout's callback: advance the step, then schedule again. *)
Definition timerCallback (s : State) : State :=
  scheduleNextStep (set_currentStep (JS.rem (currentStep s + 1) 16) s).

Definition start (s : State) : State :=
  if isPlaying s then s
  else
    let s1 := set_isPlaying true s in
    let s2 := set_currentStep
                (if (currentStep s1 =? -1)%Z then 0%Z else currentStep s1) s1 in
    scheduleNextStep s2.

(** [onBpmChange], with [value] the result of [parseInt]; [None] is [NaN]. *)
Definition onBpmChange (value : option Z) (s : State) : State :=
  match value with
  | Some v => if (0 <? v)%Z then set_bpm v s else s
  | None => s
  end.

(** [changeKit].  The asynchronous [loadSamplesForKit] only fills the cache
    of decoded buffers, which is not part of the state above. *)
Definition changeKit (kitName : string) (s : State) : State :=
  match List.find (fun k => String.eqb (Kit.name k) kitName) (kits s) with
  | None => s
  | Some kit =>
      let s1 := stop s in
      let s2 := set_activeKit kit s1 in
      let s3 := set_pads (Kit.pads kit) s2 in
      set_sequence (createEmptySequence s3) s3
  end.

Definition openSampleLibrary (padIndex : nat) (s : State) : State :=
  set_showSampleLibrary true (set_selectedPadIndex (Some padIndex) s).

Definition closeSampleLibrary (s : State) : State :=
  set_selectedPadIndex None (set_showSampleLibrary false s).

Record AssignEvent : Type := mkAssign {
  ev_sampleKey : string;
  base64Data : option string;
}.

(** The [sequence.update] callback of [assignSampleToPad]. *)
Definition migrateSequence (oldSampleKey sampleKey : string)
    (currentSequence : gmap string (list bool)) : gmap string (list bool) :=
  match currentSequence !! oldSampleKey with
  | Some padSequence => <[sampleKey := padSequence]> (delete oldSampleKey currentSequence)
  | None => currentSequence
  end.

(** [assignSampleToPad].  [None] stands for the [TypeError] raised by
    [newPads[padIndex].sampleKey] when the selected index is not a pad. *)
Definition assignSampleToPad (event : AssignEvent) (s : State) : option State :=
  match selectedPadIndex s with
  | None => Some s
  | Some padIndex =>
      let sampleKey := ev_sampleKey event in
      let s1 :=
        match base64Data event with
        | Some d =>
            if JS.truthy d
            then set_customSampleData (<[sampleKey := d]> (customSampleData s)) s
            else s
        | None => s
        end in
      match pads s1 !! padIndex with
      | None => None
      | Some pad =>
          let oldSampleKey := Pad.sampleKey pad in
          let newPads :=
            <[padIndex := Pad.mk (Pad.name pad) (Pad.key pad) sampleKey]> (pads s1) in
          let s2 := set_sequence (migrateSequence oldSampleKey sampleKey (sequence s1)) s1 in
          let s3 := set_pads newPads s2 in
          Some (closeSampleLibrary s3)
      end
  end.

(** The constructor: first kit, 120 BPM, stopped, empty pattern. *)
Definition init : State :=
  let kit0 := default (Kit.mk "" []) (head Samples.kits) in
  let s0 := mkState Samples.kits kit0 (Kit.pads kit0) 120 false (-1) ∅ false None ∅ None [] in
  set_sequence (createEmptySequence s0) s0.

(** [toggleStep].  A write past the end of an array leaves holes, which
    every read in this component treats like [false]; they are modelled as
    [false]. *)
Definition toggleArray (padSequence : list bool) (stepIndex : nat) : list bool :=
  match padSequence !! stepIndex with
  | Some b => <[stepIndex := negb b]> padSequence
  | None => padSequence ++ replicate (stepIndex - length padSequence) false ++ [true]
  end.

Definition toggleStep (padIndex stepIndex : nat) (s : State) : State :=
  match pads s !! padIndex with
  | None => s
  | Some pad =>
      match sequence s !! Pad.sampleKey pad with
      | Some padSequence =>
          set_sequence
            (<[Pad.sampleKey pad := toggleArray padSequence stepIndex]> (sequence s)) s
      | None => s
      end
  end.

End DrumMachine.

(** ** app.component.ts *)

(** The part of an [<audio>] element that the component reads and writes.
  Assigning [src] and calling [load] are not modelled. *)
Module HTMLMediaElement.
Record t : Type := mk {
  currentTime : R;
  duration : R;
  paused : bool;
  playbackRate : R;
  loop : bool;
}.
Definition set_currentTime (v : R) (s : t) : t :=
  mk v (duration s) (paused s) (playbackRate s) (loop s).
Definition set_duration (v : R) (s : t) : t :=
  mk (currentTime s) v (paused s) (playbackRate s) (loop s).
Definition set_paused (v : bool) (s : t) : t :=
  mk (currentTime s) (duration s) v (playbackRate s) (loop s).
Definition set_playbackRate (v : R) (s : t) : t :=
  mk (currentTime s) (duration s) (paused s) v (loop s).
Definition set_loop (v : bool) (s : t) : t :=
  mk (currentTime s) (duration s) (paused s) (playbackRate s) v.
Definition play (s : t) : t := set_paused false s.
Definition pause (s : t) : t := set_paused true s.
(** An element that has just been attached to the view. *)
Definition fresh : t := mk 0 0 true 1 false.
End HTMLMediaElement.

(** The result of [getBoundingClientRect]. *)
Module DOMRect.
Record t : Type := mk {
  left : R;
  top : R;
  width : R;
  height : R;
}.
End DOMRect.

Module App.

Local Open Scope R_scope.

Inductive DeckId : Type := A | B.
Inductive ViewMode : Type := player | dj | drum | image_editor | video_editor.
Inductive EqBandName : Type := High | Mid | Low.

Definition isA (d : DeckId) : bool := match d with A => true | B => false end.
Definition isPlayerMode (m : ViewMode) : bool :=
  match m with player => true | _ => false end.

Record Track : Type := mkTrack {
  title : string;
  artist : string;
  albumArtUrl : string;
  audioSrc : string;
  videoSrc : option string;
}.

Record DeckState : Type := mkDeck {
  track : Track;
  isPlaying : bool;
  progress : R;
  duration : R;
  playbackRate : R;
  filterFreq : R;
  loop : bool;
  gain : Z;
  eqHigh : Z;
  eqMid : Z;
  eqLow : Z;
  drumInputVolume : Z;
  wasPlayingBeforeScratch : bool;
}.

Definition set_track (v : Track) (s : DeckState) : DeckState :=
  mkDeck v (isPlaying s) (progress s) (duration s) (playbackRate s)
    (filterFreq s) (loop s) (gain s) (eqHigh s) (eqMid s) (eqLow s)
    (drumInputVolume s) (wasPlayingBeforeScratch s).
Definition set_isPlaying (v : bool) (s : DeckState) : DeckState :=
  mkDeck (track s) v (progress s) (duration s) (playbackRate s)
    (filterFreq s) (loop s) (gain s) (eqHigh s) (eqMid s) (eqLow s)
    (drumInputVolume s) (wasPlayingBeforeScratch s).
Definition set_progress (v : R) (s : DeckState) : DeckState :=
  mkDeck (track s) (isPlaying s) v (duration s) (playbackRate s)
    (filterFreq s) (loop s) (gain s) (eqHigh s) (eqMid s) (eqLow s)
    (drumInputVolume s) (wasPlayingBeforeScratch s).
Definition set_duration (v : R) (s : DeckState) : DeckState :=
  mkDeck (track s) (isPlaying s) (progress s) v (playbackRate s)
    (filterFreq s) (loop s) (gain s) (eqHigh s) (eqMid s) (eqLow s)
    (drumInputVolume s) (wasPlayingBeforeScratch s).
Definition set_playbackRate (v : R) (s : DeckState) : DeckState :=
  mkDeck (track s) (isPlaying s) (progress s) (duration s) v (filterFreq s)
    (loop s) (gain s) (eqHigh s) (eqMid s) (eqLow s) (drumInputVolume s)
    (wasPlayingBeforeScratch s).
Definition set_filterFreq (v : R) (s : DeckState) : DeckState :=
  mkDeck (track s) (isPlaying s) (progress s) (duration s) (playbackRate s)
    v (loop s) (gain s) (eqHigh s) (eqMid s) (eqLow s) (drumInputVolume s)
    (wasPlayingBeforeScratch s).
Definition set_loop (v : bool) (s : DeckState) : DeckState :=
  mkDeck (track s) (isPlaying s) (progress s) (duration s) (playbackRate s)
    (filterFreq s) v (gain s) (eqHigh s) (eqMid s) (eqLow s)
    (drumInputVolume s) (wasPlayingBeforeScratch s).
Definition set_gain (v : Z) (s : DeckState) : DeckState :=
  mkDeck (track s) (isPlaying s) (progress s) (duration s) (playbackRate s)
    (filterFreq s) (loop s) v (eqHigh s) (eqMid s) (eqLow s)
    (drumInputVolume s) (wasPlayingBeforeScratch s).
Definition set_eqHigh (v : Z) (s : DeckState) : DeckState :=
  mkDeck (track s) (isPlaying s) (progress s) (duration s) (playbackRate s)
    (filterFreq s) (loop s) (gain s) v (eqMid s) (eqLow s)
    (drumInputVolume s) (wasPlayingBeforeScratch s).
Definition set_eqMid (v : Z) (s : DeckState) : DeckState :=
  mkDeck (track s) (isPlaying s) (progress s) (duration s) (playbackRate s)
    (filterFreq s) (loop s) (gain s) (eqHigh s) v (eqLow s)
    (drumInputVolume s) (wasPlayingBeforeScratch s).
Definition set_eqLow (v : Z) (s : DeckState) : DeckState :=
  mkDeck (track s) (isPlaying s) (progress s) (duration s) (playbackRate s)
    (filterFreq s) (loop s) (gain s) (eqHigh s) (eqMid s) v
    (drumInputVolume s) (wasPlayingBeforeScratch s).
Definition set_drumInputVolume (v : Z) (s : DeckState) : DeckState :=
  mkDeck (track s) (isPlaying s) (progress s) (duration s) (playbackRate s)
    (filterFreq s) (loop s) (gain s) (eqHigh s) (eqMid s) (eqLow s) v
    (wasPlayingBeforeScratch s).
Definition set_wasPlayingBeforeScratch (v : bool) (s : DeckState) : DeckState :=
  mkDeck (track s) (isPlaying s) (progress s) (duration s) (playbackRate s)
    (filterFreq s) (loop s) (gain s) (eqHigh s) (eqMid s) (eqLow s)
    (drumInputVolume s) v.

Definition initialDeckState : DeckState :=
  mkDeck
    (mkTrack "NO SIGNAL" "Load a track into deck"
       "https://picsum.photos/seed/placeholder/500/500" "" None)
    false 0 0 1 20000 false 50 50 50 50 0 false.

Record ScratchState : Type := mkScratch {
  active : bool;
  lastAngle : R;
  platterElement : option DOMRect.t;
  initialTouchX : option R;
  initialTouchY : option R;
}.

(** A mouse event, or the first touch of a touch event. *)
Record PointerEvent : Type := mkPointer {
  clientX : R;
  clientY : R;
  currentTarget : DOMRect.t;
}.

Definition SCRATCH_SENSITIVITY : R := 2.5.

(** A [MediaStream]: the silent placeholder made by [initAudioContext], or
    a stream handed in from outside the component. *)
Inductive MediaStream : Type :=
| dummyDrumStream
| externalStream (id : nat).

(** The nodes of one deck.  A gain node or an equaliser band is
    represented by the value of its [gain] parameter and the low-pass filter
    by its [frequency]; [drumInputSource] is the stream wrapped by the
    drum-input source node, [drumInputSource_out] tells whether that node
    feeds [drumInputGain], and [drumInputGain_out] whether the drum-input
    gain feeds the low-shelf equaliser.  The edges of the track chain are
    made once and never changed, so they are left out. *)
Record DeckNodes : Type := mkNodes {
  trimNode : R;
  eqHighNode : R;
  eqMidNode : R;
  eqLowNode : R;
  filterNode : R;
  gainNode : R;
  drumInputSource : MediaStream;
  drumInputSource_out : bool;
  drumInputGain_out : bool;
  drumInputGain : R;
}.

Definition set_trimNode (v : R) (s : DeckNodes) : DeckNodes :=
  mkNodes v (eqHighNode s) (eqMidNode s) (eqLowNode s) (filterNode s)
    (gainNode s) (drumInputSource s) (drumInputSource_out s)
    (drumInputGain_out s) (drumInputGain s).
Definition set_eqHighNode (v : R) (s : DeckNodes) : DeckNodes :=
  mkNodes (trimNode s) v (eqMidNode s) (eqLowNode s) (filterNode s)
    (gainNode s) (drumInputSource s) (drumInputSource_out s)
    (drumInputGain_out s) (drumInputGain s).
Definition set_eqMidNode (v : R) (s : DeckNodes) : DeckNodes :=
  mkNodes (trimNode s) (eqHighNode s) v (eqLowNode s) (filterNode s)
    (gainNode s) (drumInputSource s) (drumInputSource_out s)
    (drumInputGain_out s) (drumInputGain s).
Definition set_eqLowNode (v : R) (s : DeckNodes) : DeckNodes :=
  mkNodes (trimNode s) (eqHighNode s) (eqMidNode s) v (filterNode s)
    (gainNode s) (drumInputSource s) (drumInputSource_out s)
    (drumInputGain_out s) (drumInputGain s).
Definition set_filterNode (v : R) (s : DeckNodes) : DeckNodes :=
  mkNodes (trimNode s) (eqHighNode s) (eqMidNode s) (eqLowNode s) v
    (gainNode s) (drumInputSource s) (drumInputSource_out s)
    (drumInputGain_out s) (drumInputGain s).
Definition set_gainNode (v : R) (s : DeckNodes) : DeckNodes :=
  mkNodes (trimNode s) (eqHighNode s) (eqMidNode s) (eqLowNode s)
    (filterNode s) v (drumInputSource s) (drumInputSource_out s)
    (drumInputGain_out s) (drumInputGain s).
Definition set_drumInputSource (v : MediaStream) (s : DeckNodes) : DeckNodes :=
  mkNodes (trimNode s) (eqHighNode s) (eqMidNode s) (eqLowNode s)
    (filterNode s) (gainNode s) v (drumInputSource_out s)
    (drumInputGain_out s) (drumInputGain s).
Definition set_drumInputSource_out (v : bool) (s : DeckNodes) : DeckNodes :=
  mkNodes (trimNode s) (eqHighNode s) (eqMidNode s) (eqLowNode s)
    (filterNode s) (gainNode s) (drumInputSource s) v (drumInputGain_out s)
    (drumInputGain s).
Definition set_drumInputGain_out (v : bool) (s : DeckNodes) : DeckNodes :=
  mkNodes (trimNode s) (eqHighNode s) (eqMidNode s) (eqLowNode s)
    (filterNode s) (gainNode s) (drumInputSource s) (drumInputSource_out s)
    v (drumInputGain s).
Definition set_drumInputGain (v : R) (s : DeckNodes) : DeckNodes :=
  mkNodes (trimNode s) (eqHighNode s) (eqMidNode s) (eqLowNode s)
    (filterNode s) (gainNode s) (drumInputSource s) (drumInputSource_out s)
    (drumInputGain_out s) v.

(** Everything [initAudioContext] creates at once: the nodes named
    [...A] are in [chainA], those named [...B] in [chainB]. *)
Record AudioGraph : Type := mkGraph {
  chainA : DeckNodes;
  chainB : DeckNodes;
  masterBus : R;
}.

Record App : Type := mkApp {
  mainViewMode : ViewMode;
  deckA : DeckState;
  deckB : DeckState;
  crossfade : R;
  loadingTargetDeck : option DeckId;
  isScratchingA : bool;
  isScratchingB : bool;
  scratchRotationA : R;
  scratchRotationB : R;
  scratchStateA : ScratchState;
  scratchStateB : ScratchState;
  playlist : list Track;
  currentTrackIndex : Z;
  volume : R;
  isDrumRoutedA : bool;
  isDrumRoutedB : bool;
  audioPlayerA : option HTMLMediaElement.t;
  audioPlayerB : option HTMLMediaElement.t;
  audio : option AudioGraph;
}.

Definition set_mainViewMode (v : ViewMode) (s : App) : App :=
  mkApp v (deckA s) (deckB s) (crossfade s) (loadingTargetDeck s)
    (isScratchingA s) (isScratchingB s) (scratchRotationA s)
    (scratchRotationB s) (scratchStateA s) (scratchStateB s) (playlist s)
    (currentTrackIndex s) (volume s) (isDrumRoutedA s) (isDrumRoutedB s)
    (audioPlayerA s) (audioPlayerB s) (audio s).
Definition set_deckA (v : DeckState) (s : App) : App :=
  mkApp (mainViewMode s) v (deckB s) (crossfade s) (loadingTargetDeck s)
    (isScratchingA s) (isScratchingB s) (scratchRotationA s)
    (scratchRotationB s) (scratchStateA s) (scratchStateB s) (playlist s)
    (currentTrackIndex s) (volume s) (isDrumRoutedA s) (isDrumRoutedB s)
    (audioPlayerA s) (audioPlayerB s) (audio s).
Definition set_deckB (v : DeckState) (s : App) : App :=
  mkApp (mainViewMode s) (deckA s) v (crossfade s) (loadingTargetDeck s)
    (isScratchingA s) (isScratchingB s) (scratchRotationA s)
    (scratchRotationB s) (scratchStateA s) (scratchStateB s) (playlist s)
    (currentTrackIndex s) (volume s) (isDrumRoutedA s) (isDrumRoutedB s)
    (audioPlayerA s) (audioPlayerB s) (audio s).
Definition set_crossfade (v : R) (s : App) : App :=
  mkApp (mainViewMode s) (deckA s) (deckB s) v (loadingTargetDeck s)
    (isScratchingA s) (isScratchingB s) (scratchRotationA s)
    (scratchRotationB s) (scratchStateA s) (scratchStateB s) (playlist s)
    (currentTrackIndex s) (volume s) (isDrumRoutedA s) (isDrumRoutedB s)
    (audioPlayerA s) (audioPlayerB s) (audio s).
Definition set_loadingTargetDeck (v : option DeckId) (s : App) : App :=
  mkApp (mainViewMode s) (deckA s) (deckB s) (crossfade s) v
    (isScratchingA s) (isScratchingB s) (scratchRotationA s)
    (scratchRotationB s) (scratchStateA s) (scratchStateB s) (playlist s)
    (currentTrackIndex s) (volume s) (isDrumRoutedA s) (isDrumRoutedB s)
    (audioPlayerA s) (audioPlayerB s) (audio s).
Definition set_isScratchingA (v : bool) (s : App) : App :=
  mkApp (mainViewMode s) (deckA s) (deckB s) (crossfade s)
    (loadingTargetDeck s) v (isScratchingB s) (scratchRotationA s)
    (scratchRotationB s) (scratchStateA s) (scratchStateB s) (playlist s)
    (currentTrackIndex s) (volume s) (isDrumRoutedA s) (isDrumRoutedB s)
    (audioPlayerA s) (audioPlayerB s) (audio s).
Definition set_isScratchingB (v : bool) (s : App) : App :=
  mkApp (mainViewMode s) (deckA s) (deckB s) (crossfade s)
    (loadingTargetDeck s) (isScratchingA s) v (scratchRotationA s)
    (scratchRotationB s) (scratchStateA s) (scratchStateB s) (playlist s)
    (currentTrackIndex s) (volume s) (isDrumRoutedA s) (isDrumRoutedB s)
    (audioPlayerA s) (audioPlayerB s) (audio s).
Definition set_scratchRotationA (v : R) (s : App) : App :=
  mkApp (mainViewMode s) (deckA s) (deckB s) (crossfade s)
    (loadingTargetDeck s) (isScratchingA s) (isScratchingB s) v
    (scratchRotationB s) (scratchStateA s) (scratchStateB s) (playlist s)
    (currentTrackIndex s) (volume s) (isDrumRoutedA s) (isDrumRoutedB s)
    (audioPlayerA s) (audioPlayerB s) (audio s).
Definition set_scratchRotationB (v : R) (s : App) : App :=
  mkApp (mainViewMode s) (deckA s) (deckB s) (crossfade s)
    (loadingTargetDeck s) (isScratchingA s) (isScratchingB s)
    (scratchRotationA s) v (scratchStateA s) (scratchStateB s) (playlist s)
    (currentTrackIndex s) (volume s) (isDrumRoutedA s) (isDrumRoutedB s)
    (audioPlayerA s) (audioPlayerB s) (audio s).
Definition set_scratchStateA (v : ScratchState) (s : App) : App :=
  mkApp (mainViewMode s) (deckA s) (deckB s) (crossfade s)
    (loadingTargetDeck s) (isScratchingA s) (isScratchingB s)
    (scratchRotationA s) (scratchRotationB s) v (scratchStateB s)
    (playlist s) (currentTrackIndex s) (volume s) (isDrumRoutedA s)
    (isDrumRoutedB s) (audioPlayerA s) (audioPlayerB s) (audio s).
Definition set_scratchStateB (v : ScratchState) (s : App) : App :=
  mkApp (mainViewMode s) (deckA s) (deckB s) (crossfade s)
    (loadingTargetDeck s) (isScratchingA s) (isScratchingB s)
    (scratchRotationA s) (scratchRotationB s) (scratchStateA s) v
    (playlist s) (currentTrackIndex s) (volume s) (isDrumRoutedA s)
    (isDrumRoutedB s) (audioPlayerA s) (audioPlayerB s) (audio s).
Definition set_playlist (v : list Track) (s : App) : App :=
  mkApp (mainViewMode s) (deckA s) (deckB s) (crossfade s)
    (loadingTargetDeck s) (isScratchingA s) (isScratchingB s)
    (scratchRotationA s) (scratchRotationB s) (scratchStateA s)
    (scratchStateB s) v (currentTrackIndex s) (volume s) (isDrumRoutedA s)
    (isDrumRoutedB s) (audioPlayerA s) (audioPlayerB s) (audio s).
Definition set_currentTrackIndex (v : Z) (s : App) : App :=
  mkApp (mainViewMode s) (deckA s) (deckB s) (crossfade s)
    (loadingTargetDeck s) (isScratchingA s) (isScratchingB s)
    (scratchRotationA s) (scratchRotationB s) (scratchStateA s)
    (scratchStateB s) (playlist s) v (volume s) (isDrumRoutedA s)
    (isDrumRoutedB s) (audioPlayerA s) (audioPlayerB s) (audio s).
Definition set_volume (v : R) (s : App) : App :=
  mkApp (mainViewMode s) (deckA s) (deckB s) (crossfade s)
    (loadingTargetDeck s) (isScratchingA s) (isScratchingB s)
    (scratchRotationA s) (scratchRotationB s) (scratchStateA s)
    (scratchStateB s) (playlist s) (currentTrackIndex s) v (isDrumRoutedA s)
    (isDrumRoutedB s) (audioPlayerA s) (audioPlayerB s) (audio s).
Definition set_isDrumRoutedA (v : bool) (s : App) : App :=
  mkApp (mainViewMode s) (deckA s) (deckB s) (crossfade s)
    (loadingTargetDeck s) (isScratchingA s) (isScratchingB s)
    (scratchRotationA s) (scratchRotationB s) (scratchStateA s)
    (scratchStateB s) (playlist s) (currentTrackIndex s) (volume s) v
    (isDrumRoutedB s) (audioPlayerA s) (audioPlayerB s) (audio s).
Definition set_isDrumRoutedB (v : bool) (s : App) : App :=
  mkApp (mainViewMode s) (deckA s) (deckB s) (crossfade s)
    (loadingTargetDeck s) (isScratchingA s) (isScratchingB s)
    (scratchRotationA s) (scratchRotationB s) (scratchStateA s)
    (scratchStateB s) (playlist s) (currentTrackIndex s) (volume s)
    (isDrumRoutedA s) v (audioPlayerA s) (audioPlayerB s) (audio s).
Definition set_audioPlayerA (v : option HTMLMediaElement.t) (s : App) : App :=
  mkApp (mainViewMode s) (deckA s) (deckB s) (crossfade s)
    (loadingTargetDeck s) (isScratchingA s) (isScratchingB s)
    (scratchRotationA s) (scratchRotationB s) (scratchStateA s)
    (scratchStateB s) (playlist s) (currentTrackIndex s) (volume s)
    (isDrumRoutedA s) (isDrumRoutedB s) v (audioPlayerB s) (audio s).
Definition set_audioPlayerB (v : option HTMLMediaElement.t) (s : App) : App :=
  mkApp (mainViewMode s) (deckA s) (deckB s) (crossfade s)
    (loadingTargetDeck s) (isScratchingA s) (isScratchingB s)
    (scratchRotationA s) (scratchRotationB s) (scratchStateA s)
    (scratchStateB s) (playlist s) (currentTrackIndex s) (volume s)
    (isDrumRoutedA s) (isDrumRoutedB s) (audioPlayerA s) v (audio s).
Definition set_audio (v : option AudioGraph) (s : App) : App :=
  mkApp (mainViewMode s) (deckA s) (deckB s) (crossfade s)
    (loadingTargetDeck s) (isScratchingA s) (isScratchingB s)
    (scratchRotationA s) (scratchRotationB s) (scratchStateA s)
    (scratchStateB s) (playlist s) (currentTrackIndex s) (volume s)
    (isDrumRoutedA s) (isDrumRoutedB s) (audioPlayerA s) (audioPlayerB s) v.

(** *** Access by deck: [deckId === 'A' ? this.deckA : this.deckB] *)

Definition deckSignal (d : DeckId) (st : App) : DeckState :=
  match d with A => deckA st | B => deckB st end.
Definition set_deckSignal (d : DeckId) (v : DeckState) (st : App) : App :=
  match d with A => set_deckA v st | B => set_deckB v st end.
Definition update_deck (d : DeckId) (f : DeckState -> DeckState) (st : App) : App :=
  set_deckSignal d (f (deckSignal d st)) st.

Definition isScratching (d : DeckId) (st : App) : bool :=
  match d with A => isScratchingA st | B => isScratchingB st end.
Definition set_isScratching (d : DeckId) (v : bool) (st : App) : App :=
  match d with A => set_isScratchingA v st | B => set_isScratchingB v st end.

Definition scratchRotation (d : DeckId) (st : App) : R :=
  match d with A => scratchRotationA st | B => scratchRotationB st end.
Definition set_scratchRotation (d : DeckId) (v : R) (st : App) : App :=
  match d with A => set_scratchRotationA v st | B => set_scratchRotationB v st end.

Definition scratchState (d : DeckId) (st : App) : ScratchState :=
  match d with A => scratchStateA st | B => scratchStateB st end.
Definition set_scratchState (d : DeckId) (v : ScratchState) (st : App) : App :=
  match d with A => set_scratchStateA v st | B => set_scratchStateB v st end.

Definition isDrumRouted (d : DeckId) (st : App) : bool :=
  match d with A => isDrumRoutedA st | B => isDrumRoutedB st end.
Definition set_isDrumRouted (d : DeckId) (v : bool) (st : App) : App :=
  match d with A => set_isDrumRoutedA v st | B => set_isDrumRoutedB v st end.

Definition audioPlayer (d : DeckId) (st : App) : option HTMLMediaElement.t :=
  match d with A => audioPlayerA st | B => audioPlayerB st end.
Definition set_audioPlayer (d : DeckId) (v : option HTMLMediaElement.t) (st : App) : App :=
  match d with A => set_audioPlayerA v st | B => set_audioPlayerB v st end.
(** [if (player) player.m()]: nothing happens without an element. *)
Definition update_player (d : DeckId) (f : HTMLMediaElement.t -> HTMLMediaElement.t)
    (st : App) : App :=
  set_audioPlayer d (f <$> audioPlayer d st) st.

Definition chain (d : DeckId) (g : AudioGraph) : DeckNodes :=
  match d with A => chainA g | B => chainB g end.
Definition set_chain (d : DeckId) (v : DeckNodes) (g : AudioGraph) : AudioGraph :=
  match d with
  | A => mkGraph v (chainB g) (masterBus g)
  | B => mkGraph (chainA g) v (masterBus g)
  end.
Definition set_masterBus (v : R) (g : AudioGraph) : AudioGraph :=
  mkGraph (chainA g) (chainB g) v.

(** The constructor's field initialisers. *)
Definition init : App :=
  mkApp player initialDeckState initialDeckState 0 None false false 0 0
    (mkScratch false 0 None None None) (mkScratch false 0 None None None)
    [] (-1) 0.75 false false None None None.

(** *** The audio graph *)

(** Node parameters right after [initAudioContext]: a gain node starts at 1,
    an equaliser band at 0 dB, the low-pass filter at the platform's default
    350 Hz; the drum-input source wraps the silent stream and its gain is
    set to 0. *)
Definition freshChain : DeckNodes :=
  mkNodes 1 0 0 0 350 1 dummyDrumStream true true 0.

(** [initAudioContext]: a no-op when the context exists or when one of the
    two audio elements is not attached yet. *)
Definition initAudioContext (st : App) : App :=
  match audio st with
  | Some _ => st
  | None =>
      match audioPlayerA st, audioPlayerB st with
      | Some _, Some _ => set_audio (Some (mkGraph freshChain freshChain 1)) st
      | _, _ => st
      end
  end.

(** [ensureAudioContext]; starting the meter loop and resuming a suspended
    context do not show in the state. *)
Definition ensureAudioContext (st : App) : App :=
  match audio st with
  | None => initAudioContext st
  | Some _ => st
  end.

(** [node.disconnect()], [createMediaStreamSource] and [node.connect] on
    the drum-input tap of one deck. *)
Definition disconnectSource (n : DeckNodes) : DeckNodes := set_drumInputSource_out false n.
Definition disconnectGain (n : DeckNodes) : DeckNodes := set_drumInputGain_out false n.
Definition createMediaStreamSource (s : MediaStream) (n : DeckNodes) : DeckNodes :=
  set_drumInputSource_out false (set_drumInputSource s n).
Definition connectSource (n : DeckNodes) : DeckNodes := set_drumInputSource_out true n.
Definition connectGain (n : DeckNodes) : DeckNodes := set_drumInputGain_out true n.

(** The five statements shared by [handleDrumRoute] and
    [unrouteDrumMachine]: drop both edges, wrap [s] in a new source node,
    restore both edges. *)
Definition rewireTap (s : MediaStream) (n : DeckNodes) : DeckNodes :=
  connectGain (connectSource (createMediaStreamSource s (disconnectGain (disconnectSource n)))).

Definition unrouteDrumMachine (deckId : DeckId) (st : App) : App :=
  let st1 :=
    match audio st with
    | Some g =>
        let n := set_drumInputGain 0 (rewireTap dummyDrumStream (chain deckId g)) in
        set_audio (Some (set_chain deckId n g)) st
    | None => st
    end in
  let st2 := set_isDrumRouted deckId false st1 in
  update_deck deckId (set_drumInputVolume 0) st2.

(** The routing event of the sequencer; [deckId = None] is [null].  The
    sequencer always sends the stream of its destination node, so [stream]
    is never missing. *)
Record RouteEvent : Type := mkRoute {
  stream : MediaStream;
  deckId : option DeckId;
}.

Definition handleDrumRoute (event : RouteEvent) (st : App) : App :=
  let st0 := ensureAudioContext st in
  let st1 := unrouteDrumMachine B (unrouteDrumMachine A st0) in
  match deckId event with
  | None => set_isDrumRoutedB false (set_isDrumRoutedA false st1)
  | Some d =>
      match audio st1 with
      | Some g =>
          let n0 := rewireTap (stream event) (chain d g) in
          let n := set_drumInputGain
                     (IZR (drumInputVolume (deckSignal d st1)) / 100) n0 in
          let st2 := set_audio (Some (set_chain d n g)) st1 in
          let st3 := set_isDrumRouted d true st2 in
          update_deck d (set_isPlaying false) st3
      | None => st1
      end
  end.

(** *** Reactive effects ([setupAudioEffects]) *)

Definition playerEffect (deck : DeckState) (scratching : bool)
    (p : HTMLMediaElement.t) : HTMLMediaElement.t :=
  let p1 := if isPlaying deck && negb scratching
            then HTMLMediaElement.play p else HTMLMediaElement.pause p in
  HTMLMediaElement.set_loop (loop deck)
    (HTMLMediaElement.set_playbackRate (playbackRate deck) p1).

Definition trimGain (value : Z) : R := IZR value / 50.
Definition eqGain (value : Z) : R := (IZR value - 50) * (12 / 50).

Definition deckEffect (deck : DeckState) (n : DeckNodes) : DeckNodes :=
  let n1 := set_filterNode (filterFreq deck) n in
  let n2 := set_trimNode (trimGain (gain deck)) n1 in
  let n3 := set_eqHighNode (eqGain (eqHigh deck)) n2 in
  let n4 := set_eqMidNode (eqGain (eqMid deck)) n3 in
  let n5 := set_eqLowNode (eqGain (eqLow deck)) n4 in
  set_drumInputGain (IZR (drumInputVolume deck) / 100) n5.

(** The two constants [gainA] and [gainB] of the crossfade effect. *)
Definition crossfadeGainA (crossfade : R) : R :=
  let x := (crossfade + 1) / 2 in cos (x * 0.5 * PI).
Definition crossfadeGainB (crossfade : R) : R :=
  let x := (crossfade + 1) / 2 in cos ((1 - x) * 0.5 * PI).

Definition mixerEffect (st : App) (g : AudioGraph) : AudioGraph :=
  let g1 := set_masterBus (volume st) g in
  let g2 := set_chain A (set_gainNode (crossfadeGainA (crossfade st)) (chain A g1)) g1 in
  set_chain B (set_gainNode (crossfadeGainB (crossfade st)) (chain B g2)) g2.

(** All deck and mixer effects brought up to date with the signals.  The
    effects on the video elements, the master equaliser and the microphone
    write nothing that is modelled here. *)
Definition setupAudioEffects (st : App) : App :=
  let st1 := update_player A (playerEffect (deckA st) (isScratchingA st)) st in
  let st2 := update_player B (playerEffect (deckB st1) (isScratchingB st1)) st1 in
  match audio st2 with
  | Some g =>
      let g1 := set_chain A (deckEffect (deckA st2) (chain A g)) g in
      let g2 := set_chain B (deckEffect (deckB st2) (chain B g1)) g1 in
      set_audio (Some (mixerEffect st2 g2)) st2
  | None => st2
  end.

(** *** Playlist and transport *)

Definition currentPlayerTrack (st : App) : option Track :=
  let idx := currentTrackIndex st in
  if (0 <=? idx)%Z && (idx <? Z.of_nat (length (playlist st)))%Z
  then playlist st !! Z.to_nat idx else None.

Definition loadTrack (t : Track) (d : DeckId) (autoplay : bool) (st : App) : App :=
  let st1 := ensureAudioContext st in
  set_deckSignal d
    (set_wasPlayingBeforeScratch autoplay
       (set_isPlaying autoplay (set_track t initialDeckState))) st1.

(** [loadTrackToDeck]; the search box it clears is not modelled. *)
Definition loadTrackToDeck (t : Track) (d : DeckId) (st : App) : App :=
  loadTrack t d true st.

Definition addTrackToPlaylist (t : Track) (playImmediate : bool) (st : App) : App :=
  let st1 := set_playlist (playlist st ++ [t]) st in
  if playImmediate || (currentTrackIndex st1 =? -1)%Z
  then set_currentTrackIndex (Z.of_nat (length (playlist st1)) - 1)%Z st1
  else st1.

Definition playTrackFromPlaylist (index : Z) (st : App) : App :=
  if (0 <=? index)%Z && (index <? Z.of_nat (length (playlist st)))%Z then
    let st1 := set_currentTrackIndex index st in
    if isPlayerMode (mainViewMode st1) then
      match playlist st !! Z.to_nat index with
      | Some t =>
          set_deckA
            (set_wasPlayingBeforeScratch true
               (set_isPlaying true (set_track t initialDeckState))) st1
      | None => st1
      end
    else st1
  else st.

(** [playNext] and [playPrevious]; with an empty playlist the source
    computes [NaN], which is outside the model. *)
Definition playNext (st : App) : App :=
  set_currentTrackIndex
    (JS.rem (currentTrackIndex st + 1) (Z.of_nat (length (playlist st)))) st.
Definition playPrevious (st : App) : App :=
  let n := Z.of_nat (length (playlist st)) in
  set_currentTrackIndex (JS.rem (currentTrackIndex st - 1 + n) n) st.

Definition togglePlayPause (d : DeckId) (st : App) : App :=
  if JS.truthy (audioSrc (track (deckSignal d st))) then
    let st1 := ensureAudioContext st in
    update_deck d
      (fun x => set_wasPlayingBeforeScratch (negb (isPlaying x))
                  (set_isPlaying (negb (isPlaying x)) x)) st1
  else if isPlayerMode (mainViewMode st) && (0 <? length (playlist st))%nat then
    playTrackFromPlaylist
      (if (0 <=? currentTrackIndex st)%Z then currentTrackIndex st else 0%Z) st
  else st.

Definition onProgressChange (value : R) (d : DeckId) (st : App) : App :=
  match audioPlayer d st with
  | None => st
  | Some p =>
      let st1 := set_audioPlayer d (Some (HTMLMediaElement.set_currentTime value p)) st in
      update_deck d (set_progress value) st1
  end.

(** [onTimeUpdate] and [onLoadedMetadata], with the value read from the
    event's target. *)
Definition onTimeUpdate (currentTime : R) (d : DeckId) (st : App) : App :=
  if isScratching d st then st else update_deck d (set_progress currentTime) st.
Definition onLoadedMetadata (duration : R) (d : DeckId) (st : App) : App :=
  update_deck d (set_duration duration) st.

Definition onEnded (d : DeckId) (st : App) : App :=
  let len := Z.of_nat (length (playlist st)) in
  if isPlayerMode (mainViewMode st) && isA d && (0 <? len)%Z
     && (currentTrackIndex st <? len - 1)%Z
  then playNext st
  else if negb (loop (deckSignal d st)) then
    let st1 := update_deck d (fun x => set_progress 0 (set_isPlaying false x)) st in
    update_player d (HTMLMediaElement.set_currentTime 0) st1
  else st.

Definition onPitchChange (value : R) (d : DeckId) (st : App) : App :=
  update_deck d (set_playbackRate value) st.

Definition onFilterChange (value : R) (d : DeckId) (st : App) : App :=
  let minFreq := 20 in
  let maxFreq := 20000 in
  let freq := minFreq * JS.Math_pow (maxFreq / minFreq) value in
  update_deck d (set_filterFreq freq) st.

Definition onGainChange (value : Z) (d : DeckId) (st : App) : App :=
  update_deck d (set_gain value) st.
Definition onEqChange (value : Z) (d : DeckId) (band : EqBandName) (st : App) : App :=
  update_deck d
    (match band with
     | High => set_eqHigh value
     | Mid => set_eqMid value
     | Low => set_eqLow value
     end) st.
Definition onDrumInputVolumeChange (value : Z) (d : DeckId) (st : App) : App :=
  update_deck d (set_drumInputVolume value) st.
Definition onCrossfadeChange (value : R) (st : App) : App := set_crossfade value st.
Definition onVolumeChange (value : R) (st : App) : App := set_volume value st.
Definition toggleLoop (d : DeckId) (st : App) : App :=
  update_deck d (fun x => set_loop (negb (loop x)) x) st.

(** [openFilePickerForDeck] and [handleFileInput]; [file] is the track
    built from the chosen file, [None] when no file was chosen. *)
Definition openFilePickerForDeck (d : option DeckId) (st : App) : App :=
  set_loadingTargetDeck d st.
Definition handleFileInput (file : option Track) (st : App) : App :=
  match file with
  | None => st
  | Some newTrack =>
      if isPlayerMode (mainViewMode st) then addTrackToPlaylist newTrack true st
      else
        match loadingTargetDeck st with
        | Some targetDeck =>
            set_loadingTargetDeck None
              (unrouteDrumMachine targetDeck (loadTrackToDeck newTrack targetDeck st))
        | None => st
        end
  end.

Definition nextMode (m : ViewMode) : ViewMode :=
  match m with
  | player => dj
  | dj => drum
  | drum => image_editor
  | image_editor => video_editor
  | video_editor => player
  end.

Definition toggleMainViewMode (st : App) : App :=
  let newMode := nextMode (mainViewMode st) in
  let st1 :=
    match newMode with
    | player =>
        unrouteDrumMachine B
          (unrouteDrumMachine A (set_deckB initialDeckState (set_crossfade (-1) st)))
    | dj => set_crossfade 0 st
    | _ => st
    end in
  set_mainViewMode newMode st1.

(** The effect registered in the constructor, which follows the player's
    current track. *)
Definition playerTrackEffect (st : App) : App :=
  match currentPlayerTrack st with
  | Some t =>
      if isPlayerMode (mainViewMode st) then
        loadTrack t A (isPlaying (deckA st) || (length (playlist st) =? 1)%nat) st
      else st
  | None =>
      if (length (playlist st) =? 0)%nat && isPlayerMode (mainViewMode st) then
        set_deckA
          (set_track
             (mkTrack "NO SIGNAL" "Load a track to start"
                "https://picsum.photos/seed/placeholder/500/500" "" None)
             initialDeckState) st
      else st
  end.

(** *** Scratching *)

(** The pointer's angle around the centre of the platter. *)
Definition pointerAngle (event : PointerEvent) (rect : DOMRect.t) : R :=
  let centerX := DOMRect.left rect + DOMRect.width rect / 2 in
  let centerY := DOMRect.top rect + DOMRect.height rect / 2 in
  JS.Math_atan2 (clientY event - centerY) (clientX event - centerX).

Definition onScratchStart (event : PointerEvent) (d : DeckId) (st : App) : App :=
  let st1 := ensureAudioContext st in
  if Req_dec_T (duration (deckSignal d st1)) 0 then st1
  else if isDrumRouted d st1 then st1
  else
    let rect := currentTarget event in
    let s := mkScratch true (pointerAngle event rect) (Some rect)
               (Some (clientX event)) (Some (clientY event)) in
    let st2 := set_scratchState d s st1 in
    let st3 := update_deck d
                 (fun x => set_wasPlayingBeforeScratch (isPlaying x)
                             (set_isPlaying false x)) st2 in
    let st4 := set_isScratching d true st3 in
    update_player d HTMLMediaElement.pause st4.

(** The two lines under "Handle angle wrap-around". *)
Definition wrapAngle (deltaAngle : R) : R :=
  let d1 := if Rlt_dec PI deltaAngle then deltaAngle - 2 * PI else deltaAngle in
  if Rlt_dec d1 (- PI) then d1 + 2 * PI else d1.

(** The local function [processDeck] of [onScratch].  [scratchRotation]
    holds the number of degrees that the source keeps inside the string
    [rotate(...deg)]. *)
Definition processDeck (d : DeckId) (event : PointerEvent) (st : App) : App :=
  let s := scratchState d st in
  match platterElement s with
  | None => st
  | Some rect =>
      if negb (active s) || negb (isScratching d st) then st
      else
        match audioPlayer d st with
        | None => st
        | Some p =>
            if Req_dec_T (duration (deckSignal d st)) 0 then st
            else
              let currentAngle := pointerAngle event rect in
              let deltaAngle := wrapAngle (currentAngle - lastAngle s) in
              let audioTimeChange := deltaAngle * SCRATCH_SENSITIVITY / (2 * PI) in
              let t := JS.Math_max 0
                         (JS.Math_min (HTMLMediaElement.duration p)
                            (HTMLMediaElement.currentTime p + audioTimeChange)) in
              let st1 := set_audioPlayer d (Some (HTMLMediaElement.set_currentTime t p)) st in
              let st2 := set_scratchRotation d
                           (scratchRotation d st1 + deltaAngle * 180 / PI) st1 in
              set_scratchState d
                (mkScratch (active s) currentAngle (platterElement s)
                   (initialTouchX s) (initialTouchY s)) st2
        end
  end.

Definition onScratch (event : PointerEvent) (st : App) : App :=
  if negb (active (scratchStateA st)) && negb (active (scratchStateB st)) then st
  else
    let st1 := ensureAudioContext st in
    processDeck B event (processDeck A event st1).

(** The local function [restoreDeck] of [onScratchEnd]. *)
Definition restoreDeck (d : DeckId) (st : App) : App :=
  let s := scratchState d st in
  if active s then
    let st1 := set_scratchState d
                 (mkScratch false (lastAngle s) (platterElement s)
                    (initialTouchX s) (initialTouchY s)) st in
    if isScratching d st1 then
      let st2 := set_isScratching d false st1 in
      let st3 := if wasPlayingBeforeScratch (deckSignal d st2)
                 then update_player d HTMLMediaElement.play st2 else st2 in
      update_deck d
        (fun x => set_isPlaying (wasPlayingBeforeScratch (deckSignal d st3)) x) st3
    else st1
  else st.

Definition onScratchEnd (st : App) : App := restoreDeck B (restoreDeck A st).

(** *** Runs of the component *)

(** What can happen to the component: a handler is called, the pending
    effects run, or (the last two) the view attaches the two audio elements
    or an element's own clock and metadata change.  The handlers for search,
    recording, the microphone, themes, album art and the assistant's
    commands are left out. *)
Inductive Event : Type :=
| TogglePlayPause (d : DeckId)
| OnProgressChange (value : R) (d : DeckId)
| OnTimeUpdate (currentTime : R) (d : DeckId)
| OnLoadedMetadata (duration : R) (d : DeckId)
| OnEnded (d : DeckId)
| OnPitchChange (value : R) (d : DeckId)
| OnFilterChange (value : R) (d : DeckId)
| OnGainChange (value : Z) (d : DeckId)
| OnEqChange (value : Z) (d : DeckId) (band : EqBandName)
| OnDrumInputVolumeChange (value : Z) (d : DeckId)
| OnCrossfadeChange (value : R)
| OnVolumeChange (value : R)
| ToggleLoop (d : DeckId)
| OpenFilePickerForDeck (d : option DeckId)
| HandleFileInput (file : option Track)
| AddTrackToPlaylist (t : Track) (playImmediate : bool)
| LoadTrackToDeck (t : Track) (d : DeckId)
| PlayTrackFromPlaylist (index : Z)
| PlayNext
| PlayPrevious
| ToggleMainViewMode
| HandleDrumRoute (event : RouteEvent)
| UnrouteDrumMachine (d : DeckId)
| OnScratchStart (event : PointerEvent) (d : DeckId)
| OnScratch (event : PointerEvent)
| OnScratchEnd
| RunEffects
| RunPlayerTrackEffect
| AttachPlayers
| MediaClock (d : DeckId) (currentTime duration : R).

Definition handle (e : Event) (st : App) : App :=
  match e with
  | TogglePlayPause d => togglePlayPause d st
  | OnProgressChange v d => onProgressChange v d st
  | OnTimeUpdate t d => onTimeUpdate t d st
  | OnLoadedMetadata t d => onLoadedMetadata t d st
  | OnEnded d => onEnded d st
  | OnPitchChange v d => onPitchChange v d st
  | OnFilterChange v d => onFilterChange v d st
  | OnGainChange v d => onGainChange v d st
  | OnEqChange v d band => onEqChange v d band st
  | OnDrumInputVolumeChange v d => onDrumInputVolumeChange v d st
  | OnCrossfadeChange v => onCrossfadeChange v st
  | OnVolumeChange v => onVolumeChange v st
  | ToggleLoop d => toggleLoop d st
  | OpenFilePickerForDeck d => openFilePickerForDeck d st
  | HandleFileInput file => handleFileInput file st
  | AddTrackToPlaylist t b => addTrackToPlaylist t b st
  | LoadTrackToDeck t d => loadTrackToDeck t d st
  | PlayTrackFromPlaylist i => playTrackFromPlaylist i st
  | PlayNext => playNext st
  | PlayPrevious => playPrevious st
  | ToggleMainViewMode => toggleMainViewMode st
  | HandleDrumRoute event => handleDrumRoute event st
  | UnrouteDrumMachine d => unrouteDrumMachine d st
  | OnScratchStart event d => onScratchStart event d st
  | OnScratch event => onScratch event st
  | OnScratchEnd => onScratchEnd st
  | RunEffects => setupAudioEffects st
  | RunPlayerTrackEffect => playerTrackEffect st
  | AttachPlayers =>
      set_audioPlayerB (Some HTMLMediaElement.fresh)
        (set_audioPlayerA (Some HTMLMediaElement.fresh) st)
  | MediaClock d t dur =>
      update_player d
        (fun p => HTMLMediaElement.set_duration dur (HTMLMediaElement.set_currentTime t p)) st
  end.

Definition run (es : list Event) (st : App) : App :=
  fold_left (fun s e => handle e s) es st.

Inductive reachable : App -> Prop :=
| reachable_init : reachable init
| reachable_step e st : reachable st -> reachable (handle e st).

(** *** The filter slider *)

(** [getNormalizedFilterValue]: where the slider stands for a frequency. *)
Definition getNormalizedFilterValue (freq : R) : R :=
  let minFreq := 20 in
  let maxFreq := 20000 in
  if Rle_dec freq minFreq then 0
  else if Rle_dec maxFreq freq then 1
  else (JS.Math_log freq - JS.Math_log minFreq)
       / (JS.Math_log maxFreq - JS.Math_log minFreq).

End App.

(** * Terms used in the statements *)

Section SequencerTerms.

Import DrumMachine.

(** The step index is [-1] (never started) or a slot of the grid. *)
Definition step_in_range (s : State) : Prop :=
  (-1 <= currentStep s < 16)%Z.

(** The delay of the pending tick, in seconds. *)
Definition nextTickSeconds (s : State) : option R :=
  (fun ms => (ms / 1000)%R) <$> timerId s.

(** What the sentence of the specification asks of a reassignment: the
    pattern is found under the new key, and the old key is kept exactly
    when some pad still uses it. *)
Definition retains_shared_key : Prop :=
  forall (s s' : State) (i : nat) (P : Pad.t) (S : list bool) (e : AssignEvent),
    selectedPadIndex s = Some i ->
    pads s !! i = Some P ->
    sequence s !! Pad.sampleKey P = Some S ->
    assignSampleToPad e s = Some s' ->
    let still_used :=
      exists j Q, j <> i /\ pads s' !! j = Some Q
                  /\ Pad.sampleKey Q = Pad.sampleKey P in
    sequence s' !! ev_sampleKey e = Some S
    /\ (still_used -> is_Some (sequence s' !! Pad.sampleKey P))
    /\ (~ still_used -> sequence s' !! Pad.sampleKey P = None).

(** The stock kit after the second pad was given the first pad's sample:
    both pads use ["kick808"]. *)
Definition shared_key_state : State :=
  default init
    (assignSampleToPad (mkAssign "kick808" None) (openSampleLibrary 1 init)).

End SequencerTerms.

Section AppTerms.

Import App.
Local Open Scope R_scope.

(** The deck's gain after the crossfader, as a function of the deck. *)
Definition crossfadeGain (d : DeckId) (c : R) : R :=
  match d with A => crossfadeGainA c | B => crossfadeGainB c end.

(** A track with a source. *)
Definition some_track : Track :=
  mkTrack "Mix 1" "Online" "art" "https://example.org/1.mp3" None.

(** A state whose graph has been built: the elements are attached and
    loading a track creates the context. *)
Definition built_state : App :=
  run [AttachPlayers; LoadTrackToDeck some_track A] init.

(** The two mappings of the filter control in the words of the
    specification: [freq = 20 * (20000/20)^value], and its inverse
    [(ln freq - ln 20) / (ln 20000 - ln 20)] clamped to [[0,1]]. *)
Definition normalizedToFrequency (v : R) : R := 20 * Rpower (20000 / 20) v.

Definition frequencyToNormalized (f : R) : R :=
  Rmax 0 (Rmin 1 ((ln f - ln 20) / (ln 20000 - ln 20))).

(** The deck that is not [d]. *)
Definition otherDeck (d : DeckId) : DeckId :=
  match d with A => B | B => A end.

(** The wiring of a deck's drum-input tap: the wrapped stream and the two
    edges. *)
Definition tapOf (n : DeckNodes) : MediaStream * bool * bool :=
  (drumInputSource n, drumInputSource_out n, drumInputGain_out n).

Definition tapsOf (st : App) : option (MediaStream * bool * bool * (MediaStream * bool * bool)) :=
  (fun g => (tapOf (chainA g), tapOf (chainB g))) <$> audio st.

(** A tap is sound when both edges exist and, unless the deck is routed,
    it wraps the silent stream. *)
Definition tap_ok (routed : bool) (t : MediaStream * bool * bool) : Prop :=
  t.1.2 = true /\ t.2 = true /\ (routed = false -> t.1.1 = dummyDrumStream).

(** The invariant of routing: never both flags, sound taps once the graph
    exists, and no flag before it exists. *)
Definition routing_inv (st : App) : Prop :=
  ~ (isDrumRoutedA st = true /\ isDrumRoutedB st = true)
  /\ match tapsOf st with
     | Some (tA, tB) => tap_ok (isDrumRoutedA st) tA /\ tap_ok (isDrumRoutedB st) tB
     | None => isDrumRoutedA st = false /\ isDrumRoutedB st = false
     end.

(** [st'] has the routing flags and the tap wiring of [st]. *)
Definition same_routing (st st' : App) : Prop :=
  isDrumRoutedA st' = isDrumRoutedA st
  /\ isDrumRoutedB st' = isDrumRoutedB st
  /\ tapsOf st' = tapsOf st.

(** The handlers that do not deal with routing keep flags and wiring, after
    at most creating the graph. *)
Definition plain_event (e : Event) : bool :=
  match e with
  | HandleFileInput _ | ToggleMainViewMode | HandleDrumRoute _
  | UnrouteDrumMachine _ => false
  | _ => true
  end.

(** The stream of the sequencer's destination node. *)
Definition drum_stream : MediaStream := externalStream 1.

(** Deck B carries the drum stream. *)
Definition routed_to_B : App :=
  run [HandleDrumRoute (mkRoute drum_stream (Some B))] built_state.

(** The test that makes [onEnded] advance the playlist instead of stopping
    the deck. *)
Definition advances (d : DeckId) (st : App) : bool :=
  isPlayerMode (mainViewMode st) && isA d
  && (currentTrackIndex st + 1 <? Z.of_nat (length (playlist st)))%Z.

(** Player mode with two tracks in the list and the first one current. *)
Definition two_tracks : App :=
  run [AddTrackToPlaylist some_track false;
       AddTrackToPlaylist (mkTrack "Wave 2" "Synth" "art" "https://example.org/2.mp3" None) false]
      init.

(** The last recorded angle of either deck is always an angle of
    [(-PI, PI]]: it is 0 at the start and afterwards a pointer angle. *)
Definition angle_inv (st : App) : Prop :=
  forall d, - PI < lastAngle (scratchState d st) <= PI.

(** The position written by a move. *)
Definition scratchedTime (p : HTMLMediaElement.t) (deltaAngle : R) : R :=
  Rmax 0
    (Rmin (HTMLMediaElement.duration p)
       (HTMLMediaElement.currentTime p + deltaAngle * SCRATCH_SENSITIVITY / (2 * PI))).

(** What the sentence of the specification asks of the delta: an angle of
    the half-open interval [(-PI, PI]]. *)
Definition scratch_delta_half_open : Prop :=
  forall (st : App) (event : PointerEvent) (d : DeckId) (rect : DOMRect.t)
         (p : HTMLMediaElement.t),
    reachable st ->
    active (scratchState d st) = true ->
    platterElement (scratchState d st) = Some rect ->
    isScratching d st = true ->
    audioPlayer d st = Some p ->
    duration (deckSignal d st) <> 0 ->
    - PI < wrapAngle (pointerAngle event rect - lastAngle (scratchState d st)) <= PI.

(** A platter centred at the origin, and the pointer straight left and
    straight right of its centre. *)
Definition platter : DOMRect.t := DOMRect.mk (-1) (-1) 2 2.

Definition pointer_left : PointerEvent := mkPointer (-1) 0 platter.

Definition pointer_right : PointerEvent := mkPointer 1 0 platter.

(** Deck A holds a three-minute track at 0:10 ... *)
Definition loaded_state : App :=
  run [OnLoadedMetadata 180 A; MediaClock A 10 180] built_state.

(** ... and is grabbed with the pointer straight left of the centre. *)
Definition scratching_state : App := onScratchStart pointer_left A loaded_state.

End AppTerms.

(** * More of the components *)

(** ** drum-machine.component.ts: pads, keys, MIDI, routing requests *)

Module KeyboardEvent.
Record t : Type := mk {
  repeat : bool;
  key : string;
}.
End KeyboardEvent.

Module DrumPads.

Import DrumMachine.

(** [MIDI_NOTE_TO_PAD_MAP[note]]; [None] is [undefined]. *)
Definition MIDI_NOTE_TO_PAD_MAP (note : Z) : option nat :=
  match note with
  | 36%Z => Some 0 | 37%Z => Some 1 | 38%Z => Some 2 | 39%Z => Some 3
  | 40%Z => Some 4 | 41%Z => Some 5 | 42%Z => Some 6 | 43%Z => Some 7
  | 44%Z => Some 8 | 45%Z => Some 9 | 46%Z => Some 10 | 47%Z => Some 11
  | 48%Z => Some 12 | 49%Z => Some 13 | 50%Z => Some 14 | 51%Z => Some 15
  | _ => None
  end.

(** [KEY_TO_PAD_MAP]. *)
Definition KEY_TO_PAD_MAP : gmap string nat :=
  list_to_map
    [ ("1", 0); ("2", 1); ("3", 2); ("4", 3);
      ("q", 4); ("w", 5); ("e", 6); ("r", 7);
      ("a", 8); ("s", 9); ("d", 10); ("f", 11);
      ("z", 12); ("x", 13); ("c", 14); ("v", 15) ].

(** [triggerPad]: the pad's sample is handed to [playSound]; an index that
    is not a pad does nothing.  The lit pads are not modelled. *)
Definition triggerPad (padIndex : nat) (s : State) : State :=
  match pads s !! padIndex with
  | None => s
  | Some pad => set_played (played s ++ [Pad.sampleKey pad]) s
  end.

(** [onMidiMessage], with [data] the bytes of the message:
    [const [command, note] = message.data]; a missing or zero [note] is
    falsy. *)
Definition onMidiMessage (data : list Z) (s : State) : State :=
  match data with
  | command :: note :: _ =>
      if (command =? 144)%Z && negb (note =? 0)%Z then
        match MIDI_NOTE_TO_PAD_MAP note with
        | Some padIndex => triggerPad padIndex s
        | None => s
        end
      else s
  | _ => s
  end.

Section Keys.

(** [String.prototype.toLowerCase] is taken as given. *)
Variable toLowerCase : string -> string.

Definition handleKeyDown (event : KeyboardEvent.t) (s : State) : State :=
  if KeyboardEvent.repeat event then s
  else
    match KEY_TO_PAD_MAP !! toLowerCase (KeyboardEvent.key event) with
    | Some padIndex => triggerPad padIndex s
    | None => s
    end.

End Keys.

(** What is left of [assignSampleToPad] when it raises: the custom sample,
    if any, has been stored and nothing else was written. *)
Definition storeCustomSample (event : AssignEvent) (s : State) : State :=
  match selectedPadIndex s, base64Data event with
  | Some _, Some d =>
      if JS.truthy d
      then set_customSampleData (<[ev_sampleKey event := d]> (customSampleData s)) s
      else s
  | _, _ => s
  end.

(** What can happen to the sequencer.  [TimerFired] is the pending timeout
    running its callback; without a pending timeout nothing fires. *)
Inductive Event : Type :=
| Start
| Stop
| ResetSequencer
| TimerFired
| OnBpmChange (value : option Z)
| ChangeKit (kitName : string)
| OpenSampleLibrary (padIndex : nat)
| CloseSampleLibrary
| AssignSampleToPad (event : AssignEvent)
| ToggleStep (padIndex stepIndex : nat)
| TriggerPad (padIndex : nat)
| OnMidiMessage (data : list Z).

Definition handle (e : Event) (s : State) : State :=
  match e with
  | Start => start s
  | Stop => stop s
  | ResetSequencer => resetSequencer s
  | TimerFired =>
      match timerId s with
      | Some _ => timerCallback s
      | None => s
      end
  | OnBpmChange value => onBpmChange value s
  | ChangeKit kitName => changeKit kitName s
  | OpenSampleLibrary padIndex => openSampleLibrary padIndex s
  | CloseSampleLibrary => closeSampleLibrary s
  | AssignSampleToPad event =>
      match assignSampleToPad event s with
      | Some s' => s'
      | None => storeCustomSample event s
      end
  | ToggleStep padIndex stepIndex => toggleStep padIndex stepIndex s
  | TriggerPad padIndex => triggerPad padIndex s
  | OnMidiMessage data => onMidiMessage data s
  end.

Inductive reachable : State -> Prop :=
| reachable_init : reachable init
| reachable_step e s : reachable s -> reachable (handle e s).

(** [toggleRouteToDeck] and [unrouteDrum]: the request sent to the mixer,
    given the two routing inputs and the stream of the destination node. *)
Definition toggleRouteToDeck (deckId : App.DeckId) (isDrumRoutedA isDrumRoutedB : bool)
    (stream : App.MediaStream) : App.RouteEvent :=
  let isCurrentlyRouted :=
    match deckId with App.A => isDrumRoutedA | App.B => isDrumRoutedB end in
  if isCurrentlyRouted then App.mkRoute stream None
  else App.mkRoute stream (Some deckId).

Definition unrouteDrum (deckId : App.DeckId) (stream : App.MediaStream) : App.RouteEvent :=
  App.mkRoute stream None.

End DrumPads.

(** ** app.component.ts: playlist removal, meters, microphone filter *)

Module TrackIdentifier.
Record t : Type := mk {
  index : option Z;
  title : option string;
}.
End TrackIdentifier.

Module Playlist.

Import App.

(** [Array.prototype.findIndex]: the first position that passes, or [-1]. *)
Fixpoint findIndex {X : Type} (f : X -> bool) (l : list X) : Z :=
  match l with
  | [] => -1
  | x :: l' =>
      if f x then 0
      else let i := findIndex f l' in if (i <? 0)%Z then -1 else (i + 1)
  end%Z.

Section Remove.

Variable toLowerCase : string -> string.

(** [removeTrackFromPlaylist].  [filter((_, i) => i !== indexToRemove)] is
    the list without position [indexToRemove]. *)
Definition removeTrackFromPlaylist (identifier : TrackIdentifier.t) (st : App) : App :=
  let currentPlaylist := playlist st in
  let indexToRemove :=
    match TrackIdentifier.index identifier with
    | Some i => i
    | None =>
        match TrackIdentifier.title identifier with
        | Some t =>
            if JS.truthy t then
              findIndex
                (fun tr => String.eqb (toLowerCase (App.title tr)) (toLowerCase t))
                currentPlaylist
            else (-1)%Z
        | None => (-1)%Z
        end
    end in
  if (0 <=? indexToRemove)%Z && (indexToRemove <? Z.of_nat (length currentPlaylist))%Z then
    let newPlaylist := delete (Z.to_nat indexToRemove) currentPlaylist in
    let st1 :=
      if (currentTrackIndex st =? indexToRemove)%Z then
        set_deckA initialDeckState (set_currentTrackIndex (-1) st)
      else if (indexToRemove <? currentTrackIndex st)%Z then
        set_currentTrackIndex (currentTrackIndex st - 1) st
      else st in
    set_playlist newPlaylist st1
  else st.

End Remove.

End Playlist.

Module VuMeter.

Local Open Scope R_scope.

(** [calculatePeak] of [updateVuMeters], on the bytes read from the
    analyser. *)
Definition calculatePeak (dataArray : list Z) : R :=
  IZR (fold_left (fun max current => Z.max max (Z.abs (current - 128))) dataArray 0%Z)
  / 128.

(** The microphone's level: the mean of the frequency bytes over 255. *)
Definition micLevel (vuDataArrayMic : list Z) : R :=
  let sum := fold_left (fun sum b => (sum + b)%Z) vuDataArrayMic 0%Z in
  let average := IZR sum / INR (length vuDataArrayMic) in
  average / 255.

(** A [Uint8Array] holds bytes. *)
Definition bytes (l : list Z) : Prop := Forall (fun b => (0 <= b <= 255)%Z) l.

End VuMeter.

Module Microphone.

Local Open Scope R_scope.



End Microphone.

(** ** Terms used in the further statements *)

Section MoreTerms.

(** The sequencer's invariant: a positive tempo, a step that is [-1] or a
    slot of the grid, and a pending tick exactly while playing. *)
Definition sequencer_inv (s : DrumMachine.State) : Prop :=
  (0 < DrumMachine.bpm s)%Z
  /\ (-1 <= DrumMachine.currentStep s < 16)%Z
  /\ (DrumMachine.isPlaying s = true <-> DrumMachine.timerId s <> None).

End MoreTerms.

(** * Properties of the step sequencer *)

Section Sequencer.

Import DrumMachine.

Lemma js_rem_step (n : Z) :
  (-1 <= n)%Z -> JS.rem (n + 1) 16 = ((n + 1) mod 16)%Z.
Proof.
  intros Hn. unfold JS.rem. apply Z.rem_mod_nonneg; lia.
Qed.

Lemma playStep_fields (step : Z) (s : State) :
  bpm (playStep step s) = bpm s
  /\ currentStep (playStep step s) = currentStep s
  /\ isPlaying (playStep step s) = isPlaying s
  /\ sequence (playStep step s) = sequence s
  /\ timerId (playStep step s) = timerId s.
Proof.
  unfold playStep. destruct (step <? 0)%Z; simpl; auto.
Qed.

Lemma scheduleNextStep_playing (s : State) :
  isPlaying s = true ->
  timerId (scheduleNextStep s) = Some (60 / IZR (bpm s) / 4 * 1000)%R
  /\ currentStep (scheduleNextStep s) = currentStep s
  /\ bpm (scheduleNextStep s) = bpm s
  /\ isPlaying (scheduleNextStep s) = true.
Proof.
  intros Hp. unfold scheduleNextStep. rewrite Hp. simpl.
  destruct (playStep_fields (currentStep s) s) as (Hb & Hc & Hi & _ & _).
  unfold secondsPerStep, secondsPerBeat. rewrite Hb, Hc, Hi. auto.
Qed.

Lemma init_step_in_range : step_in_range init.
Proof. unfold step_in_range. simpl. lia. Qed.

Lemma timerCallback_step_in_range (s : State) :
  step_in_range s -> step_in_range (timerCallback s).
Proof.
  unfold step_in_range, timerCallback, scheduleNextStep. intros H.
  assert (Hr : (-1 <= JS.rem (currentStep s + 1) 16 < 16)%Z).
  { rewrite js_rem_step by lia.
    pose proof (Z.mod_pos_bound (currentStep s + 1) 16). lia. }
  destruct (negb _); simpl; [exact Hr|].
  destruct (playStep_fields (JS.rem (currentStep s + 1) 16)
              (set_currentStep (JS.rem (currentStep s + 1) 16) s)) as (_ & Hc & _).
  rewrite Hc. exact Hr.
Qed.

Lemma start_step_in_range (s : State) :
  step_in_range s -> step_in_range (start s).
Proof.
  unfold step_in_range, start, scheduleNextStep. intros H.
  destruct (isPlaying s); [exact H|]. simpl.
  match goal with
  | |- context [playStep ?a ?b] =>
      destruct (playStep_fields a b) as (_ & Hc & _); rewrite Hc
  end.
  simpl. destruct (currentStep s =? -1)%Z eqn:E; lia.
Qed.

(** [C2]  With a positive tempo, a tick of the running sequencer arms the
    next tick [(60 / bpm) / 4] seconds ahead, computed from the tempo in
    force at that tick (a tempo change before the tick is what the tick
    uses; 120 BPM gives 0.125 s and 60 BPM gives 0.25 s), and moves the
    step index to [(step + 1) mod 16].  The first tick, made by
    [scheduleNextStep] on [start], uses the same interval. *)
Theorem C2_tick_interval_and_wrap (s : State) :
  (0 < bpm s)%Z ->
  isPlaying s = true ->
  (-1 <= currentStep s)%Z ->
  nextTickSeconds (timerCallback s) = Some (60 / IZR (bpm s) / 4)%R
  /\ currentStep (timerCallback s) = ((currentStep s + 1) mod 16)%Z
  /\ (forall v : Z, (0 < v)%Z ->
        nextTickSeconds (timerCallback (onBpmChange (Some v) s))
        = Some (60 / IZR v / 4)%R)
  /\ (bpm s = 120%Z -> nextTickSeconds (timerCallback s) = Some 0.125%R)
  /\ (bpm s = 60%Z -> nextTickSeconds (timerCallback s) = Some 0.25%R)
  /\ nextTickSeconds (scheduleNextStep s) = Some (60 / IZR (bpm s) / 4)%R
  /\ nextTickSeconds (start (stop s)) = Some (60 / IZR (bpm s) / 4)%R.
Proof.
  intros Hbpm Hplay Hstep.
  assert (Hsched : forall s0 : State, isPlaying s0 = true ->
            nextTickSeconds (scheduleNextStep s0) = Some (60 / IZR (bpm s0) / 4)%R).
  { intros s0 H0. unfold nextTickSeconds.
    destruct (scheduleNextStep_playing s0 H0) as (Ht & _).
    rewrite Ht. simpl. f_equal.
    generalize (60 / IZR (bpm s0) / 4)%R. intros x. lra. }
  assert (Htick : forall s0 : State, isPlaying s0 = true ->
            nextTickSeconds (timerCallback s0) = Some (60 / IZR (bpm s0) / 4)%R).
  { intros s0 H0. unfold nextTickSeconds, timerCallback.
    destruct (scheduleNextStep_playing
                (set_currentStep (JS.rem (currentStep s0 + 1) 16) s0) H0)
      as (Ht & _).
    rewrite Ht. simpl. f_equal.
    generalize (60 / IZR (bpm s0) / 4)%R. intros x. lra. }
  split; [apply Htick; exact Hplay|].
  split.
  { unfold timerCallback.
    destruct (scheduleNextStep_playing
                (set_currentStep (JS.rem (currentStep s + 1) 16) s) Hplay)
      as (_ & Hc & _).
    rewrite Hc. simpl. apply js_rem_step. exact Hstep. }
  split.
  { intros v Hv. unfold onBpmChange.
    apply Z.ltb_lt in Hv. rewrite Hv.
    rewrite Htick by exact Hplay. reflexivity. }
  split; [intros Hb; rewrite Htick by exact Hplay; rewrite Hb; f_equal; lra|].
  split; [intros Hb; rewrite Htick by exact Hplay; rewrite Hb; f_equal; lra|].
  split; [apply Hsched; exact Hplay|].
  unfold start.
  assert (Hstop : isPlaying (stop s) = false /\ bpm (stop s) = bpm s).
  { unfold stop. destruct (timerId (set_isPlaying false s)); auto. }
  destruct Hstop as [Hs Hb]. rewrite Hs, Hsched by reflexivity.
  cbn. rewrite Hb. reflexivity.
Qed.

Lemma C2_tick_interval_and_wrap_witness :
  nextTickSeconds (timerCallback (start init)) = Some 0.125%R
  /\ currentStep (timerCallback (start init)) = 1%Z.
Proof.
  assert (H1 : (0 < bpm (start init))%Z) by (vm_compute; reflexivity).
  assert (H2 : isPlaying (start init) = true) by reflexivity.
  assert (H3 : (-1 <= currentStep (start init))%Z) by (vm_compute; discriminate).
  destruct (C2_tick_interval_and_wrap (start init) H1 H2 H3)
    as (_ & Hc & _ & H120 & _).
  split; [apply H120; reflexivity | exact Hc].
Defined.

(** *** Reassigning a pad *)

Lemma migrateSequence_new (old new : string) (m : gmap string (list bool))
    (S : list bool) :
  m !! old = Some S -> migrateSequence old new m !! new = Some S.
Proof.
  intros H. unfold migrateSequence. rewrite H. apply lookup_insert_eq.
Qed.

Lemma migrateSequence_old (old new : string) (m : gmap string (list bool))
    (S : list bool) :
  m !! old = Some S -> new <> old -> migrateSequence old new m !! old = None.
Proof.
  intros H Hne. unfold migrateSequence. rewrite H.
  rewrite lookup_insert_ne by exact Hne. apply lookup_delete_eq.
Qed.

Lemma migrateSequence_other (old new k : string) (m : gmap string (list bool)) :
  k <> new -> k <> old -> migrateSequence old new m !! k = m !! k.
Proof.
  intros Hn Ho. unfold migrateSequence. destruct (m !! old); [|reflexivity].
  rewrite lookup_insert_ne by congruence. apply lookup_delete_ne. congruence.
Qed.

Lemma assignSampleToPad_unfold (e : AssignEvent) (s : State) (i : nat) (P : Pad.t) :
  selectedPadIndex s = Some i ->
  pads s !! i = Some P ->
  exists s',
    assignSampleToPad e s = Some s'
    /\ sequence s' = migrateSequence (Pad.sampleKey P) (ev_sampleKey e) (sequence s)
    /\ pads s' = <[i := Pad.mk (Pad.name P) (Pad.key P) (ev_sampleKey e)]> (pads s)
    /\ selectedPadIndex s' = None.
Proof.
  intros Hsel Hpad. unfold assignSampleToPad. rewrite Hsel.
  destruct (base64Data e) as [d|]; [destruct (JS.truthy d)|];
    simpl; rewrite Hpad; eexists; (split; [reflexivity|]); simpl; auto.
Qed.

(** [C3, as amended]  Reassigning the selected pad, whose key holds the step
    array [S], to a new sample key leaves [S] under the new key and, when
    the new key differs from the old one, removes the old key from the
    mapping, whether or not another pad still uses it; the pad gets the new
    key, the other pads and the other entries stay as they were. *)
Theorem C3_assign_moves_pattern (s : State) (i : nat) (P : Pad.t)
    (S : list bool) (e : AssignEvent) :
  selectedPadIndex s = Some i ->
  pads s !! i = Some P ->
  sequence s !! Pad.sampleKey P = Some S ->
  exists s',
    assignSampleToPad e s = Some s'
    /\ sequence s' !! ev_sampleKey e = Some S
    /\ (ev_sampleKey e <> Pad.sampleKey P -> sequence s' !! Pad.sampleKey P = None)
    /\ (forall k, k <> ev_sampleKey e -> k <> Pad.sampleKey P ->
          sequence s' !! k = sequence s !! k)
    /\ Pad.sampleKey <$> pads s' !! i = Some (ev_sampleKey e)
    /\ (forall j, j <> i -> pads s' !! j = pads s !! j).
Proof.
  intros Hsel Hpad Hseq.
  destruct (assignSampleToPad_unfold e s i P Hsel Hpad) as (s' & Hs' & Hq & Hp & _).
  exists s'. split; [exact Hs'|]. rewrite Hq, Hp.
  split; [eapply migrateSequence_new; exact Hseq|].
  split; [intros Hne; eapply migrateSequence_old; eauto|].
  split; [intros k Hk1 Hk2; apply migrateSequence_other; assumption|].
  split.
  - rewrite list_lookup_insert_eq; [reflexivity|].
    eapply lookup_lt_Some. exact Hpad.
  - intros j Hj. apply list_lookup_insert_ne. congruence.
Qed.

Lemma C3_assign_moves_pattern_witness :
  exists s',
    assignSampleToPad (mkAssign "kick909" None) (openSampleLibrary 0 init) = Some s'
    /\ sequence s' !! "kick909" = Some (replicate 16 false)
    /\ sequence s' !! "kick808" = None.
Proof.
  destruct (C3_assign_moves_pattern (openSampleLibrary 0 init) 0
              (Pad.mk "Kick" "1" "kick808") (replicate 16 false)
              (mkAssign "kick909" None) eq_refl eq_refl eq_refl)
    as (s' & Hs' & Hnew & Hold & _).
  exists s'. split; [exact Hs'|]. split; [exact Hnew|].
  apply Hold. discriminate.
Defined.

(** [C3, as stated]  Two pads share ["kick808"]; moving the first one to
    ["kick909"] removes ["kick808"] although the second pad still uses it. *)
Lemma C3_shared_key_not_retained : ~ retains_shared_key.
Proof.
  intros H.
  pose (s := openSampleLibrary 0 shared_key_state).
  pose (e := mkAssign "kick909" None).
  assert (Hsel : selectedPadIndex s = Some 0) by reflexivity.
  assert (Hpad : pads s !! 0 = Some (Pad.mk "Kick" "1" "kick808"))
    by (vm_compute; reflexivity).
  assert (Hseq : sequence s !! "kick808" = Some (replicate 16 false))
    by (vm_compute; reflexivity).
  destruct (assignSampleToPad_unfold e s 0 _ Hsel Hpad) as (s' & Hs' & Hq & Hp & _).
  destruct (H s s' 0 _ _ e Hsel Hpad Hseq Hs') as (_ & Hkeep & _).
  assert (Hgone : sequence s' !! "kick808" = None).
  { rewrite Hq. eapply migrateSequence_old; [exact Hseq | discriminate]. }
  destruct Hkeep as [x Hx].
  - exists 1, (Pad.mk "Kick 2" "2" "kick808").
    split; [discriminate|]. split; [|reflexivity].
    rewrite Hp. rewrite list_lookup_insert_ne by discriminate.
    vm_compute. reflexivity.
  - cbn in Hx. rewrite Hgone in Hx. discriminate Hx.
Qed.

(** *** Changing the kit *)

Lemma emptySequence_lookup (ps : list Pad.t) (m : gmap string (list bool))
    (k : string) :
  fold_left (fun newSequence pad =>
               <[Pad.sampleKey pad := replicate 16 false]> newSequence) ps m !! k
  = if decide (k ∈ Pad.sampleKey <$> ps) then Some (replicate 16 false) else m !! k.
Proof.
  revert m. induction ps as [|p ps IH]; intros m.
  - reflexivity.
  - cbn [fold_left]. rewrite IH. rewrite fmap_cons.
    destruct (decide (k ∈ Pad.sampleKey <$> ps)) as [Hin|Hnin].
    + rewrite decide_True; [reflexivity|]. apply elem_of_cons. auto.
    + destruct (decide (k = Pad.sampleKey p)) as [->|Hne].
      * rewrite lookup_insert_eq. rewrite decide_True; [reflexivity|].
        apply elem_of_cons. auto.
      * rewrite lookup_insert_ne by congruence.
        rewrite decide_False; [reflexivity|].
        intros [?|?]%elem_of_cons; contradiction.
Qed.

Lemma createEmptySequence_lookup (s : State) (k : string) :
  createEmptySequence s !! k
  = if decide (k ∈ Pad.sampleKey <$> pads s) then Some (replicate 16 false) else None.
Proof.
  unfold createEmptySequence. rewrite emptySequence_lookup.
  case_decide; [reflexivity|apply lookup_empty].
Qed.

Lemma createEmptySequence_dom (s : State) :
  dom (createEmptySequence s) = list_to_set (Pad.sampleKey <$> pads s).
Proof.
  apply set_eq. intros k.
  rewrite elem_of_dom, elem_of_list_to_set, createEmptySequence_lookup.
  case_decide as Hin.
  - split; [intros _; exact Hin | intros _; eexists; reflexivity].
  - split; [intros [x Hx]; discriminate Hx | intros H; contradiction].
Qed.

Lemma changeKit_unfold (kitName : string) (kit : Kit.t) (s : State) :
  List.find (fun k => String.eqb (Kit.name k) kitName) (kits s) = Some kit ->
  activeKit (changeKit kitName s) = kit
  /\ pads (changeKit kitName s) = Kit.pads kit
  /\ isPlaying (changeKit kitName s) = false
  /\ timerId (changeKit kitName s) = None
  /\ forall k,
       sequence (changeKit kitName s) !! k
       = if decide (k ∈ Pad.sampleKey <$> Kit.pads kit)
         then Some (replicate 16 false) else None.
Proof.
  intros Hfind. unfold changeKit. rewrite Hfind.
  split; [reflexivity|]. split; [reflexivity|].
  split; [unfold stop; destruct (timerId (set_isPlaying false s)); reflexivity|].
  split.
  { unfold stop. destruct (timerId (set_isPlaying false s)) eqn:E;
      [reflexivity | exact E]. }
  intros k. cbn [sequence set_sequence]. apply createEmptySequence_lookup.
Qed.

(** [C4]  After [changeKit] with the name of a kit, that kit is active, the
    keys of the step mapping are exactly the sample keys of its pads, every
    entry is the 16-slot all-false array, every pad has its entry and every
    entry belongs to a pad (with pairwise distinct sample keys: as many
    entries as pads). *)
Theorem C4_changeKit_fresh_mapping (kitName : string) (kit : Kit.t) (s : State) :
  List.find (fun k => String.eqb (Kit.name k) kitName) (kits s) = Some kit ->
  let s' := changeKit kitName s in
  activeKit s' = kit
  /\ pads s' = Kit.pads (activeKit s')
  /\ dom (sequence s') = list_to_set (Pad.sampleKey <$> Kit.pads kit)
  /\ (forall k v, sequence s' !! k = Some v ->
        v = replicate 16 false /\ length v = 16 /\ Forall (fun b => b = false) v)
  /\ (forall p, p ∈ pads s' -> sequence s' !! Pad.sampleKey p = Some (replicate 16 false))
  /\ (forall k, is_Some (sequence s' !! k) ->
        exists p, p ∈ pads s' /\ Pad.sampleKey p = k)
  /\ (NoDup (Pad.sampleKey <$> Kit.pads kit) -> size (sequence s') = length (pads s')).
Proof.
  intros Hfind s'.
  destruct (changeKit_unfold kitName kit s Hfind) as (Hk & Hp & _ & _ & Hl).
  fold s' in Hk, Hp, Hl.
  assert (Hdom : dom (sequence s') = list_to_set (Pad.sampleKey <$> Kit.pads kit)).
  { apply set_eq. intros k.
    rewrite elem_of_dom, elem_of_list_to_set, Hl.
    case_decide as Hin.
    - split; [intros _; exact Hin | intros _; eexists; reflexivity].
    - split; [intros [x Hx]; discriminate Hx | intros H; contradiction]. }
  split; [exact Hk|]. split; [rewrite Hk; exact Hp|]. split; [exact Hdom|].
  split.
  { intros k v Hv. rewrite Hl in Hv. case_decide; [|discriminate Hv].
    injection Hv as <-. split; [reflexivity|]. split; [reflexivity|].
    repeat constructor. }
  split.
  { intros p Hin. rewrite Hl. rewrite decide_True; [reflexivity|].
    rewrite Hp in Hin. apply list_elem_of_fmap. exists p. auto. }
  split.
  { intros k [v Hv]. rewrite Hl in Hv.
    case_decide as Hin; [|discriminate Hv].
    apply list_elem_of_fmap in Hin. destruct Hin as (p & -> & Hin).
    exists p. rewrite Hp. auto. }
  intros Hnd. rewrite <- size_dom, Hdom, Hp.
  rewrite size_list_to_set by exact Hnd. apply length_fmap.
Qed.

Lemma C4_changeKit_fresh_mapping_witness :
  dom (sequence (changeKit "808 Classic" (start init)))
  = list_to_set (Pad.sampleKey <$> Kit.pads (activeKit init))
  /\ size (sequence (changeKit "808 Classic" (start init))) = 16.
Proof.
  destruct (C4_changeKit_fresh_mapping "808 Classic" (activeKit init) (start init) eq_refl)
    as (_ & _ & Hdom & _ & _ & _ & Hsize).
  split; [exact Hdom|].
  rewrite Hsize; [reflexivity|].
  compute_done.
Defined.

End Sequencer.

(** * Properties of the mixer: crossfade, trim, equaliser, filter *)

Section Mixer.

Import App.
Local Open Scope R_scope.

(** Once the graph exists, running the effects writes every deck and mixer
    parameter from the signals and leaves the drum-input wiring alone. *)
Lemma setupAudioEffects_nodes (st : App) (g : AudioGraph) :
  audio st = Some g ->
  exists g',
    audio (setupAudioEffects st) = Some g'
    /\ masterBus g' = volume st
    /\ forall d,
         trimNode (chain d g') = trimGain (gain (deckSignal d st))
         /\ eqHighNode (chain d g') = eqGain (eqHigh (deckSignal d st))
         /\ eqMidNode (chain d g') = eqGain (eqMid (deckSignal d st))
         /\ eqLowNode (chain d g') = eqGain (eqLow (deckSignal d st))
         /\ filterNode (chain d g') = filterFreq (deckSignal d st)
         /\ gainNode (chain d g') = crossfadeGain d (crossfade st)
         /\ drumInputGain (chain d g') = IZR (drumInputVolume (deckSignal d st)) / 100
         /\ drumInputSource (chain d g') = drumInputSource (chain d g)
         /\ drumInputSource_out (chain d g') = drumInputSource_out (chain d g)
         /\ drumInputGain_out (chain d g') = drumInputGain_out (chain d g).
Proof.
  intros Hg. unfold setupAudioEffects.
  destruct st; simpl in *; subst.
  eexists. split; [reflexivity|]. split; [reflexivity|].
  intros []; simpl; repeat split.
Qed.

Lemma setupAudioEffects_signals (st : App) :
  deckA (setupAudioEffects st) = deckA st
  /\ deckB (setupAudioEffects st) = deckB st
  /\ isDrumRoutedA (setupAudioEffects st) = isDrumRoutedA st
  /\ isDrumRoutedB (setupAudioEffects st) = isDrumRoutedB st
  /\ scratchStateA (setupAudioEffects st) = scratchStateA st
  /\ scratchStateB (setupAudioEffects st) = scratchStateB st.
Proof.
  unfold setupAudioEffects. destruct st as [? ? ? ? ? ? ? ? ? ? ? ? ? ? ? ? ? ? au].
  destruct au; simpl; repeat split.
Qed.






(** *** The filter slider *)

Lemma ratio_1000 : 20000 / 20 = 1000.
Proof. lra. Qed.

Lemma ln_1000_pos : 0 < ln 1000.
Proof. rewrite <- ln_1. apply ln_increasing; lra. Qed.

Lemma ln_20000 : ln 20000 = ln 20 + ln 1000.
Proof.
  replace 20000 with (20 * 1000) by lra. apply ln_mult; lra.
Qed.

Lemma ln_le_mono (x y : R) : 0 < x -> x <= y -> ln x <= ln y.
Proof.
  intros Hx [Hlt | ->]; [left; apply ln_increasing; assumption | right; reflexivity].
Qed.

Lemma onFilterChange_freq (v : R) (d : DeckId) (st : App) :
  filterFreq (deckSignal d (onFilterChange v d st)) = normalizedToFrequency v.
Proof.
  unfold onFilterChange, normalizedToFrequency, JS.Math_pow.
  destruct d, st; reflexivity.
Qed.

Lemma normalizedToFrequency_pos (v : R) : 0 < normalizedToFrequency v.
Proof.
  unfold normalizedToFrequency, Rpower.
  pose proof (exp_pos (v * ln (20000 / 20))). lra.
Qed.

Lemma ln_normalizedToFrequency (v : R) :
  ln (normalizedToFrequency v) = ln 20 + v * ln 1000.
Proof.
  unfold normalizedToFrequency. rewrite ratio_1000.
  rewrite ln_mult; [|lra|unfold Rpower; apply exp_pos].
  rewrite ln_Rpower. reflexivity.
Qed.

Lemma getNormalizedFilterValue_clamp (f : R) :
  0 < f -> getNormalizedFilterValue f = frequencyToNormalized f.
Proof.
  intros Hf. unfold getNormalizedFilterValue, frequencyToNormalized, JS.Math_log.
  cbv zeta. rewrite ln_20000.
  replace (ln 20 + ln 1000 - ln 20) with (ln 1000) by lra.
  pose proof ln_1000_pos as Hpos.
  assert (Hdiv : forall a, 0 <= a -> 0 <= a / ln 1000).
  { intros a Ha. apply Rmult_le_pos; [exact Ha|].
    left. apply Rinv_0_lt_compat. exact Hpos. }
  destruct (Rle_dec f 20) as [Hlo|Hlo].
  - assert (H : (ln f - ln 20) / ln 1000 <= 0).
    { pose proof (ln_le_mono f 20 Hf Hlo) as Hl.
      pose proof (Hdiv (ln 20 - ln f) ltac:(lra)) as H0.
      unfold Rdiv in *. lra. }
    rewrite Rmin_right by lra. rewrite Rmax_left by lra. reflexivity.
  - destruct (Rle_dec 20000 f) as [Hhi|Hhi].
    + assert (H : 1 <= (ln f - ln 20) / ln 1000).
      { pose proof (ln_le_mono 20000 f ltac:(lra) Hhi) as Hl.
        rewrite ln_20000 in Hl.
        pose proof (Hdiv (ln f - ln 20 - ln 1000) ltac:(lra)) as H0.
        replace ((ln f - ln 20 - ln 1000) / ln 1000)
          with ((ln f - ln 20) / ln 1000 - 1) in H0 by (field; lra).
        lra. }
      rewrite Rmin_left by lra. rewrite Rmax_right by lra. reflexivity.
    + assert (H1 : 0 <= (ln f - ln 20) / ln 1000).
      { apply Hdiv. pose proof (ln_increasing 20 f ltac:(lra) ltac:(lra)). lra. }
      assert (H2 : (ln f - ln 20) / ln 1000 <= 1).
      { pose proof (ln_increasing f 20000 Hf ltac:(lra)) as Hl.
        rewrite ln_20000 in Hl.
        pose proof (Hdiv (ln 20 + ln 1000 - ln f) ltac:(lra)) as H0.
        replace ((ln 20 + ln 1000 - ln f) / ln 1000)
          with (1 - (ln f - ln 20) / ln 1000) in H0 by (field; lra).
        lra. }
      rewrite Rmin_right by lra. rewrite Rmax_right by lra. reflexivity.
Qed.

(** [C7]  The slider value [v] in [[0,1]] is stored as the frequency
    [20 * (20000/20)^v]; [getNormalizedFilterValue] is the clamped
    logarithmic inverse and gives [v] back; the ends of the slider are 20 Hz
    and 20000 Hz.  Over the reals the round trip is exact. *)
Theorem C7_filter_round_trip (v : R) (d : DeckId) (st : App) :
  0 <= v <= 1 ->
  filterFreq (deckSignal d (onFilterChange v d st)) = normalizedToFrequency v
  /\ getNormalizedFilterValue (filterFreq (deckSignal d (onFilterChange v d st))) = v
  /\ getNormalizedFilterValue (normalizedToFrequency v)
     = frequencyToNormalized (normalizedToFrequency v)
  /\ frequencyToNormalized (normalizedToFrequency v) = v
  /\ normalizedToFrequency 0 = 20
  /\ normalizedToFrequency 1 = 20000.
Proof.
  intros [Hv0 Hv1].
  assert (H0 : normalizedToFrequency 0 = 20).
  { unfold normalizedToFrequency. rewrite Rpower_O by lra. lra. }
  assert (H1 : normalizedToFrequency 1 = 20000).
  { unfold normalizedToFrequency. rewrite Rpower_1 by lra. lra. }
  assert (Hrt : getNormalizedFilterValue (normalizedToFrequency v) = v).
  { unfold getNormalizedFilterValue. cbv zeta.
    destruct (Rle_dec (normalizedToFrequency v) 20) as [Hlo|Hlo].
    - destruct Hv0 as [Hpos | <-]; [|reflexivity].
      exfalso. pose proof (Rpower_lt 1000 0 v ltac:(lra) Hpos) as Hlt.
      rewrite Rpower_O in Hlt by lra.
      unfold normalizedToFrequency in Hlo. rewrite ratio_1000 in Hlo. lra.
    - destruct (Rle_dec 20000 (normalizedToFrequency v)) as [Hhi|Hhi].
      + destruct Hv1 as [Hlt1 | ->]; [|reflexivity].
        exfalso. pose proof (Rpower_lt 1000 v 1 ltac:(lra) Hlt1) as Hlt.
        rewrite Rpower_1 in Hlt by lra.
        unfold normalizedToFrequency in Hhi. rewrite ratio_1000 in Hhi. lra.
      + unfold JS.Math_log. rewrite ln_normalizedToFrequency, ln_20000.
        pose proof ln_1000_pos. field. lra. }
  split; [apply onFilterChange_freq|].
  split; [rewrite onFilterChange_freq; exact Hrt|].
  pose proof (getNormalizedFilterValue_clamp _ (normalizedToFrequency_pos v)) as Hc.
  split; [exact Hc|]. split; [rewrite <- Hc; exact Hrt|].
  split; [exact H0 | exact H1].
Qed.

Lemma C7_filter_round_trip_witness :
  getNormalizedFilterValue
    (filterFreq (deckSignal A (onFilterChange (1 / 2) A init))) = 1 / 2.
Proof.
  assert (H : 0 <= 1 / 2 <= 1) by lra.
  destruct (C7_filter_round_trip (1 / 2) A init H) as (_ & Hrt & _).
  exact Hrt.
Defined.

End Mixer.

(** * Properties of drum routing *)

Section Routing.

Import App.
Local Open Scope R_scope.

Ltac unfold_handlers :=
  unfold handle, togglePlayPause, onProgressChange, onTimeUpdate,
    onLoadedMetadata, onEnded, onPitchChange, onFilterChange, onGainChange,
    onEqChange, onDrumInputVolumeChange, onCrossfadeChange, onVolumeChange,
    toggleLoop, openFilePickerForDeck, addTrackToPlaylist,
    loadTrackToDeck, loadTrack, playTrackFromPlaylist, playNext, playPrevious,
    onScratchStart, onScratch, processDeck, onScratchEnd, restoreDeck,
    setupAudioEffects, playerTrackEffect, update_deck, update_player,
    ensureAudioContext, initAudioContext.

Ltac split_decks :=
  repeat match goal with d : DeckId |- _ => destruct d end.

Ltac split_tests :=
  repeat match goal with
    | |- context [match ?x with _ => _ end] =>
        first [is_var x; destruct x | let E := fresh "E" in destruct x eqn:E];
        cbn
    end.

Lemma routing_inv_same (st st' : App) :
  same_routing st st' -> routing_inv st -> routing_inv st'.
Proof.
  unfold same_routing, routing_inv. intros (-> & -> & ->). auto.
Qed.

Lemma routing_inv_init : routing_inv init.
Proof.
  unfold routing_inv. simpl. split; [intros [H _]; discriminate H | auto].
Qed.

Lemma routing_inv_ensure (st : App) :
  routing_inv st -> routing_inv (ensureAudioContext st).
Proof.
  unfold routing_inv, tapsOf, ensureAudioContext, initAudioContext.
  destruct st as [m dA dB c ltd sA sB rA rB ssA ssB pl idx vol routedA routedB pA pB au].
  cbn. destruct au as [g|]; [auto|].
  destruct pA, pB; cbn; auto.
  intros (_ & -> & ->). split; [intros [? ?]; discriminate|].
  unfold tap_ok. cbn. auto.
Qed.

Lemma routing_inv_unroute (d : DeckId) (st : App) :
  routing_inv st -> routing_inv (unrouteDrumMachine d st).
Proof.
  unfold routing_inv, tapsOf, unrouteDrumMachine, tap_ok, update_deck.
  destruct st as [m dA dB c ltd sA sB rA rB ssA ssB pl idx vol routedA routedB pA pB au].
  destruct au as [g|], d; cbn; intros (Hex & H1 & H2);
    (split; [intros [? ?]; try discriminate; apply Hex; auto|]);
    intuition.
Qed.

(** What [handleDrumRoute] does when the graph exists after
    [ensureAudioContext], for a request that names a deck. *)
Lemma handleDrumRoute_routes (event : RouteEvent) (d : DeckId) (g : AudioGraph)
    (st : App) :
  deckId event = Some d ->
  audio (ensureAudioContext st) = Some g ->
  exists g',
    audio (handleDrumRoute event st) = Some g'
    /\ isDrumRouted d (handleDrumRoute event st) = true
    /\ isDrumRouted (otherDeck d) (handleDrumRoute event st) = false
    /\ isPlaying (deckSignal d (handleDrumRoute event st)) = false
    /\ tapOf (chain d g') = (stream event, true, true)
    /\ tapOf (chain (otherDeck d) g') = (dummyDrumStream, true, true)
    /\ drumInputGain (chain d g') = 0
    /\ drumInputGain (chain (otherDeck d) g') = 0.
Proof.
  intros Hd Hg. unfold handleDrumRoute. rewrite Hd.
  destruct (ensureAudioContext st)
    as [m dA dB c ltd sA sB rA rB ssA ssB pl idx vol routedA routedB pA pB au].
  cbn in Hg. subst au.
  destruct d; cbn; eexists; (split; [reflexivity|]); cbn;
    repeat split; lra.
Qed.

(** Without a graph, a routing request changes no routing flag to true. *)
Lemma handleDrumRoute_no_graph (event : RouteEvent) (st : App) :
  audio (ensureAudioContext st) = None ->
  audio (handleDrumRoute event st) = None
  /\ isDrumRoutedA (handleDrumRoute event st) = false
  /\ isDrumRoutedB (handleDrumRoute event st) = false.
Proof.
  intros Hg. unfold handleDrumRoute.
  destruct (ensureAudioContext st)
    as [m dA dB c ltd sA sB rA rB ssA ssB pl idx vol routedA routedB pA pB au].
  cbn in Hg. subst au. destruct (deckId event); cbn; auto.
Qed.

(** Whatever the request, both decks have been unrouted first: their
    drum-input volumes are back to 0. *)
Lemma handleDrumRoute_volumes (event : RouteEvent) (st : App) :
  drumInputVolume (deckA (handleDrumRoute event st)) = 0%Z
  /\ drumInputVolume (deckB (handleDrumRoute event st)) = 0%Z.
Proof.
  unfold handleDrumRoute.
  destruct (ensureAudioContext st)
    as [m dA dB c ltd sA sB rA rB ssA ssB pl idx vol routedA routedB pA pB au].
  destruct au as [g|], (deckId event) as [[]|]; cbn; auto.
Qed.

Lemma handleDrumRoute_unroutes (event : RouteEvent) (st : App) :
  deckId event = None ->
  isDrumRoutedA (handleDrumRoute event st) = false
  /\ isDrumRoutedB (handleDrumRoute event st) = false
  /\ forall g', audio (handleDrumRoute event st) = Some g' ->
       forall d, tapOf (chain d g') = (dummyDrumStream, true, true)
                 /\ drumInputGain (chain d g') = 0.
Proof.
  intros Hd. unfold handleDrumRoute. rewrite Hd.
  destruct (ensureAudioContext st)
    as [m dA dB c ltd sA sB rA rB ssA ssB pl idx vol routedA routedB pA pB au].
  destruct au as [g|]; cbn; (split; [reflexivity|]); (split; [reflexivity|]).
  - intros g' Hg'. injection Hg' as <-. intros []; cbn; auto.
  - intros g' Hg'. discriminate Hg'.
Qed.

Lemma routing_inv_route (event : RouteEvent) (st : App) :
  routing_inv st -> routing_inv (handleDrumRoute event st).
Proof.
  intros _. unfold routing_inv, tapsOf.
  destruct (audio (ensureAudioContext st)) as [g|] eqn:Eg.
  - destruct (deckId event) as [d|] eqn:Ed.
    + destruct (handleDrumRoute_routes event d g st Ed Eg)
        as (g' & -> & Hr & Ho & _ & Ht & Hto & _).
      change ((fun g0 => (tapOf (chainA g0), tapOf (chainB g0))) <$> Some g')
        with (Some (tapOf (chainA g'), tapOf (chainB g'))).
      unfold tap_ok.
      destruct d; cbn [isDrumRouted otherDeck chain] in *;
        rewrite Hr, Ho, Ht, Hto; cbn;
        (split; [intros [? ?]; discriminate|]); intuition discriminate.
    + destruct (handleDrumRoute_unroutes event st Ed) as (-> & -> & Hg').
      split; [intros [? ?]; discriminate|].
      destruct (audio (handleDrumRoute event st)) as [g'|]; [|cbn; auto].
      change ((fun g0 => (tapOf (chainA g0), tapOf (chainB g0))) <$> Some g')
        with (Some (tapOf (chainA g'), tapOf (chainB g'))).
      destruct (Hg' g' eq_refl A) as [HA _], (Hg' g' eq_refl B) as [HB _].
      cbn [chain] in HA, HB. rewrite HA, HB. unfold tap_ok. cbn. auto.
  - destruct (handleDrumRoute_no_graph event st Eg) as (-> & -> & ->).
    cbn. split; [intros [? ?]; discriminate | auto].
Qed.

Lemma plain_event_same_routing (e : Event) (st : App) :
  plain_event e = true ->
  same_routing st (handle e st) \/ same_routing (ensureAudioContext st) (handle e st).
Proof.
  intros He. unfold same_routing, tapsOf.
  destruct st as [m dA dB c ltd sA sB rA rB ssA ssB pl idx vol routedA routedB pA pB au].
  destruct e; try discriminate He; clear He; split_decks;
    unfold_handlers; cbn; split_tests;
    first [ left; repeat split; reflexivity
          | right; repeat split; reflexivity
          | cbn in *; right; repeat split; congruence ].
Qed.

Lemma same_routing_set_mainViewMode (m : ViewMode) (st : App) :
  same_routing st (set_mainViewMode m st).
Proof. repeat split. Qed.

Lemma same_routing_set_crossfade (c : R) (st : App) :
  same_routing st (set_crossfade c st).
Proof. repeat split. Qed.

Lemma same_routing_set_deckB (v : DeckState) (st : App) :
  same_routing st (set_deckB v st).
Proof. repeat split. Qed.

Lemma same_routing_set_loadingTargetDeck (v : option DeckId) (st : App) :
  same_routing st (set_loadingTargetDeck v st).
Proof. repeat split. Qed.

Lemma same_routing_set_deckSignal (d : DeckId) (v : DeckState) (st : App) :
  same_routing st (set_deckSignal d v st).
Proof. destruct d; repeat split. Qed.

Lemma same_routing_addTrackToPlaylist (t : Track) (b : bool) (st : App) :
  same_routing st (addTrackToPlaylist t b st).
Proof.
  unfold addTrackToPlaylist.
  destruct (b || _); repeat split.
Qed.

Lemma routing_inv_handle (e : Event) (st : App) :
  routing_inv st -> routing_inv (handle e st).
Proof.
  intros Hinv.
  destruct (plain_event e) eqn:He.
  - destruct (plain_event_same_routing e st He) as [Hs | Hs].
    + exact (routing_inv_same _ _ Hs Hinv).
    + exact (routing_inv_same _ _ Hs (routing_inv_ensure _ Hinv)).
  - destruct e; try discriminate He; cbn [handle].
    + (* handleFileInput *)
      unfold handleFileInput. destruct file as [newTrack|]; [|exact Hinv].
      destruct (isPlayerMode (mainViewMode st)).
      * exact (routing_inv_same _ _ (same_routing_addTrackToPlaylist _ _ _) Hinv).
      * destruct (loadingTargetDeck st) as [targetDeck|]; [|exact Hinv].
        apply (routing_inv_same _ _ (same_routing_set_loadingTargetDeck _ _)).
        apply routing_inv_unroute. unfold loadTrackToDeck, loadTrack.
        apply (routing_inv_same _ _ (same_routing_set_deckSignal _ _ _)).
        apply routing_inv_ensure. exact Hinv.
    + (* toggleMainViewMode *)
      unfold toggleMainViewMode.
      apply (routing_inv_same _ _ (same_routing_set_mainViewMode _ _)).
      destruct (nextMode (mainViewMode st));
        try exact (routing_inv_same _ _ (same_routing_set_crossfade _ _) Hinv);
        try exact Hinv.
      apply routing_inv_unroute, routing_inv_unroute.
      apply (routing_inv_same _ _ (same_routing_set_deckB _ _)).
      exact (routing_inv_same _ _ (same_routing_set_crossfade _ _) Hinv).
    + apply routing_inv_route. exact Hinv.
    + apply routing_inv_unroute. exact Hinv.
Qed.

Lemma reachable_routing_inv (st : App) : reachable st -> routing_inv st.
Proof.
  induction 1 as [|e st _ IH]; [apply routing_inv_init | apply routing_inv_handle, IH].
Qed.

(** A routed deck implies that the graph exists. *)
Lemma routed_has_graph (st : App) (d : DeckId) :
  routing_inv st -> isDrumRouted d st = true -> exists g, audio st = Some g.
Proof.
  unfold routing_inv, tapsOf. intros (_ & H) Hr.
  destruct (audio st) as [g|]; [eauto|].
  cbn in H. destruct H as [HA HB]. destruct d; cbn in Hr; congruence.
Qed.

Lemma ensureAudioContext_some (st : App) (g : AudioGraph) :
  audio st = Some g -> ensureAudioContext st = st.
Proof. intros H. unfold ensureAudioContext. rewrite H. reflexivity. Qed.

(** The edges of the deck's own track chain are not touched by routing;
    the element is paused by the play/pause effect of the deck. *)
Lemma paused_after_effects (st : App) (d : DeckId) (p : HTMLMediaElement.t) :
  isPlaying (deckSignal d st) = false ->
  audioPlayer d (setupAudioEffects st) = Some p ->
  HTMLMediaElement.paused p = true.
Proof.
  unfold setupAudioEffects.
  destruct st as [m dA dB c ltd sA sB rA rB ssA ssB pl idx vol routedA routedB pA pB au].
  destruct d, au, pA, pB; cbn; intros Hp H; try discriminate H;
    injection H as <-; unfold playerEffect; rewrite Hp; reflexivity.
Qed.

(** [C5]  In every reachable state at most one deck is routed, and a
    routing request keeps it so.  A request for deck [d] made while the
    other deck is routed leaves the other deck unrouted, its tap wired to
    the silent stream at gain 0, and leaves [d] routed with its tap wired to
    the drum stream.  Whenever a request routes into [d], the deck's
    [isPlaying] is false afterwards, and the play/pause effect then pauses
    its element. *)
Theorem C5_routing_mutually_exclusive (st : App) (event : RouteEvent) :
  reachable st ->
  let st' := handleDrumRoute event st in
  (forall d, deckId event = Some d -> isDrumRouted (otherDeck d) st = true ->
     isDrumRouted (otherDeck d) st' = false
     /\ isDrumRouted d st' = true
     /\ exists g',
          audio st' = Some g'
          /\ tapOf (chain (otherDeck d) g') = (dummyDrumStream, true, true)
          /\ drumInputGain (chain (otherDeck d) g') = 0
          /\ tapOf (chain d g') = (stream event, true, true))
  /\ (forall d, deckId event = Some d -> isDrumRouted d st' = true ->
        isPlaying (deckSignal d st') = false
        /\ forall p, audioPlayer d (setupAudioEffects st') = Some p ->
             HTMLMediaElement.paused p = true)
  /\ (forall d, deckId event = Some d -> audio (ensureAudioContext st) <> None ->
        isDrumRouted d st' = true)
  /\ ~ (isDrumRoutedA st = true /\ isDrumRoutedB st = true)
  /\ ~ (isDrumRoutedA st' = true /\ isDrumRoutedB st' = true).
Proof.
  intros Hreach st'.
  pose proof (reachable_routing_inv st Hreach) as Hinv.
  pose proof (reachable_routing_inv st' (reachable_step (HandleDrumRoute event) st Hreach))
    as Hinv'.
  split.
  { intros d Hd Hother.
    destruct (routed_has_graph st (otherDeck d) Hinv Hother) as [g Hg].
    assert (Hg' : audio (ensureAudioContext st) = Some g).
    { rewrite (ensureAudioContext_some st g Hg). exact Hg. }
    destruct (handleDrumRoute_routes event d g st Hd Hg')
      as (g' & Ha & Hr & Ho & _ & Ht & Hto & _ & Hgo).
    fold st' in Ha, Hr, Ho.
    split; [exact Ho|]. split; [exact Hr|]. exists g'. auto. }
  split.
  { intros d Hd Hr.
    assert (Hp : isPlaying (deckSignal d st') = false).
    { destruct (audio (ensureAudioContext st)) as [g|] eqn:Eg.
      - destruct (handleDrumRoute_routes event d g st Hd Eg) as (_ & _ & _ & _ & Hp & _).
        exact Hp.
      - destruct (handleDrumRoute_no_graph event st Eg) as (_ & HA & HB).
        fold st' in HA, HB. destruct d; cbn in Hr; congruence. }
    split; [exact Hp|].
    intros p. apply paused_after_effects. exact Hp. }
  split.
  { intros d Hd Hg.
    destruct (audio (ensureAudioContext st)) as [g|] eqn:Eg; [|congruence].
    destruct (handleDrumRoute_routes event d g st Hd Eg) as (_ & _ & Hr & _).
    exact Hr. }
  split; [apply Hinv | apply Hinv'].
Qed.

Lemma built_state_reachable : reachable built_state.
Proof. repeat apply reachable_step. apply reachable_init. Qed.

Lemma routed_to_B_reachable : reachable routed_to_B.
Proof. apply reachable_step. apply built_state_reachable. Qed.

Lemma C5_routing_mutually_exclusive_witness :
  isDrumRoutedB (handleDrumRoute (mkRoute drum_stream (Some A)) routed_to_B) = false
  /\ isDrumRoutedA (handleDrumRoute (mkRoute drum_stream (Some A)) routed_to_B) = true.
Proof.
  destruct (C5_routing_mutually_exclusive routed_to_B (mkRoute drum_stream (Some A))
              routed_to_B_reachable) as (H & _).
  destruct (H A eq_refl eq_refl) as (HB & HA & _).
  split; [exact HB | exact HA].
Defined.

(** [C10]  A routing request unroutes both decks first, which resets both
    drum-input volumes to 0; so right after the stream was routed into deck
    [d] the deck's [drumInputVolume] is 0 and the gain applied to the drum
    input is 0, before and after the effects run, whatever the volume was
    before. *)
Theorem C10_routed_drum_starts_silent (st : App) (event : RouteEvent) (d : DeckId) :
  deckId event = Some d ->
  let st' := handleDrumRoute event st in
  drumInputVolume (deckSignal d st') = 0%Z
  /\ drumInputVolume (deckSignal (otherDeck d) st') = 0%Z
  /\ (forall g', audio st' = Some g' -> drumInputGain (chain d g') = 0)
  /\ (forall g'', audio (setupAudioEffects st') = Some g'' ->
        drumInputGain (chain d g'') = 0)
  /\ (isDrumRouted d st' = true ->
        exists g', audio st' = Some g'
                   /\ tapOf (chain d g') = (stream event, true, true)
                   /\ drumInputGain (chain d g') = 0).
Proof.
  intros Hd st'.
  destruct (handleDrumRoute_volumes event st) as [HvA HvB]. fold st' in HvA, HvB.
  assert (Hv : forall d', drumInputVolume (deckSignal d' st') = 0%Z)
    by (intros []; assumption).
  assert (Hgain : forall g', audio st' = Some g' -> drumInputGain (chain d g') = 0).
  { intros g' Hg'.
    destruct (audio (ensureAudioContext st)) as [g|] eqn:Eg.
    - destruct (handleDrumRoute_routes event d g st Hd Eg)
        as (g1 & Ha & _ & _ & _ & _ & _ & H0 & _).
      fold st' in Ha. congruence.
    - destruct (handleDrumRoute_no_graph event st Eg) as (Ha & _).
      fold st' in Ha. congruence. }
  split; [apply Hv|]. split; [apply Hv|]. split; [exact Hgain|].
  split.
  { intros g'' Hg''.
    destruct (audio st') as [g'|] eqn:Eg'.
    - destruct (setupAudioEffects_nodes st' g' Eg') as (g2 & Ha & _ & Hn).
      destruct (Hn d) as (_ & _ & _ & _ & _ & _ & Hdg & _).
      assert (g'' = g2) by congruence. subst g2.
      rewrite Hdg, Hv. lra.
    - exfalso. revert Hg''. unfold setupAudioEffects.
      destruct st' as [m dA dB c ltd sA sB rA rB ssA ssB pl idx vol routedA routedB pA pB au].
      cbn in Eg'. subst au. cbn. discriminate. }
  intros Hr.
  destruct (audio (ensureAudioContext st)) as [g|] eqn:Eg.
  - destruct (handleDrumRoute_routes event d g st Hd Eg)
      as (g1 & Ha & _ & _ & _ & Ht & _ & H0 & _).
    exists g1. auto.
  - destruct (handleDrumRoute_no_graph event st Eg) as (_ & HA & HB).
    fold st' in HA, HB. destruct d; cbn in Hr; congruence.
Qed.

Lemma C10_routed_drum_starts_silent_witness :
  drumInputVolume
    (deckSignal A
       (handleDrumRoute (mkRoute drum_stream (Some A))
          (onDrumInputVolumeChange 80 A built_state))) = 0%Z.
Proof.
  destruct (C10_routed_drum_starts_silent (onDrumInputVolumeChange 80 A built_state)
              (mkRoute drum_stream (Some A)) A eq_refl) as (H & _).
  exact H.
Defined.

End Routing.

(** * Properties of the transport: end of a track *)

Section Transport.

Import App.
Local Open Scope R_scope.

Lemma onEnded_test (d : DeckId) (st : App) :
  (-1 <= currentTrackIndex st)%Z ->
  isPlayerMode (mainViewMode st) && isA d
  && (0 <? Z.of_nat (length (playlist st)))%Z
  && (currentTrackIndex st <? Z.of_nat (length (playlist st)) - 1)%Z
  = advances d st.
Proof.
  intros Hidx. unfold advances.
  destruct (isPlayerMode _), (isA d); cbn; try reflexivity.
  destruct (Z.ltb_spec (currentTrackIndex st + 1) (Z.of_nat (length (playlist st))));
    destruct (Z.ltb_spec (currentTrackIndex st) (Z.of_nat (length (playlist st)) - 1));
    destruct (Z.ltb_spec 0 (Z.of_nat (length (playlist st)))); cbn; try reflexivity; lia.
Qed.

Lemma advances_next_track (d : DeckId) (st : App) :
  (-1 <= currentTrackIndex st)%Z ->
  advances d st = true ->
  mainViewMode st = player /\ d = A
  /\ exists next, playlist st !! Z.to_nat (currentTrackIndex st + 1) = Some next.
Proof.
  unfold advances. intros Hidx H.
  apply andb_prop in H as [H Hlt]. apply andb_prop in H as [Hm Hd].
  apply Z.ltb_lt in Hlt.
  split; [destruct (mainViewMode st); try discriminate Hm; reflexivity|].
  split; [destruct d; try discriminate Hd; reflexivity|].
  apply lookup_lt_is_Some. lia.
Qed.

(** [C9]  With the loop flag off, [onEnded] resets the deck's progress to 0,
    sets [isPlaying] to false, rewinds the element and changes nothing else
    of the deck, the track included; unless the deck is deck A in player mode
    and the playlist has a track after the current one: then the deck is not
    stopped, the current index moves to that next track, and the effect that
    follows the player's track loads it into deck A. *)
Theorem C9_onEnded_stops_or_advances (d : DeckId) (st : App) :
  loop (deckSignal d st) = false ->
  (-1 <= currentTrackIndex st)%Z ->
  let st' := onEnded d st in
  (advances d st = false ->
     progress (deckSignal d st') = 0
     /\ isPlaying (deckSignal d st') = false
     /\ track (deckSignal d st') = track (deckSignal d st)
     /\ deckSignal d st' = set_progress 0 (set_isPlaying false (deckSignal d st))
     /\ deckSignal (otherDeck d) st' = deckSignal (otherDeck d) st
     /\ currentTrackIndex st' = currentTrackIndex st
     /\ forall p, audioPlayer d st' = Some p -> HTMLMediaElement.currentTime p = 0)
  /\ (advances d st = true ->
        exists next,
          playlist st !! Z.to_nat (currentTrackIndex st + 1) = Some next
          /\ currentTrackIndex st' = (currentTrackIndex st + 1)%Z
          /\ currentPlayerTrack st' = Some next
          /\ deckA st' = deckA st /\ deckB st' = deckB st
          /\ track (deckA (playerTrackEffect st')) = next
          /\ isPlaying (deckA (playerTrackEffect st'))
             = isPlaying (deckA st) || (length (playlist st) =? 1)%nat).
Proof.
  intros Hloop Hidx st'. subst st'. unfold onEnded.
  rewrite (onEnded_test d st Hidx).
  split; intros Hadv; rewrite Hadv.
  - rewrite Hloop. cbn [negb].
    destruct st as [m dA dB c ltd sA sB rA rB ssA ssB pl idx vol routedA routedB pA pB au].
    destruct d; cbn; repeat split;
      intros p Hp; [destruct pA | destruct pB]; try discriminate Hp;
      injection Hp as <-; reflexivity.
  - destruct (advances_next_track d st Hidx Hadv) as (Hm & -> & next & Hnext).
    exists next. split; [exact Hnext|].
    apply andb_prop in Hadv as [_ Hlt]. apply Z.ltb_lt in Hlt.
    assert (Hrem : JS.rem (currentTrackIndex st + 1) (Z.of_nat (length (playlist st)))
                   = (currentTrackIndex st + 1)%Z).
    { unfold JS.rem. apply Z.rem_small. lia. }
    assert (Hcur : currentPlayerTrack (playNext st) = Some next).
    { unfold currentPlayerTrack, playNext. cbn. rewrite Hrem.
      destruct (Z.leb_spec 0 (currentTrackIndex st + 1)); [|lia].
      destruct (Z.ltb_spec (currentTrackIndex st + 1) (Z.of_nat (length (playlist st))));
        [|lia].
      exact Hnext. }
    split; [unfold playNext; cbn; exact Hrem|].
    split; [exact Hcur|].
    split; [reflexivity|]. split; [reflexivity|].
    unfold playerTrackEffect. rewrite Hcur.
    replace (mainViewMode (playNext st)) with player by (rewrite <- Hm; reflexivity).
    cbn [isPlayerMode].
    unfold loadTrack. split; reflexivity.
Qed.

Lemma C9_onEnded_stops_or_advances_witness :
  progress (deckSignal B (onEnded B two_tracks)) = 0
  /\ isPlaying (deckSignal B (onEnded B two_tracks)) = false
  /\ currentTrackIndex (onEnded A two_tracks) = 1%Z.
Proof.
  assert (Hidx : (-1 <= currentTrackIndex two_tracks)%Z) by (vm_compute; discriminate).
  destruct (C9_onEnded_stops_or_advances B two_tracks eq_refl Hidx) as (Hstop & _).
  destruct (Hstop eq_refl) as (Hp & Hi & _).
  destruct (C9_onEnded_stops_or_advances A two_tracks eq_refl Hidx) as (_ & Hadv).
  destruct (Hadv eq_refl) as (next & _ & Hc & _).
  split; [exact Hp|]. split; [exact Hi | exact Hc].
Defined.

End Transport.

(** * Properties of the scratch engine *)

Section Scratch.

Import App.
Local Open Scope R_scope.

Ltac unfold_all_handlers :=
  unfold handle, playerTrackEffect, togglePlayPause, onProgressChange, onTimeUpdate,
    onLoadedMetadata, onEnded, onPitchChange, onFilterChange, onGainChange,
    onEqChange, onDrumInputVolumeChange, onCrossfadeChange, onVolumeChange,
    toggleLoop, openFilePickerForDeck, handleFileInput, addTrackToPlaylist,
    loadTrackToDeck, loadTrack, playTrackFromPlaylist, playNext, playPrevious,
    toggleMainViewMode, handleDrumRoute, unrouteDrumMachine, nextMode,
    onScratchStart, onScratch, processDeck, onScratchEnd, restoreDeck,
    setupAudioEffects, update_deck, update_player,
    ensureAudioContext, initAudioContext.

Ltac split_all_tests :=
  repeat match goal with
    | d : DeckId |- _ => destruct d
    | |- context [match ?x with _ => _ end] =>
        first [is_var x; destruct x | let E := fresh "E" in destruct x eqn:E];
        cbn
    end.

(** [Math.atan2] returns an angle in [(-PI, PI]]. *)
Lemma atan2_range (y x : R) : - PI < JS.Math_atan2 y x <= PI.
Proof.
  pose proof PI_RGT_0 as Hpi.
  pose proof (atan_bound (y / x)) as Hb.
  unfold JS.Math_atan2.
  destruct (Rlt_dec 0 x) as [Hx|Hx]; [lra|].
  destruct (Rlt_dec x 0) as [Hx'|Hx'].
  - assert (Hinv : / x < 0) by (apply Rinv_lt_0_compat; exact Hx').
    destruct (Rle_dec 0 y) as [Hy|Hy].
    + assert (Hq : y / x <= 0) by (unfold Rdiv; nra).
      assert (Ha : atan (y / x) <= 0).
      { destruct Hq as [Hq | ->]; [|rewrite atan_0; lra].
        pose proof (atan_increasing _ _ Hq) as Hi. rewrite atan_0 in Hi. lra. }
      lra.
    + assert (Hq : 0 < y / x) by (unfold Rdiv; nra).
      pose proof (atan_increasing _ _ Hq) as Hi. rewrite atan_0 in Hi. lra.
  - destruct (Rlt_dec 0 y); [lra|]. destruct (Rlt_dec y 0); lra.
Qed.

Lemma pointerAngle_range (event : PointerEvent) (rect : DOMRect.t) :
  - PI < pointerAngle event rect <= PI.
Proof. unfold pointerAngle. apply atan2_range. Qed.

(** The wrap-around adds a multiple of a full turn and, for a difference of
    two angles of [(-PI, PI]], lands in [[-PI, PI]]. *)
Lemma wrapAngle_turns (delta : R) :
  wrapAngle delta = delta \/ wrapAngle delta = delta - 2 * PI
  \/ wrapAngle delta = delta + 2 * PI.
Proof.
  pose proof PI_RGT_0 as Hpi. unfold wrapAngle.
  destruct (Rlt_dec PI delta) as [H1|H1].
  - destruct (Rlt_dec (delta - 2 * PI) (- PI)); [right; right; lra | right; left; lra].
  - destruct (Rlt_dec delta (- PI)); [right; right; lra | left; lra].
Qed.

Lemma wrapAngle_range (a b : R) :
  - PI < a <= PI -> - PI < b <= PI -> - PI <= wrapAngle (a - b) <= PI.
Proof.
  intros Ha Hb. pose proof PI_RGT_0 as Hpi. unfold wrapAngle.
  destruct (Rlt_dec PI (a - b)) as [H1|H1].
  - destruct (Rlt_dec (a - b - 2 * PI) (- PI)); lra.
  - destruct (Rlt_dec (a - b) (- PI)); lra.
Qed.

Lemma handle_lastAngle (e : Event) (st : App) (d : DeckId) :
  lastAngle (scratchState d (handle e st)) = lastAngle (scratchState d st)
  \/ exists event rect,
       lastAngle (scratchState d (handle e st)) = pointerAngle event rect.
Proof.
  destruct st as [m dA dB c ltd sA sB rA rB ssA ssB pl idx vol routedA routedB pA pB au].
  destruct e; unfold_all_handlers; cbn; split_all_tests;
    first [ left; reflexivity | right; eexists _, _; reflexivity ].
Qed.

Lemma reachable_angle_inv (st : App) : reachable st -> angle_inv st.
Proof.
  induction 1 as [|e st _ IH]; intros d.
  - pose proof PI_RGT_0. destruct d; cbn; lra.
  - destruct (handle_lastAngle e st d) as [-> | (event & rect & ->)];
      [apply IH | apply pointerAngle_range].
Qed.

(** [ensureAudioContext] only ever writes the graph. *)
Lemma ensureAudioContext_frame (st : App) :
  deckA (ensureAudioContext st) = deckA st
  /\ deckB (ensureAudioContext st) = deckB st
  /\ (forall d, scratchState d (ensureAudioContext st) = scratchState d st)
  /\ (forall d, isScratching d (ensureAudioContext st) = isScratching d st)
  /\ (forall d, audioPlayer d (ensureAudioContext st) = audioPlayer d st)
  /\ (forall d, scratchRotation d (ensureAudioContext st) = scratchRotation d st)
  /\ (forall d, isDrumRouted d (ensureAudioContext st) = isDrumRouted d st).
Proof.
  unfold ensureAudioContext, initAudioContext.
  destruct st as [m dA dB c ltd sA sB rA rB ssA ssB pl idx vol routedA routedB pA pB au].
  destruct au, pA, pB; cbn; repeat split; intros []; reflexivity.
Qed.

(** One deck's part of a move leaves the other deck's element, scratch state
    and rotation alone, and writes no deck signal. *)
Lemma processDeck_frame (d : DeckId) (event : PointerEvent) (st : App) :
  deckA (processDeck d event st) = deckA st
  /\ deckB (processDeck d event st) = deckB st
  /\ audioPlayer (otherDeck d) (processDeck d event st) = audioPlayer (otherDeck d) st
  /\ scratchState (otherDeck d) (processDeck d event st) = scratchState (otherDeck d) st
  /\ scratchRotation (otherDeck d) (processDeck d event st)
     = scratchRotation (otherDeck d) st
  /\ (forall d', isScratching d' (processDeck d event st) = isScratching d' st)
  /\ (forall d', isDrumRouted d' (processDeck d event st) = isDrumRouted d' st)
  /\ audio (processDeck d event st) = audio st.
Proof.
  unfold processDeck.
  destruct st as [m dA dB c ltd sA sB rA rB ssA ssB pl idx vol routedA routedB pA pB au].
  destruct d; cbn;
    repeat match goal with
      | |- context [match ?x with _ => _ end] => destruct x; cbn
      end;
    repeat split; intros []; reflexivity.
Qed.

Lemma processDeck_active (d : DeckId) (event : PointerEvent) (st : App)
    (rect : DOMRect.t) (p : HTMLMediaElement.t) :
  active (scratchState d st) = true ->
  platterElement (scratchState d st) = Some rect ->
  isScratching d st = true ->
  audioPlayer d st = Some p ->
  duration (deckSignal d st) <> 0 ->
  let deltaAngle :=
    wrapAngle (pointerAngle event rect - lastAngle (scratchState d st)) in
  audioPlayer d (processDeck d event st)
  = Some (HTMLMediaElement.set_currentTime (scratchedTime p deltaAngle) p)
  /\ lastAngle (scratchState d (processDeck d event st)) = pointerAngle event rect
  /\ active (scratchState d (processDeck d event st)) = true
  /\ scratchRotation d (processDeck d event st)
     = scratchRotation d st + deltaAngle * 180 / PI.
Proof.
  intros Hact Hrect Hscr Hp Hdur. unfold processDeck.
  rewrite Hrect, Hact, Hscr, Hp. cbn [negb orb].
  destruct (Req_dec_T (duration (deckSignal d st)) 0) as [H0|_]; [contradiction|].
  unfold scratchedTime, JS.Math_max, JS.Math_min.
  destruct st as [m dA dB c ltd sA sB rA rB ssA ssB pl idx vol routedA routedB pA pB au].
  destruct d; cbn in *; repeat split; assumption.
Qed.

(** [C6, as amended]  For a move on a deck that is being scratched and has a
    nonzero duration, the delta from the last recorded angle is brought into
    the closed interval [[-PI, PI]] by a whole number of turns, the element's
    position becomes the old position plus [delta * 2.5 / (2 * PI)] seconds
    clamped to [[0, duration]] (a delta of [PI / 2] is an offset of [2.5 / 4]
    seconds), and nothing else of the deck changes: both deck signals and
    the element's other properties are as before. *)
Theorem C6_scratch_move (st : App) (event : PointerEvent) (d : DeckId)
    (rect : DOMRect.t) (p : HTMLMediaElement.t) :
  reachable st ->
  active (scratchState d st) = true ->
  platterElement (scratchState d st) = Some rect ->
  isScratching d st = true ->
  audioPlayer d st = Some p ->
  duration (deckSignal d st) <> 0 ->
  let delta := pointerAngle event rect - lastAngle (scratchState d st) in
  let deltaAngle := wrapAngle delta in
  let st' := onScratch event st in
  - PI <= deltaAngle <= PI
  /\ (deltaAngle = delta \/ deltaAngle = delta - 2 * PI \/ deltaAngle = delta + 2 * PI)
  /\ audioPlayer d st'
     = Some (HTMLMediaElement.set_currentTime
               (Rmax 0 (Rmin (HTMLMediaElement.duration p)
                          (HTMLMediaElement.currentTime p
                           + deltaAngle * 2.5 / (2 * PI)))) p)
  /\ (0 <= HTMLMediaElement.duration p ->
      forall p', audioPlayer d st' = Some p' ->
        0 <= HTMLMediaElement.currentTime p' <= HTMLMediaElement.duration p)
  /\ (deltaAngle = PI / 2 -> deltaAngle * SCRATCH_SENSITIVITY / (2 * PI) = 2.5 / 4)
  /\ deckA st' = deckA st
  /\ deckB st' = deckB st
  /\ lastAngle (scratchState d st') = pointerAngle event rect.
Proof.
  intros Hreach Hact Hrect Hscr Hp Hdur delta deltaAngle st'.
  pose proof PI_RGT_0 as Hpi.
  pose proof (reachable_angle_inv st Hreach d) as Hlast.
  pose proof (pointerAngle_range event rect) as Hcur.
  destruct (ensureAudioContext_frame st) as (EA & EB & Ess & Escr & Epl & _ & _).
  set (st1 := ensureAudioContext st) in *.
  assert (Hst' : st' = processDeck B event (processDeck A event st1)).
  { subst st'. unfold onScratch.
    destruct d; cbn in Hact; rewrite Hact; cbn;
      [|rewrite andb_false_r]; reflexivity. }
  assert (Hplayer :
    audioPlayer d st'
    = Some (HTMLMediaElement.set_currentTime (scratchedTime p deltaAngle) p)
    /\ lastAngle (scratchState d st') = pointerAngle event rect
    /\ deckA st' = deckA st /\ deckB st' = deckB st).
  { rewrite Hst'.
    destruct (processDeck_frame A event st1) as (FA1 & FA2 & FA3 & FA4 & _ & FA6 & _).
    destruct (processDeck_frame B event (processDeck A event st1))
      as (FB1 & FB2 & FB3 & FB4 & _ & FB6 & _).
    rewrite FB1, FB2, FA1, FA2, EA, EB.
    destruct d.
    - cbn [otherDeck] in FB3, FB4. rewrite FB3, FB4.
      destruct (processDeck_active A event st1 rect p) as (H1 & H2 & _).
      + rewrite Ess. exact Hact.
      + rewrite Ess. exact Hrect.
      + rewrite Escr. exact Hscr.
      + rewrite Epl. exact Hp.
      + cbn [deckSignal] in *. rewrite EA. exact Hdur.
      + rewrite Ess in H1. auto.
    - cbn [otherDeck] in FA3, FA4.
      destruct (processDeck_active B event (processDeck A event st1) rect p)
        as (H1 & H2 & _).
      + rewrite FA4, Ess. exact Hact.
      + rewrite FA4, Ess. exact Hrect.
      + rewrite FA6, Escr. exact Hscr.
      + rewrite FA3, Epl. exact Hp.
      + cbn [deckSignal] in *. rewrite FA2, EB. exact Hdur.
      + rewrite FA4, Ess in H1. auto. }
  destruct Hplayer as (Hpl & Hla & HdA & HdB).
  assert (Hsens : forall x, x * SCRATCH_SENSITIVITY = x * 2.5)
    by (intros x; unfold SCRATCH_SENSITIVITY; reflexivity).
  split; [apply wrapAngle_range; assumption|].
  split; [apply wrapAngle_turns|].
  split; [rewrite Hpl; unfold scratchedTime; rewrite Hsens; reflexivity|].
  split.
  { intros Hd p' Hp'. rewrite Hpl in Hp'. injection Hp' as <-. cbn.
    unfold scratchedTime. split; [apply Rmax_l|].
    apply Rmax_lub; [exact Hd | apply Rmin_l]. }
  split.
  { intros ->. unfold SCRATCH_SENSITIVITY. field. lra. }
  auto.
Qed.

(** *** A half-turn jump of the pointer *)

Lemma onScratchStart_active (event : PointerEvent) (d : DeckId) (st : App) :
  duration (deckSignal d (ensureAudioContext st)) <> 0 ->
  isDrumRouted d (ensureAudioContext st) = false ->
  let s := scratchState d (onScratchStart event d st) in
  active s = true
  /\ platterElement s = Some (currentTarget event)
  /\ lastAngle s = pointerAngle event (currentTarget event)
  /\ isScratching d (onScratchStart event d st) = true
  /\ audioPlayer d (onScratchStart event d st)
     = HTMLMediaElement.pause <$> audioPlayer d (ensureAudioContext st)
  /\ duration (deckSignal d (onScratchStart event d st))
     = duration (deckSignal d (ensureAudioContext st)).
Proof.
  intros Hdur Hroute. unfold onScratchStart.
  destruct (Req_dec_T (duration (deckSignal d (ensureAudioContext st))) 0)
    as [H0|_]; [contradiction|].
  rewrite Hroute.
  destruct (ensureAudioContext st)
    as [m dA dB c ltd sA sB rA rB ssA ssB pl idx vol routedA routedB pA pB au].
  destruct d; cbn; repeat split.
Qed.

Lemma pointer_left_angle : pointerAngle pointer_left platter = PI.
Proof.
  unfold pointerAngle. cbn.
  replace (0 - (-1 + 2 / 2)) with 0 by lra.
  replace (-1 - (-1 + 2 / 2)) with (-1) by lra.
  unfold JS.Math_atan2.
  destruct (Rlt_dec 0 (-1)); [lra|].
  destruct (Rlt_dec (-1) 0); [|lra].
  destruct (Rle_dec 0 0); [|lra].
  replace (0 / -1) with 0 by lra. rewrite atan_0. lra.
Qed.

Lemma pointer_right_angle : pointerAngle pointer_right platter = 0.
Proof.
  unfold pointerAngle. cbn.
  replace (0 - (-1 + 2 / 2)) with 0 by lra.
  replace (1 - (-1 + 2 / 2)) with 1 by lra.
  unfold JS.Math_atan2.
  destruct (Rlt_dec 0 1); [|lra].
  replace (0 / 1) with 0 by lra. apply atan_0.
Qed.

Lemma scratching_state_facts :
  reachable scratching_state
  /\ active (scratchState A scratching_state) = true
  /\ platterElement (scratchState A scratching_state) = Some platter
  /\ lastAngle (scratchState A scratching_state) = PI
  /\ isScratching A scratching_state = true
  /\ audioPlayer A scratching_state
     = Some (HTMLMediaElement.mk 10 180 true 1 false)
  /\ duration (deckSignal A scratching_state) = 180.
Proof.
  assert (Hdur : duration (deckSignal A (ensureAudioContext loaded_state)) <> 0).
  { cbn. lra. }
  destruct (onScratchStart_active pointer_left A loaded_state Hdur eq_refl)
    as (H1 & H2 & H3 & H4 & H5 & H6).
  fold scratching_state in H1, H2, H3, H4, H5, H6.
  split.
  { apply (reachable_step (OnScratchStart pointer_left A)).
    repeat apply reachable_step. apply reachable_init. }
  split; [exact H1|]. split; [exact H2|].
  split; [rewrite H3; apply pointer_left_angle|].
  split; [exact H4|]. split; [rewrite H5; reflexivity|].
  rewrite H6. reflexivity.
Qed.

Lemma C6_scratch_move_witness :
  deckA (onScratch pointer_right scratching_state) = deckA scratching_state
  /\ lastAngle (scratchState A (onScratch pointer_right scratching_state))
     = pointerAngle pointer_right platter.
Proof.
  destruct scratching_state_facts as (Hr & Ha & Hp & _ & Hs & Hpl & Hd).
  assert (Hdur : duration (deckSignal A scratching_state) <> 0)
    by (rewrite Hd; lra).
  destruct (C6_scratch_move scratching_state pointer_right A platter _
              Hr Ha Hp Hs Hpl Hdur) as (_ & _ & _ & _ & _ & HA & _ & Hl).
  split; [exact HA | exact Hl].
Defined.

(** [C6, as stated]  The pointer jumps from straight left of the centre to
    straight right of it: the delta is [0 - PI], which the wrap-around keeps,
    and [-PI] is not in [(-PI, PI]]. *)
Lemma C6_delta_reaches_minus_PI : ~ scratch_delta_half_open.
Proof.
  intros H.
  destruct scratching_state_facts as (Hr & Ha & Hp & Hl & Hs & Hpl & Hd).
  assert (Hdur : duration (deckSignal A scratching_state) <> 0)
    by (rewrite Hd; lra).
  specialize (H scratching_state pointer_right A platter _ Hr Ha Hp Hs Hpl Hdur).
  rewrite Hl, pointer_right_angle in H.
  pose proof PI_RGT_0 as Hpi.
  unfold wrapAngle in H.
  destruct (Rlt_dec PI (0 - PI)); [lra|].
  destruct (Rlt_dec (0 - PI) (- PI)); lra.
Qed.

End Scratch.

(** * Further properties of the sequencer *)

Section MoreSequencer.

Import DrumMachine DrumPads.

Lemma set_sequence_same (s : State) : set_sequence (sequence s) s = s.
Proof. destruct s; reflexivity. Qed.

Lemma stop_fields (s : State) :
  isPlaying (stop s) = false /\ timerId (stop s) = None
  /\ bpm (stop s) = bpm s /\ currentStep (stop s) = currentStep s
  /\ sequence (stop s) = sequence s /\ pads (stop s) = pads s
  /\ played (stop s) = played s.
Proof.
  unfold stop. destruct (timerId (set_isPlaying false s)) eqn:E; cbn; auto 10.
Qed.

Lemma start_stopped (s : State) :
  isPlaying s = false ->
  isPlaying (start s) = true
  /\ timerId (start s) = Some (60 / IZR (bpm s) / 4 * 1000)%R
  /\ bpm (start s) = bpm s
  /\ currentStep (start s)
     = (if (currentStep s =? -1)%Z then 0%Z else currentStep s).
Proof.
  intros Hp. unfold start. rewrite Hp.
  match goal with
  | |- context [scheduleNextStep ?x] =>
      destruct (scheduleNextStep_playing x eq_refl) as (Ht & Hc & Hb & Hi)
  end.
  rewrite Ht, Hc, Hb, Hi. cbn. auto.
Qed.

(** The handlers that only touch pads, patterns, the library and the log. *)
Lemma transport_frame (e : DrumPads.Event) (s : State) :
  match e with
  | OpenSampleLibrary _ | CloseSampleLibrary | AssignSampleToPad _
  | ToggleStep _ _ | TriggerPad _ | OnMidiMessage _ =>
      bpm (handle e s) = bpm s
      /\ currentStep (handle e s) = currentStep s
      /\ isPlaying (handle e s) = isPlaying s
      /\ timerId (handle e s) = timerId s
  | _ => True
  end.
Proof.
  destruct e; try exact I; cbn [handle].
  - repeat split.
  - repeat split.
  - unfold assignSampleToPad, storeCustomSample.
    destruct (selectedPadIndex s); [|repeat split].
    destruct (base64Data event) as [d|]; [destruct (JS.truthy d)|];
      cbn; destruct (pads s !! n); repeat split.
  - unfold toggleStep. destruct (pads s !! padIndex); [|repeat split].
    destruct (sequence s !! Pad.sampleKey t); repeat split.
  - unfold triggerPad. destruct (pads s !! padIndex); repeat split.
  - unfold onMidiMessage, triggerPad.
    destruct data as [|command [|note data]]; try (repeat split; fail).
    destruct ((command =? 144)%Z && negb (note =? 0)%Z); [|repeat split].
    destruct (MIDI_NOTE_TO_PAD_MAP note) as [i|]; [|repeat split].
    destruct (pads s !! i); repeat split.
Qed.

Lemma sequencer_inv_frame (s s' : State) :
  bpm s' = bpm s -> currentStep s' = currentStep s ->
  isPlaying s' = isPlaying s -> timerId s' = timerId s ->
  sequencer_inv s -> sequencer_inv s'.
Proof. unfold sequencer_inv. intros -> -> -> ->. auto. Qed.

Lemma sequencer_inv_handle (e : DrumPads.Event) (s : State) :
  sequencer_inv s -> sequencer_inv (handle e s).
Proof.
  intros Hinv. pose proof Hinv as (Hb & Hs & Ht).
  pose proof (transport_frame e s) as Hf.
  destruct e; cbn [handle] in *;
    try (destruct Hf as (F1 & F2 & F3 & F4);
         exact (sequencer_inv_frame _ _ F1 F2 F3 F4 Hinv)).
  - (* start *)
    destruct (isPlaying s) eqn:Hp.
    + unfold start. rewrite Hp. exact Hinv.
    + destruct (start_stopped s Hp) as (Hi & Htm & Hbp & Hc).
      unfold sequencer_inv. rewrite Hi, Htm, Hbp, Hc.
      split; [exact Hb|]. split; [destruct (currentStep s =? -1)%Z; lia|].
      split; [discriminate | reflexivity].
  - (* stop *)
    destruct (stop_fields s) as (Hi & Htm & Hbp & Hc & _).
    unfold sequencer_inv. rewrite Hi, Htm, Hbp, Hc.
    split; [exact Hb|]. split; [exact Hs|]. split; [discriminate | intros Hn; exfalso; apply Hn; reflexivity].
  - (* resetSequencer *)
    destruct (stop_fields s) as (Hi & Htm & Hbp & _).
    unfold sequencer_inv, resetSequencer. cbn. rewrite Hi, Htm, Hbp.
    split; [exact Hb|]. split; [lia|]. split; [discriminate | intros Hn; exfalso; apply Hn; reflexivity].
  - (* the timeout fires *)
    destruct (timerId s) as [ms|] eqn:Etm; [|exact Hinv].
    assert (Hp : isPlaying s = true) by (apply Ht; discriminate).
    destruct (scheduleNextStep_playing
                (set_currentStep (JS.rem (currentStep s + 1) 16) s) Hp)
      as (Htm' & Hc' & Hb' & Hi').
    pose proof (timerCallback_step_in_range s Hs) as Hr.
    unfold sequencer_inv. unfold timerCallback, step_in_range in *.
    rewrite Htm', Hb', Hi'.
    split; [exact Hb|]. split; [exact Hr|]. split; [discriminate | reflexivity].
  - (* onBpmChange *)
    unfold onBpmChange. destruct value as [v|]; [|exact Hinv].
    destruct (Z.ltb_spec 0 v); [|exact Hinv].
    split; [cbn; lia|]. split; [exact Hs | exact Ht].
  - (* changeKit *)
    unfold changeKit. destruct (List.find _ (kits s)) as [kit|]; [|exact Hinv].
    destruct (stop_fields s) as (Hi & Htm & Hbp & Hc & _).
    unfold sequencer_inv. cbn. rewrite Hi, Htm, Hbp, Hc.
    split; [exact Hb|]. split; [exact Hs|]. split; [discriminate | intros Hn; exfalso; apply Hn; reflexivity].
Qed.

(** [X1]  In every state the sequencer can reach, the tempo is positive, the
    step index is [-1] or one of the 16 slots, and a tick is pending exactly
    while the sequencer is playing: no tick outlives [stop], [resetSequencer]
    or a kit change, and playing never goes on without a tick. *)
Theorem X1_sequencer_invariant (s : State) :
  DrumPads.reachable s ->
  (0 < bpm s)%Z
  /\ (-1 <= currentStep s < 16)%Z
  /\ (isPlaying s = true <-> timerId s <> None).
Proof.
  induction 1 as [|e s _ IH].
  - split; [reflexivity|]. split; [cbn; lia|]. split; [discriminate | intros Hn; exfalso; apply Hn; reflexivity].
  - apply sequencer_inv_handle. exact IH.
Qed.

Lemma X1_sequencer_invariant_witness :
  (0 < bpm (handle TimerFired (handle Start init)))%Z
  /\ (-1 <= currentStep (handle TimerFired (handle Start init)) < 16)%Z.
Proof.
  destruct (X1_sequencer_invariant (handle TimerFired (handle Start init)))
    as (Hb & Hs & _).
  - repeat apply reachable_step. apply reachable_init.
  - split; [exact Hb | exact Hs].
Defined.

(** [X2]  [start] and [stop] can be called repeatedly: a second [start]
    does not schedule a second tick and a second [stop] changes nothing.
    Stopping keeps the step, so a later [start] goes on from it, while
    [resetSequencer] makes the next [start] begin at step 0; neither changes
    the tempo or the pattern. *)
Theorem X2_start_stop_resume (s : State) :
  start (start s) = start s
  /\ stop (stop s) = stop s
  /\ currentStep (start (stop s))
     = (if (currentStep s =? -1)%Z then 0%Z else currentStep s)
  /\ currentStep (start (resetSequencer s)) = 0%Z
  /\ currentStep (resetSequencer s) = (-1)%Z
  /\ bpm (start (stop s)) = bpm s
  /\ sequence (stop s) = sequence s.
Proof.
  destruct (stop_fields s) as (Hi & Htm & Hbp & Hc & Hsq & _).
  split.
  { destruct (isPlaying s) eqn:Hp.
    - unfold start. rewrite Hp. rewrite Hp. reflexivity.
    - destruct (start_stopped s Hp) as (Hi' & _).
      unfold start at 1. rewrite Hi'. reflexivity. }
  split.
  { unfold stop. destruct s as [? ? ? ? ? ? ? ? ? ? tm ?]. destruct tm; reflexivity. }
  destruct (start_stopped (stop s) Hi) as (_ & _ & Hb1 & Hc1).
  split; [rewrite Hc1, Hc; reflexivity|].
  split.
  { assert (Hr : isPlaying (resetSequencer s) = false) by (unfold resetSequencer; cbn; exact Hi).
    destruct (start_stopped (resetSequencer s) Hr) as (_ & _ & _ & Hc2).
    rewrite Hc2. reflexivity. }
  split; [reflexivity|]. split; [rewrite Hb1; exact Hbp | exact Hsq].
Qed.

(** *** The step grid *)

Lemma toggleArray_in_range (l : list bool) (j : nat) (b : bool) :
  l !! j = Some b -> toggleArray l j = <[j := negb b]> l.
Proof. intros H. unfold toggleArray. rewrite H. reflexivity. Qed.

Lemma toggleArray_twice (l : list bool) (j : nat) :
  j < length l -> toggleArray (toggleArray l j) j = l.
Proof.
  intros Hj. destruct (lookup_lt_is_Some_2 l j Hj) as [b Hb].
  rewrite (toggleArray_in_range l j b Hb).
  rewrite (toggleArray_in_range _ j (negb b)).
  - rewrite list_insert_insert_eq, negb_involutive. apply list_insert_id. exact Hb.
  - apply list_lookup_insert_eq. exact Hj.
Qed.

Lemma toggleStep_unfold (i j : nat) (pad : Pad.t) (l : list bool) (s : State) :
  pads s !! i = Some pad ->
  sequence s !! Pad.sampleKey pad = Some l ->
  toggleStep i j s
  = set_sequence (<[Pad.sampleKey pad := toggleArray l j]> (sequence s)) s.
Proof. intros Hp Hl. unfold toggleStep. rewrite Hp, Hl. reflexivity. Qed.

(** [X3]  Toggling a step of the grid twice gives the state back, and one
    toggle flips exactly that slot: the other slots of the pad's array, the
    arrays of the other sample keys, the pads and the transport are as
    before.  A pad index that is not a pad, or a pad whose key has no array,
    makes [toggleStep] do nothing. *)
Theorem X3_toggleStep_flips_one_slot (i j : nat) (pad : Pad.t) (l : list bool)
    (b : bool) (s : State) :
  pads s !! i = Some pad ->
  sequence s !! Pad.sampleKey pad = Some l ->
  l !! j = Some b ->
  toggleStep i j (toggleStep i j s) = s
  /\ sequence (toggleStep i j s) !! Pad.sampleKey pad = Some (<[j := negb b]> l)
  /\ (forall k, k <> Pad.sampleKey pad ->
        sequence (toggleStep i j s) !! k = sequence s !! k)
  /\ (forall j', j' <> j -> (<[j := negb b]> l) !! j' = l !! j')
  /\ pads (toggleStep i j s) = pads s
  /\ currentStep (toggleStep i j s) = currentStep s
  /\ isPlaying (toggleStep i j s) = isPlaying s
  /\ (forall s0 i0, pads s0 !! i0 = None -> toggleStep i0 j s0 = s0)
  /\ (forall s0 i0 p0, pads s0 !! i0 = Some p0 ->
        sequence s0 !! Pad.sampleKey p0 = None -> toggleStep i0 j s0 = s0).
Proof.
  intros Hp Hl Hb.
  assert (Hj : j < length l) by (eapply lookup_lt_Some; exact Hb).
  rewrite (toggleStep_unfold i j pad l s Hp Hl).
  rewrite (toggleArray_in_range l j b Hb).
  split.
  { erewrite toggleStep_unfold; [|exact Hp|cbn; apply lookup_insert_eq].
    cbn. rewrite insert_insert_eq.
    rewrite <- (toggleArray_in_range l j b Hb), toggleArray_twice by exact Hj.
    rewrite insert_id by exact Hl.
    destruct s; reflexivity. }
  split; [cbn; apply lookup_insert_eq|].
  split; [intros k Hk; cbn; apply lookup_insert_ne; congruence|].
  split; [intros j' Hj'; apply list_lookup_insert_ne; congruence|].
  split; [reflexivity|]. split; [reflexivity|]. split; [reflexivity|].
  split.
  - intros s0 i0 H0. unfold toggleStep. rewrite H0. reflexivity.
  - intros s0 i0 p0 H0 H1. unfold toggleStep. rewrite H0, H1. reflexivity.
Qed.

Lemma X3_toggleStep_flips_one_slot_witness :
  toggleStep 0 4 (toggleStep 0 4 init) = init
  /\ sequence (toggleStep 0 4 init) !! "kick808"
     = Some (<[4 := true]> (replicate 16 false)).
Proof.
  destruct (X3_toggleStep_flips_one_slot 0 4 (Pad.mk "Kick" "1" "kick808")
              (replicate 16 false) false init eq_refl eq_refl eq_refl)
    as (H1 & H2 & _).
  split; [exact H1 | exact H2].
Defined.

Lemma playStep_played (j : nat) (s : State) :
  played (playStep (Z.of_nat j) s)
  = played s
    ++ map Pad.sampleKey
         (filter (fun pad => stepIsOn (sequence s !! Pad.sampleKey pad) (Z.of_nat j) = true)
            (pads s)).
Proof.
  unfold playStep. destruct (Z.ltb_spec (Z.of_nat j) 0); [lia | reflexivity].
Qed.

(** [X4]  Switching a step on makes the pad sound at that step: if slot
    [j] of the pad's array is off, a tick at step [j] does not play the
    pad's sample, and after [toggleStep] the same tick does; a tick at a
    negative step plays nothing. *)
Theorem X4_toggled_step_is_played (i j : nat) (pad : Pad.t) (l : list bool) (s : State) :
  pads s !! i = Some pad ->
  sequence s !! Pad.sampleKey pad = Some l ->
  l !! j = Some false ->
  (exists ks, played (playStep (Z.of_nat j) s) = played s ++ ks
              /\ Pad.sampleKey pad ∉ ks)
  /\ (exists ks, played (playStep (Z.of_nat j) (toggleStep i j s)) = played s ++ ks
                 /\ Pad.sampleKey pad ∈ ks)
  /\ (forall step, (step < 0)%Z -> playStep step s = s).
Proof.
  intros Hp Hl Hb.
  split.
  { eexists. split; [apply playStep_played|].
    intros Hin. apply list_elem_of_fmap in Hin as (p & Hk & Hin).
    apply list_elem_of_filter in Hin as [Hon _].
    rewrite <- Hk, Hl in Hon. unfold stepIsOn in Hon.
    rewrite Nat2Z.id, Hb in Hon. discriminate Hon. }
  split.
  { rewrite (toggleStep_unfold i j pad l s Hp Hl).
    rewrite (toggleArray_in_range l j false Hb).
    eexists. split; [rewrite playStep_played; reflexivity|].
    apply list_elem_of_fmap. exists pad. split; [reflexivity|].
    apply list_elem_of_filter. split.
    - cbn. rewrite lookup_insert_eq. unfold stepIsOn.
      rewrite Nat2Z.id, list_lookup_insert_eq; [reflexivity|].
      eapply lookup_lt_Some. exact Hb.
    - cbn. eapply list_elem_of_lookup_2. exact Hp. }
  intros step Hs. unfold playStep.
  destruct (Z.ltb_spec step 0); [reflexivity | lia].
Qed.

Lemma X4_toggled_step_is_played_witness :
  exists ks,
    played (playStep 4 (toggleStep 0 4 init)) = played init ++ ks
    /\ "kick808" ∈ ks.
Proof.
  destruct (X4_toggled_step_is_played 0 4 (Pad.mk "Kick" "1" "kick808")
              (replicate 16 false) init eq_refl eq_refl eq_refl)
    as (_ & H & _).
  exact H.
Defined.

(** *** Edge cases of reassigning a pad *)

Lemma migrateSequence_same_key (k : string) (m : gmap string (list bool)) :
  migrateSequence k k m = m.
Proof.
  unfold migrateSequence. destruct (m !! k) as [l|] eqn:E; [|reflexivity].
  rewrite insert_delete_eq. apply insert_id. exact E.
Qed.

(** [X5]  Edge cases of [assignSampleToPad].  Without a selected pad it
    does nothing; with a selected index that is not a pad it raises.
    Otherwise it succeeds, closes the sample library, keeps the number of
    pads and the pad's name and trigger key; giving the pad the sample it
    already has leaves every pattern as it was; and when the pad's old key
    has no pattern, the mapping is unchanged, so the new key gets none
    either. *)
Theorem X5_assignSampleToPad_edges (e : AssignEvent) (s : State) :
  (selectedPadIndex s = None -> assignSampleToPad e s = Some s)
  /\ (forall i, selectedPadIndex s = Some i -> pads s !! i = None ->
        assignSampleToPad e s = None)
  /\ (forall i P, selectedPadIndex s = Some i -> pads s !! i = Some P ->
        exists s',
          assignSampleToPad e s = Some s'
          /\ selectedPadIndex s' = None
          /\ showSampleLibrary s' = false
          /\ length (pads s') = length (pads s)
          /\ (exists P', pads s' !! i = Some P'
                         /\ Pad.name P' = Pad.name P /\ Pad.key P' = Pad.key P
                         /\ Pad.sampleKey P' = ev_sampleKey e)
          /\ (ev_sampleKey e = Pad.sampleKey P -> sequence s' = sequence s)
          /\ (sequence s !! Pad.sampleKey P = None -> sequence s' = sequence s)
          /\ bpm s' = bpm s /\ currentStep s' = currentStep s
          /\ isPlaying s' = isPlaying s).
Proof.
  split.
  { intros H. unfold assignSampleToPad. rewrite H. reflexivity. }
  split.
  { intros i Hsel Hp. unfold assignSampleToPad. rewrite Hsel.
    destruct (base64Data e) as [d|]; [destruct (JS.truthy d)|]; cbn; rewrite Hp;
      reflexivity. }
  intros i P Hsel Hp.
  assert (Hi : i < length (pads s)) by (eapply lookup_lt_Some; exact Hp).
  unfold assignSampleToPad. rewrite Hsel.
  destruct (base64Data e) as [d|]; [destruct (JS.truthy d)|]; cbn; rewrite Hp;
    (eexists; split; [reflexivity|]); cbn;
    (split; [reflexivity|]); (split; [reflexivity|]);
    (split; [apply length_insert|]);
    (split; [eexists; split; [apply list_lookup_insert_eq; exact Hi | cbn; auto]|]);
    (split; [intros ->; apply migrateSequence_same_key|]);
    (split; [intros Hn; unfold migrateSequence; rewrite Hn; reflexivity|]);
    auto.
Qed.

Lemma X5_assignSampleToPad_edges_witness :
  assignSampleToPad (mkAssign "clap808" None) init = Some init
  /\ assignSampleToPad (mkAssign "clap808" None) (openSampleLibrary 99 init) = None.
Proof.
  destruct (X5_assignSampleToPad_edges (mkAssign "clap808" None) init) as (H1 & _).
  destruct (X5_assignSampleToPad_edges (mkAssign "clap808" None)
              (openSampleLibrary 99 init)) as (_ & H2 & _).
  split; [apply H1; reflexivity | apply (H2 99); reflexivity].
Defined.

(** *** Pads played from MIDI and from the keyboard *)

Lemma MIDI_NOTE_TO_PAD_MAP_rule (note : Z) :
  MIDI_NOTE_TO_PAD_MAP note
  = if (36 <=? note)%Z && (note <=? 51)%Z then Some (Z.to_nat (note - 36)) else None.
Proof.
  destruct (Z.leb_spec 36 note) as [Hlo|Hlo]; cbn [andb].
  - destruct (Z.leb_spec note 51) as [Hhi|Hhi].
    + assert (H : exists n, (n < 16)%nat /\ note = (36 + Z.of_nat n)%Z).
      { exists (Z.to_nat (note - 36)). split; lia. }
      destruct H as (n & Hn & ->).
      do 16 (destruct n as [|n]; [reflexivity|]). lia.
    + destruct note as [|p|p]; try lia.
      do 6 (destruct p as [p|p|]; try reflexivity; try lia).
  - destruct note as [|p|p]; try reflexivity.
    do 6 (destruct p as [p|p|]; try reflexivity; try lia).
Qed.

(** [X6]  A MIDI message plays a pad exactly when it is a note-on
    (command 144) for a note from 36 to 51, and then it is pad
    [note - 36]; every other message, a message of fewer than two bytes
    included, leaves the sequencer as it is.  Triggering never touches the
    transport or the pattern. *)
Theorem X6_midi_note_on_plays_pad (data : list Z) (s : State) :
  onMidiMessage data s
  = match data with
    | command :: note :: _ =>
        if (command =? 144)%Z && (36 <=? note)%Z && (note <=? 51)%Z
        then triggerPad (Z.to_nat (note - 36)) s
        else s
    | _ => s
    end
  /\ (forall i pad, pads s !! i = Some pad ->
        played (triggerPad i s) = played s ++ [Pad.sampleKey pad]
        /\ sequence (triggerPad i s) = sequence s
        /\ currentStep (triggerPad i s) = currentStep s
        /\ isPlaying (triggerPad i s) = isPlaying s)
  /\ (forall i, pads s !! i = None -> triggerPad i s = s).
Proof.
  split.
  { unfold onMidiMessage. destruct data as [|command [|note data]]; try reflexivity.
    rewrite MIDI_NOTE_TO_PAD_MAP_rule.
    destruct (command =? 144)%Z; [|reflexivity]. cbn [andb].
    destruct (Z.eqb_spec note 0) as [->|Hn]; [reflexivity|]. cbn [negb andb].
    destruct ((36 <=? note)%Z && (note <=? 51)%Z); reflexivity. }
  split.
  - intros i pad Hp. unfold triggerPad. rewrite Hp. repeat split.
  - intros i Hp. unfold triggerPad. rewrite Hp. reflexivity.
Qed.

(** [X7]  A key press plays the pad whose trigger key it is: for the pad
    at index [i] of the stock kit, a key event that is not an auto-repeat and
    whose key lower-cases to that pad's key triggers pad [i].  An auto-repeat
    and a key that is not in the table do nothing. *)
Theorem X7_key_plays_its_pad (toLowerCase : string -> string)
    (event : KeyboardEvent.t) (s : State) (i : nat) (pad : Pad.t) :
  Kit.pads (activeKit init) !! i = Some pad ->
  toLowerCase (KeyboardEvent.key event) = Pad.key pad ->
  (KeyboardEvent.repeat event = false ->
     handleKeyDown toLowerCase event s = triggerPad i s)
  /\ (KeyboardEvent.repeat event = true -> handleKeyDown toLowerCase event s = s)
  /\ (forall event', KEY_TO_PAD_MAP !! toLowerCase (KeyboardEvent.key event') = None ->
        handleKeyDown toLowerCase event' s = s).
Proof.
  intros Hpad Hkey.
  split.
  { intros Hr. unfold handleKeyDown. rewrite Hr, Hkey.
    do 16 (destruct i as [|i]; [injection Hpad as <-; reflexivity|]).
    discriminate Hpad. }
  split.
  - intros Hr. unfold handleKeyDown. rewrite Hr. reflexivity.
  - intros event' Hn. unfold handleKeyDown. rewrite Hn.
    destruct (KeyboardEvent.repeat event'); reflexivity.
Qed.

Lemma X7_key_plays_its_pad_witness :
  handleKeyDown (fun k => k) (KeyboardEvent.mk false "q") init = triggerPad 4 init.
Proof.
  destruct (X7_key_plays_its_pad (fun k => k) (KeyboardEvent.mk false "q") init 4
              (Pad.mk "Snare 2" "q" "snare909") eq_refl eq_refl) as (H & _).
  apply H. reflexivity.
Defined.

End MoreSequencer.

(** * Further properties of drum routing *)

Section MoreRouting.

Import App.
Local Open Scope R_scope.

Lemma unroute_keeps_graph (d : DeckId) (st : App) :
  audio st <> None -> audio (unrouteDrumMachine d st) <> None.
Proof.
  unfold unrouteDrumMachine, update_deck.
  destruct st as [m dA dB c ltd sA sB rA rB ssA ssB pl idx vol routedA routedB pA pB au].
  destruct au, d; cbn; congruence.
Qed.

Lemma ensure_keeps_graph (st : App) :
  audio st <> None -> audio (ensureAudioContext st) <> None.
Proof.
  unfold ensureAudioContext. destruct (audio st) eqn:E; [rewrite E; auto | congruence].
Qed.

Lemma tapsOf_graph (st : App) : tapsOf st <> None <-> audio st <> None.
Proof. unfold tapsOf. destruct (audio st); cbn; split; congruence. Qed.

Lemma handle_keeps_graph (e : Event) (st : App) :
  audio st <> None -> audio (handle e st) <> None.
Proof.
  intros Hg.
  destruct (plain_event e) eqn:He.
  - apply tapsOf_graph.
    destruct (plain_event_same_routing e st He) as [(_ & _ & ->) | (_ & _ & ->)];
      apply tapsOf_graph; [exact Hg | apply ensure_keeps_graph; exact Hg].
  - destruct e; try discriminate He; cbn [handle].
    + unfold handleFileInput. destruct file as [newTrack|]; [|exact Hg].
      destruct (isPlayerMode (mainViewMode st)).
      * apply tapsOf_graph.
        destruct (same_routing_addTrackToPlaylist newTrack true st) as (_ & _ & ->).
        apply tapsOf_graph. exact Hg.
      * destruct (loadingTargetDeck st) as [targetDeck|]; [|exact Hg].
        change (audio (unrouteDrumMachine targetDeck
                         (loadTrackToDeck newTrack targetDeck st)) <> None).
        apply unroute_keeps_graph. unfold loadTrackToDeck, loadTrack.
        destruct targetDeck; cbn; apply ensure_keeps_graph; exact Hg.
    + unfold toggleMainViewMode.
      change (audio (match nextMode (mainViewMode st) with
                     | player =>
                         unrouteDrumMachine B
                           (unrouteDrumMachine A
                              (set_deckB initialDeckState (set_crossfade (-1) st)))
                     | dj => set_crossfade 0 st
                     | _ => st
                     end) <> None).
      destruct (nextMode (mainViewMode st)); try exact Hg.
      apply unroute_keeps_graph, unroute_keeps_graph. exact Hg.
    + destruct (audio (ensureAudioContext st)) as [g|] eqn:Eg;
        [|apply ensure_keeps_graph in Hg; congruence].
      destruct (deckId event) as [d|] eqn:Ed.
      * destruct (handleDrumRoute_routes event d g st Ed Eg) as (g' & -> & _).
        discriminate.
      * unfold handleDrumRoute. rewrite Ed.
        change (audio (unrouteDrumMachine B (unrouteDrumMachine A (ensureAudioContext st)))
                <> None).
        apply unroute_keeps_graph, unroute_keeps_graph. congruence.
    + apply unroute_keeps_graph. exact Hg.
Qed.

(** [X8]  No dangling connection: in every reachable state in which the
    graph exists, each deck's drum-input source feeds its gain and the gain
    feeds the deck's equaliser, and the tap of a deck that is not routed
    wraps the silent stream.  The graph, once built, is never dropped, and
    no routing flag is set before it exists. *)
Theorem X8_taps_always_wired (st : App) :
  reachable st ->
  (forall g d, audio st = Some g ->
     drumInputSource_out (chain d g) = true
     /\ drumInputGain_out (chain d g) = true
     /\ (isDrumRouted d st = false -> drumInputSource (chain d g) = dummyDrumStream))
  /\ (audio st = None -> isDrumRoutedA st = false /\ isDrumRoutedB st = false)
  /\ (forall e, audio st <> None -> audio (handle e st) <> None).
Proof.
  intros Hreach. destruct (reachable_routing_inv st Hreach) as (_ & Hinv).
  unfold tapsOf in Hinv.
  split.
  { intros g d Hg. rewrite Hg in Hinv. cbn in Hinv. unfold tap_ok, tapOf in Hinv.
    cbn in Hinv. destruct Hinv as ((A1 & A2 & A3) & (B1 & B2 & B3)).
    destruct d; cbn; auto. }
  split.
  { intros Hg. rewrite Hg in Hinv. exact Hinv. }
  intros e. apply handle_keeps_graph.
Qed.

Lemma X8_taps_always_wired_witness :
  exists g, audio routed_to_B = Some g
    /\ drumInputSource_out (chain A g) = true /\ drumInputGain_out (chain A g) = true
    /\ drumInputSource (chain A g) = dummyDrumStream.
Proof.
  destruct (X8_taps_always_wired routed_to_B routed_to_B_reachable) as (H & _).
  assert (Hg : exists g, audio routed_to_B = Some g) by (eexists; vm_compute; reflexivity).
  destruct Hg as (g & Hg). exists g. split; [exact Hg|].
  destruct (H g A Hg) as (H1 & H2 & H3).
  split; [exact H1|]. split; [exact H2|]. apply H3. vm_compute. reflexivity.
Defined.

(** [X9]  [unrouteDrumMachine] is safe to call repeatedly and in any order:
    unrouting a deck twice is unrouting it once, and unrouting A then B is
    unrouting B then A.  It clears the deck's flag and drum-input volume,
    puts the tap on the silent stream at gain 0 when the graph exists, and
    leaves the other deck's flag, signal and nodes alone. *)
Theorem X9_unroute_idempotent (d : DeckId) (st : App) :
  unrouteDrumMachine d (unrouteDrumMachine d st) = unrouteDrumMachine d st
  /\ unrouteDrumMachine A (unrouteDrumMachine B st)
     = unrouteDrumMachine B (unrouteDrumMachine A st)
  /\ isDrumRouted d (unrouteDrumMachine d st) = false
  /\ drumInputVolume (deckSignal d (unrouteDrumMachine d st)) = 0%Z
  /\ (forall g', audio (unrouteDrumMachine d st) = Some g' ->
        tapOf (chain d g') = (dummyDrumStream, true, true)
        /\ drumInputGain (chain d g') = 0
        /\ forall g, audio st = Some g ->
             chain (otherDeck d) g' = chain (otherDeck d) g)
  /\ isDrumRouted (otherDeck d) (unrouteDrumMachine d st) = isDrumRouted (otherDeck d) st
  /\ deckSignal (otherDeck d) (unrouteDrumMachine d st) = deckSignal (otherDeck d) st.
Proof.
  destruct st as [m dA dB c ltd sA sB rA rB ssA ssB pl idx vol routedA routedB pA pB au].
  destruct au as [g|], d;
    (split; [vm_compute; reflexivity|]); (split; [vm_compute; reflexivity|]);
    (split; [reflexivity|]); (split; [reflexivity|]);
    (split; [|split; reflexivity]);
    intros g' Hg'; try discriminate Hg';
    vm_compute in Hg'; injection Hg' as <-;
    (split; [reflexivity|]); (split; [reflexivity|]);
    intros g0 Hg0; injection Hg0 as <-; reflexivity.
Qed.

(** [X10]  The sequencer's routing button against the mixer.  With the
    graph in place and the button's inputs carrying the mixer's two
    flags: pressing the button of a deck that is not routed routes the drum
    stream into that deck and into no other; pressing the button of the
    routed deck, like [unrouteDrum], unroutes both decks and leaves both taps
    on the silent stream at gain 0.  So two presses on an unrouted deck end
    with nothing routed. *)
Theorem X10_route_button_toggles (d : DeckId) (s : MediaStream) (g : AudioGraph)
    (st : App) :
  audio (ensureAudioContext st) = Some g ->
  let press x := handleDrumRoute
                   (DrumPads.toggleRouteToDeck d (isDrumRoutedA x) (isDrumRoutedB x) s) x in
  (isDrumRouted d st = false ->
     isDrumRouted d (press st) = true
     /\ isDrumRouted (otherDeck d) (press st) = false
     /\ isDrumRoutedA (press (press st)) = false
     /\ isDrumRoutedB (press (press st)) = false)
  /\ (isDrumRouted d st = true ->
        isDrumRoutedA (press st) = false /\ isDrumRoutedB (press st) = false)
  /\ (forall x g',
        audio (handleDrumRoute (DrumPads.unrouteDrum d s) x) = Some g' ->
        isDrumRoutedA (handleDrumRoute (DrumPads.unrouteDrum d s) x) = false
        /\ isDrumRoutedB (handleDrumRoute (DrumPads.unrouteDrum d s) x) = false
        /\ forall d', tapOf (chain d' g') = (dummyDrumStream, true, true)
                      /\ drumInputGain (chain d' g') = 0).
Proof.
  intros Hg press.
  assert (Hoff : forall x, isDrumRouted d x = true ->
            isDrumRoutedA (press x) = false /\ isDrumRoutedB (press x) = false).
  { intros x Hx. subst press. cbn beta.
    assert (He : DrumPads.toggleRouteToDeck d (isDrumRoutedA x) (isDrumRoutedB x) s
                 = mkRoute s None).
    { unfold DrumPads.toggleRouteToDeck. destruct d; cbn in Hx; rewrite Hx; reflexivity. }
    rewrite He.
    destruct (handleDrumRoute_unroutes (mkRoute s None) x eq_refl) as (HA & HB & _).
    split; [exact HA | exact HB]. }
  split.
  { intros Hd.
    assert (He : DrumPads.toggleRouteToDeck d (isDrumRoutedA st) (isDrumRoutedB st) s
                 = mkRoute s (Some d)).
    { unfold DrumPads.toggleRouteToDeck. destruct d; cbn in Hd; rewrite Hd; reflexivity. }
    destruct (handleDrumRoute_routes (mkRoute s (Some d)) d g st eq_refl Hg)
      as (g' & _ & Hr & Ho & _).
    assert (Hp : press st = handleDrumRoute (mkRoute s (Some d)) st).
    { subst press. cbn beta. rewrite He. reflexivity. }
    rewrite <- Hp in Hr, Ho.
    split; [exact Hr|]. split; [exact Ho|].
    apply Hoff. exact Hr. }
  split; [apply Hoff|].
  intros x g' Hg'. unfold DrumPads.unrouteDrum in *.
  destruct (handleDrumRoute_unroutes (mkRoute s None) x eq_refl) as (HA & HB & Ht).
  split; [exact HA|]. split; [exact HB|]. apply Ht. exact Hg'.
Qed.

Lemma X10_route_button_toggles_witness :
  isDrumRoutedA
    (handleDrumRoute
       (DrumPads.toggleRouteToDeck A (isDrumRoutedA built_state)
          (isDrumRoutedB built_state) drum_stream) built_state) = true.
Proof.
  destruct (X10_route_button_toggles A drum_stream (mkGraph freshChain freshChain 1)
              built_state eq_refl) as (H & _).
  destruct (H eq_refl) as (Hr & _). exact Hr.
Defined.

End MoreRouting.

(** * Further properties of the decks *)

Section MoreDecks.

Import App.
Local Open Scope R_scope.

(** [X11]  [togglePlayPause] on a deck with a source flips [isPlaying],
    records the new value for the scratch engine, and changes nothing else:
    the track and every control of the deck, the other deck and the routing
    stay as they were, and a second toggle gives [isPlaying] back.  On a deck
    without a source it does nothing outside player mode or with an empty
    playlist. *)
Theorem X11_togglePlayPause_flips (d : DeckId) (st : App) :
  JS.truthy (audioSrc (track (deckSignal d st))) = true ->
  let st' := togglePlayPause d st in
  let p := isPlaying (deckSignal d st) in
  deckSignal d st'
  = set_wasPlayingBeforeScratch (negb p) (set_isPlaying (negb p) (deckSignal d st))
  /\ isPlaying (deckSignal d st') = negb p
  /\ track (deckSignal d st') = track (deckSignal d st)
  /\ deckSignal (otherDeck d) st' = deckSignal (otherDeck d) st
  /\ isDrumRoutedA st' = isDrumRoutedA st /\ isDrumRoutedB st' = isDrumRoutedB st
  /\ playlist st' = playlist st /\ currentTrackIndex st' = currentTrackIndex st
  /\ isPlaying (deckSignal d (togglePlayPause d st')) = p
  /\ (forall x d',
        JS.truthy (audioSrc (track (deckSignal d' x))) = false ->
        isPlayerMode (mainViewMode x) = false \/ playlist x = [] ->
        togglePlayPause d' x = x).
Proof.
  intros Hsrc st' p.
  destruct (ensureAudioContext_frame st) as (EA & EB & _).
  assert (Hst' : st' = update_deck d
            (fun x => set_wasPlayingBeforeScratch (negb (isPlaying x))
                        (set_isPlaying (negb (isPlaying x)) x))
            (ensureAudioContext st)).
  { subst st'. unfold togglePlayPause. rewrite Hsrc. reflexivity. }
  assert (Hdeck : deckSignal d st'
            = set_wasPlayingBeforeScratch (negb p) (set_isPlaying (negb p) (deckSignal d st))).
  { rewrite Hst'. subst p. destruct d; cbn; rewrite ?EA, ?EB; reflexivity. }
  split; [exact Hdeck|].
  split; [rewrite Hdeck; reflexivity|].
  split; [rewrite Hdeck; reflexivity|].
  split; [rewrite Hst'; destruct d; cbn; assumption|].
  assert (Hrest : isDrumRoutedA st' = isDrumRoutedA st /\ isDrumRoutedB st' = isDrumRoutedB st
                  /\ playlist st' = playlist st
                  /\ currentTrackIndex st' = currentTrackIndex st).
  { rewrite Hst'. unfold ensureAudioContext, initAudioContext.
    destruct st as [m dA dB c ltd sA sB rA rB ssA ssB pl idx vol routedA routedB pA pB au].
    destruct d, au, pA, pB; repeat split. }
  destruct Hrest as (R1 & R2 & R3 & R4).
  split; [exact R1|]. split; [exact R2|]. split; [exact R3|]. split; [exact R4|].
  split.
  { assert (Hsrc' : JS.truthy (audioSrc (track (deckSignal d st'))) = true)
      by (rewrite Hdeck; exact Hsrc).
    unfold togglePlayPause at 1. rewrite Hsrc'.
    destruct (ensureAudioContext_frame st') as (EA' & EB' & _).
    destruct d; cbn; rewrite ?EA', ?EB'; cbn in Hdeck; rewrite Hdeck; cbn;
      apply negb_involutive. }
  intros x d' Hno Hmode. unfold togglePlayPause. rewrite Hno.
  destruct Hmode as [-> | ->]; [reflexivity|].
  cbn. rewrite andb_false_r. reflexivity.
Qed.

Lemma X11_togglePlayPause_flips_witness :
  isPlaying (deckSignal A (togglePlayPause A built_state)) = false
  /\ isPlaying (deckSignal A (togglePlayPause A (togglePlayPause A built_state))) = true.
Proof.
  destruct (X11_togglePlayPause_flips A built_state eq_refl)
    as (_ & H1 & _ & _ & _ & _ & _ & _ & H2 & _).
  split; [exact H1 | exact H2].
Defined.

(** [X12]  [loadTrack] resets the deck: whatever the controls were, the
    deck is the default deck with the new track, playing or not as asked.
    Loading a file onto a target deck outside player mode does this with
    autoplay, takes the drum stream off that deck, clears the target, and
    leaves the other deck alone; without a target, or without a file,
    nothing happens. *)
Theorem X12_loading_resets_deck (t : Track) (d : DeckId) (st : App) :
  isPlayerMode (mainViewMode st) = false ->
  loadingTargetDeck st = Some d ->
  let st' := handleFileInput (Some t) st in
  deckSignal d st'
  = set_wasPlayingBeforeScratch true (set_isPlaying true (set_track t initialDeckState))
  /\ isDrumRouted d st' = false
  /\ loadingTargetDeck st' = None
  /\ deckSignal (otherDeck d) st' = deckSignal (otherDeck d) st
  /\ isDrumRouted (otherDeck d) st' = isDrumRouted (otherDeck d) st
  /\ (forall autoplay x,
        deckSignal d (loadTrack t d autoplay x)
        = set_wasPlayingBeforeScratch autoplay
            (set_isPlaying autoplay (set_track t initialDeckState)))
  /\ (forall x, handleFileInput None x = x)
  /\ (forall x, isPlayerMode (mainViewMode x) = false -> loadingTargetDeck x = None ->
        handleFileInput (Some t) x = x).
Proof.
  intros Hm Ht st'. subst st'. unfold handleFileInput. rewrite Hm, Ht.
  split; [|split; [|split; [|split; [|split]]]].
  1-5: unfold loadTrackToDeck, loadTrack, ensureAudioContext, initAudioContext;
       destruct st as [m dA dB c ltd sA sB rA rB ssA ssB pl idx vol routedA routedB pA pB au];
       destruct d, au, pA, pB; vm_compute; reflexivity.
  split.
  { intros autoplay x. unfold loadTrack. destruct d; reflexivity. }
  split; [reflexivity|].
  intros x Hx Hn. unfold handleFileInput. rewrite Hx, Hn. reflexivity.
Qed.

Lemma X12_loading_resets_deck_witness :
  track (deckSignal B
           (handleFileInput (Some some_track)
              (openFilePickerForDeck (Some B) (toggleMainViewMode built_state))))
  = some_track.
Proof.
  destruct (X12_loading_resets_deck some_track B
              (openFilePickerForDeck (Some B) (toggleMainViewMode built_state))
              eq_refl eq_refl) as (H & _).
  rewrite H. reflexivity.
Defined.



End MoreDecks.

(** * Further properties of the scratch gesture *)

Section MoreScratch.

Import App.
Local Open Scope R_scope.

Lemma onScratchStart_unfold (event : PointerEvent) (d : DeckId) (st : App) :
  duration (deckSignal d st) <> 0 ->
  isDrumRouted d st = false ->
  onScratchStart event d st
  = update_player d HTMLMediaElement.pause
      (set_isScratching d true
         (update_deck d
            (fun x => set_wasPlayingBeforeScratch (isPlaying x) (set_isPlaying false x))
            (set_scratchState d
               (mkScratch true (pointerAngle event (currentTarget event))
                  (Some (currentTarget event)) (Some (clientX event))
                  (Some (clientY event)))
               (ensureAudioContext st)))).
Proof.
  intros Hdur Hr. unfold onScratchStart.
  destruct (ensureAudioContext_frame st) as (EA & EB & _ & _ & _ & _ & ER).
  assert (Hd : deckSignal d (ensureAudioContext st) = deckSignal d st)
    by (destruct d; assumption).
  rewrite Hd, ER, Hr.
  destruct (Req_dec_T (duration (deckSignal d st)) 0) as [E|_]; [contradiction|].
  reflexivity.
Qed.

(** What a pointer move leaves alone: the decks' signals, the scratching
    flags, whether a gesture is active, and whether an element is paused. *)
Lemma processDeck_keeps (d : DeckId) (event : PointerEvent) (st : App) :
  (forall d', deckSignal d' (processDeck d event st) = deckSignal d' st)
  /\ (forall d', isScratching d' (processDeck d event st) = isScratching d' st)
  /\ (forall d', active (scratchState d' (processDeck d event st))
                 = active (scratchState d' st))
  /\ (forall d', HTMLMediaElement.paused <$> audioPlayer d' (processDeck d event st)
                 = HTMLMediaElement.paused <$> audioPlayer d' st).
Proof.
  unfold processDeck.
  destruct st as [m dA dB c ltd sA sB rA rB ssA ssB pl idx vol routedA routedB pA pB au].
  destruct d; cbn.
  - destruct ssA as [act la [rect|] ix iy]; cbn; [|repeat split; intros []; reflexivity].
    destruct act, sA; cbn; try (repeat split; intros []; reflexivity).
    destruct pA as [p|]; [|repeat split; intros []; reflexivity].
    destruct (Req_dec_T (duration dA) 0); repeat split; intros []; reflexivity.
  - destruct ssB as [act la [rect|] ix iy]; cbn; [|repeat split; intros []; reflexivity].
    destruct act, sB; cbn; try (repeat split; intros []; reflexivity).
    destruct pB as [p|]; [|repeat split; intros []; reflexivity].
    destruct (Req_dec_T (duration dB) 0); repeat split; intros []; reflexivity.
Qed.

Lemma onScratch_keeps (event : PointerEvent) (st : App) :
  (forall d', deckSignal d' (onScratch event st) = deckSignal d' st)
  /\ (forall d', isScratching d' (onScratch event st) = isScratching d' st)
  /\ (forall d', active (scratchState d' (onScratch event st))
                 = active (scratchState d' st))
  /\ (forall d', HTMLMediaElement.paused <$> audioPlayer d' (onScratch event st)
                 = HTMLMediaElement.paused <$> audioPlayer d' st).
Proof.
  unfold onScratch.
  destruct (negb (active (scratchStateA st)) && negb (active (scratchStateB st)));
    [repeat split|].
  destruct (ensureAudioContext_frame st) as (EA & EB & ES & EI & EP & _).
  destruct (processDeck_keeps A event (ensureAudioContext st)) as (A1 & A2 & A3 & A4).
  destruct (processDeck_keeps B event (processDeck A event (ensureAudioContext st)))
    as (B1 & B2 & B3 & B4).
  repeat split; intros d'.
  - rewrite B1, A1. destruct d'; assumption.
  - rewrite B2, A2. apply EI.
  - rewrite B3, A3, ES. reflexivity.
  - rewrite B4, A4, EP. reflexivity.
Qed.

Lemma moves_keep (moves : list PointerEvent) (st : App) :
  let st' := fold_left (fun s e => onScratch e s) moves st in
  (forall d', deckSignal d' st' = deckSignal d' st)
  /\ (forall d', isScratching d' st' = isScratching d' st)
  /\ (forall d', active (scratchState d' st') = active (scratchState d' st))
  /\ (forall d', HTMLMediaElement.paused <$> audioPlayer d' st'
                 = HTMLMediaElement.paused <$> audioPlayer d' st).
Proof.
  revert st. induction moves as [|e moves IH]; intros st; cbn; [repeat split|].
  destruct (IH (onScratch e st)) as (I1 & I2 & I3 & I4).
  destruct (onScratch_keeps e st) as (K1 & K2 & K3 & K4).
  repeat split; intros d'.
  - rewrite I1. apply K1.
  - rewrite I2. apply K2.
  - rewrite I3. apply K3.
  - rewrite I4. apply K4.
Qed.

(** What releasing the platter does to one deck, read off the three signals
    it consults. *)
Lemma restoreDeck_facts (d : DeckId) (st : App) :
  let s := scratchState d st in
  let w := wasPlayingBeforeScratch (deckSignal d st) in
  deckSignal d (restoreDeck d st)
  = (if active s && isScratching d st then set_isPlaying w (deckSignal d st)
     else deckSignal d st)
  /\ isScratching d (restoreDeck d st) = (if active s then false else isScratching d st)
  /\ active (scratchState d (restoreDeck d st)) = false
  /\ HTMLMediaElement.paused <$> audioPlayer d (restoreDeck d st)
     = (if active s && isScratching d st && w then (fun _ => false) <$> audioPlayer d st
        else HTMLMediaElement.paused <$> audioPlayer d st)
  /\ deckSignal (otherDeck d) (restoreDeck d st) = deckSignal (otherDeck d) st
  /\ isScratching (otherDeck d) (restoreDeck d st) = isScratching (otherDeck d) st
  /\ scratchState (otherDeck d) (restoreDeck d st) = scratchState (otherDeck d) st
  /\ audioPlayer (otherDeck d) (restoreDeck d st) = audioPlayer (otherDeck d) st.
Proof.
  unfold restoreDeck.
  destruct st as [m dA dB c ltd sA sB rA rB ssA ssB pl idx vol routedA routedB pA pB au].
  destruct d.
  - destruct ssA as [[] la pe ix iy], sA, dA as [t ip pr du pb fq lp g eh em el dv wp],
      pA as [p|], wp; vm_compute; repeat split.
  - destruct ssB as [[] la pe ix iy], sB, dB as [t ip pr du pb fq lp g eh em el dv wp],
      pB as [p|], wp; vm_compute; repeat split.
Qed.

Lemma onScratchEnd_deck (d : DeckId) (st : App) :
  let s := scratchState d st in
  let w := wasPlayingBeforeScratch (deckSignal d st) in
  deckSignal d (onScratchEnd st)
  = (if active s && isScratching d st then set_isPlaying w (deckSignal d st)
     else deckSignal d st)
  /\ isScratching d (onScratchEnd st) = (if active s then false else isScratching d st)
  /\ active (scratchState d (onScratchEnd st)) = false
  /\ HTMLMediaElement.paused <$> audioPlayer d (onScratchEnd st)
     = (if active s && isScratching d st && w then (fun _ => false) <$> audioPlayer d st
        else HTMLMediaElement.paused <$> audioPlayer d st).
Proof.
  unfold onScratchEnd.
  destruct (restoreDeck_facts A st) as (A1 & A2 & A3 & A4 & A5 & A6 & A7 & A8).
  destruct (restoreDeck_facts B (restoreDeck A st))
    as (B1 & B2 & B3 & B4 & B5 & B6 & B7 & B8).
  cbn [otherDeck] in *.
  destruct d; cbv zeta.
  - rewrite B5, B6, B7, B8. auto.
  - rewrite B1, B2, B3, B4, A5, A6, A7, A8. auto.
Qed.

(** [X13]  A whole scratch gesture on a deck that has a duration and is not
    fed by the drum machine: pressing the platter pauses the deck and
    remembers whether it was playing; however many pointer moves follow, the
    deck stays paused and marked as scratching; releasing gives the deck back
    exactly as it was, playing again if it was playing, with the gesture
    closed and the audio element resumed or left paused accordingly. *)
Theorem X13_scratch_gesture_restores_play
    (d : DeckId) (st : App) (press : PointerEvent) (moves : list PointerEvent) :
  duration (deckSignal d st) <> 0 ->
  isDrumRouted d st = false ->
  let D := deckSignal d st in
  let st1 := onScratchStart press d st in
  let st2 := fold_left (fun s e => onScratch e s) moves st1 in
  let st3 := onScratchEnd st2 in
  deckSignal d st2 = set_wasPlayingBeforeScratch (isPlaying D) (set_isPlaying false D)
  /\ isScratching d st2 = true
  /\ active (scratchState d st2) = true
  /\ HTMLMediaElement.paused <$> audioPlayer d st2 = (fun _ => true) <$> audioPlayer d st
  /\ deckSignal d st3 = set_wasPlayingBeforeScratch (isPlaying D) D
  /\ isPlaying (deckSignal d st3) = isPlaying D
  /\ isScratching d st3 = false
  /\ active (scratchState d st3) = false
  /\ HTMLMediaElement.paused <$> audioPlayer d st3
     = (fun _ => negb (isPlaying D)) <$> audioPlayer d st.
Proof.
  intros Hdur Hr D st1 st2 st3.
  assert (H1 : deckSignal d st1
               = set_wasPlayingBeforeScratch (isPlaying D) (set_isPlaying false D)
               /\ isScratching d st1 = true
               /\ active (scratchState d st1) = true
               /\ HTMLMediaElement.paused <$> audioPlayer d st1
                  = (fun _ => true) <$> audioPlayer d st).
  { subst st1 D. rewrite (onScratchStart_unfold press d st Hdur Hr).
    unfold ensureAudioContext, initAudioContext. clear.
    destruct st as [m dA dB c ltd sA sB rA rB ssA ssB pl idx vol routedA routedB pA pB au].
    destruct d, au, pA, pB; vm_compute; repeat split. }
  destruct H1 as (S1 & S2 & S3 & S4).
  destruct (moves_keep moves st1) as (M1 & M2 & M3 & M4).
  fold st2 in M1, M2, M3, M4.
  assert (T1 : deckSignal d st2
               = set_wasPlayingBeforeScratch (isPlaying D) (set_isPlaying false D))
    by (rewrite M1; exact S1).
  assert (T2 : isScratching d st2 = true) by (rewrite M2; exact S2).
  assert (T3 : active (scratchState d st2) = true) by (rewrite M3; exact S3).
  assert (T4 : HTMLMediaElement.paused <$> audioPlayer d st2
               = (fun _ => true) <$> audioPlayer d st) by (rewrite M4; exact S4).
  destruct (onScratchEnd_deck d st2) as (E1 & E2 & E3 & E4).
  fold st3 in E1, E2, E3, E4.
  rewrite T3, T2, T1 in E1. rewrite T3 in E2. rewrite T3, T2, T1 in E4.
  cbn [andb] in E1, E4.
  assert (E1' : deckSignal d st3 = set_wasPlayingBeforeScratch (isPlaying D) D).
  { rewrite E1. destruct D; reflexivity. }
  split; [exact T1|]. split; [exact T2|]. split; [exact T3|]. split; [exact T4|].
  split; [exact E1'|].
  split; [rewrite E1'; destruct D; reflexivity|].
  split; [exact E2|]. split; [exact E3|].
  rewrite E4. destruct D as [t ip pr du pb fq lp g eh em el dv wp]; cbn.
  destruct ip; cbn.
  - destruct (audioPlayer d st2) eqn:P2, (audioPlayer d st) eqn:P0;
      cbn in T4 |- *; congruence.
  - rewrite T4. reflexivity.
Qed.

Lemma X13_scratch_gesture_restores_play_witness :
  isPlaying (deckSignal A
      (onScratchEnd
         (fold_left (fun s e => onScratch e s) [pointer_right; pointer_left]
            (onScratchStart pointer_left A loaded_state))))
  = isPlaying (deckSignal A loaded_state).
Proof.
  assert (Hdur : duration (deckSignal A loaded_state) <> 0) by (cbn; lra).
  destruct (X13_scratch_gesture_restores_play A loaded_state pointer_left
              [pointer_right; pointer_left] Hdur eq_refl)
    as (_ & _ & _ & _ & _ & H & _).
  exact H.
Defined.

(** [X14]  A deck that is fed by the drum machine, or whose track has no
    duration yet, cannot be scratched: pressing its platter starts no
    gesture, and a pointer move afterwards changes neither its audio element
    nor its platter rotation, nor either deck's signals. *)
Theorem X14_no_scratch_on_routed_or_empty_deck
    (d : DeckId) (st : App) (press move : PointerEvent) :
  isDrumRouted d st = true \/ duration (deckSignal d st) = 0 ->
  active (scratchState d st) = false ->
  let st1 := onScratchStart press d st in
  let st2 := onScratch move st1 in
  st1 = ensureAudioContext st
  /\ active (scratchState d st2) = false
  /\ isScratching d st2 = isScratching d st
  /\ audioPlayer d st2 = audioPlayer d st
  /\ scratchRotation d st2 = scratchRotation d st
  /\ (forall d', deckSignal d' st2 = deckSignal d' st).
Proof.
  intros Hno Hact st1 st2.
  destruct (ensureAudioContext_frame st) as (EA & EB & ES & EI & EP & ER & ED).
  assert (H1 : st1 = ensureAudioContext st).
  { subst st1. unfold onScratchStart.
    assert (Hd : deckSignal d (ensureAudioContext st) = deckSignal d st)
      by (destruct d; assumption).
    rewrite Hd, ED.
    destruct (Req_dec_T (duration (deckSignal d st)) 0) as [_|Hn]; [reflexivity|].
    destruct Hno as [-> | Hz]; [reflexivity | contradiction]. }
  split; [exact H1|].
  destruct (onScratch_keeps move st1) as (K1 & K2 & K3 & _).
  fold st2 in K1, K2, K3.
  split; [rewrite K3, H1, ES; exact Hact|].
  split; [rewrite K2, H1; apply EI|].
  assert (Hproc : forall x, active (scratchState d x) = false ->
            audioPlayer d (processDeck d move x) = audioPlayer d x
            /\ scratchRotation d (processDeck d move x) = scratchRotation d x).
  { intros x Hx. unfold processDeck.
    destruct (platterElement (scratchState d x)); [|split; reflexivity].
    rewrite Hx. cbn. split; reflexivity. }
  assert (Hst1 : active (scratchState d st1) = false) by (rewrite H1, ES; exact Hact).
  assert (H2 : audioPlayer d st2 = audioPlayer d st1
               /\ scratchRotation d st2 = scratchRotation d st1).
  { subst st2. unfold onScratch.
    destruct (negb (active (scratchStateA st1)) && negb (active (scratchStateB st1)));
      [split; reflexivity|].
    destruct (ensureAudioContext_frame st1) as (_ & _ & ES1 & _ & EP1 & ER1 & _).
    set (x := ensureAudioContext st1) in *.
    destruct (processDeck_frame A move x) as (_ & _ & FA1 & FA2 & FA3 & _).
    destruct (processDeck_frame B move (processDeck A move x))
      as (_ & _ & FB1 & FB2 & FB3 & _).
    cbn [otherDeck] in *.
    assert (Hx : active (scratchState d x) = false) by (rewrite ES1; exact Hst1).
    destruct d.
    - rewrite FB1, FB3. destruct (Hproc x Hx) as (P1 & P2).
      rewrite P1, P2, EP1, ER1. split; reflexivity.
    - assert (Hx' : active (scratchState B (processDeck A move x)) = false)
        by (rewrite FA2; exact Hx).
      destruct (Hproc _ Hx') as (P1 & P2).
      rewrite P1, P2, FA1, FA3, EP1, ER1. split; reflexivity. }
  destruct H2 as (P & Q).
  split; [rewrite P, H1; apply EP|].
  split; [rewrite Q, H1; apply ER|].
  intros d'. rewrite K1, H1. destruct d'; assumption.
Qed.

Lemma X14_no_scratch_on_routed_or_empty_deck_witness :
  audioPlayer B (onScratch pointer_right (onScratchStart pointer_left B routed_to_B))
  = audioPlayer B routed_to_B.
Proof.
  destruct (X14_no_scratch_on_routed_or_empty_deck B routed_to_B pointer_left
              pointer_right (or_introl eq_refl) eq_refl) as (_ & _ & _ & H & _).
  exact H.
Defined.

End MoreScratch.

(** * Further properties of the view modes and the effects *)

Section MoreModes.

Import App.
Local Open Scope R_scope.


(** [X15]  The view button walks the five modes in a cycle: each press
    moves to the next mode and five presses come back to the mode they
    started from.  Entering the DJ view centres the crossfader and changes
    nothing else; entering the drum, image or video view changes only the
    mode. *)
Theorem X15_view_mode_cycle (st : App) :
  mainViewMode (toggleMainViewMode st) = nextMode (mainViewMode st)
  /\ mainViewMode (Nat.iter 5 toggleMainViewMode st) = mainViewMode st
  /\ (forall k, (0 < k < 5)%nat ->
        mainViewMode (Nat.iter k toggleMainViewMode st) <> mainViewMode st)
  /\ (mainViewMode st = player ->
        toggleMainViewMode st = set_mainViewMode dj (set_crossfade 0 st))
  /\ (mainViewMode st <> player -> mainViewMode st <> video_editor ->
        toggleMainViewMode st = set_mainViewMode (nextMode (mainViewMode st)) st).
Proof.
  assert (Hm : forall x, mainViewMode (toggleMainViewMode x) = nextMode (mainViewMode x)).
  { intros x. unfold toggleMainViewMode. reflexivity. }
  split; [apply Hm|].
  split; [cbv [Nat.iter nat_rect]; rewrite !Hm; destruct (mainViewMode st); reflexivity|].
  split.
  { intros k Hk.
    assert (Hc : k = 1%nat \/ k = 2%nat \/ k = 3%nat \/ k = 4%nat) by lia.
    destruct Hc as [-> | [-> | [-> | ->]]]; cbv [Nat.iter nat_rect]; rewrite !Hm;
      destruct (mainViewMode st); discriminate. }
  split.
  - intros H. unfold toggleMainViewMode. rewrite H. reflexivity.
  - intros H1 H2. unfold toggleMainViewMode.
    destruct (mainViewMode st); try reflexivity; contradiction.
Qed.

Lemma X15_view_mode_cycle_witness :
  crossfade (toggleMainViewMode (onCrossfadeChange 1 init)) = 0.
Proof.
  destruct (X15_view_mode_cycle (onCrossfadeChange 1 init)) as (_ & _ & _ & H & _).
  rewrite (H eq_refl). reflexivity.
Defined.




End MoreModes.

(** * Further properties of the playlist *)

Section MorePlaylist.

Import App.

Lemma currentPlayerTrack_in_range (st : App) :
  (0 <= currentTrackIndex st < Z.of_nat (length (playlist st)))%Z ->
  currentPlayerTrack st = playlist st !! Z.to_nat (currentTrackIndex st).
Proof.
  intros H. unfold currentPlayerTrack. cbv zeta.
  replace (0 <=? currentTrackIndex st)%Z with true by (symmetry; apply Z.leb_le; lia).
  replace (currentTrackIndex st <? Z.of_nat (length (playlist st)))%Z with true
    by (symmetry; apply Z.ltb_lt; lia).
  reflexivity.
Qed.

Lemma currentPlayerTrack_out_of_range (st : App) :
  ~ (0 <= currentTrackIndex st < Z.of_nat (length (playlist st)))%Z ->
  currentPlayerTrack st = None.
Proof.
  intros H. unfold currentPlayerTrack. cbv zeta.
  destruct (0 <=? currentTrackIndex st)%Z eqn:E1; [|reflexivity].
  destruct (currentTrackIndex st <? Z.of_nat (length (playlist st)))%Z eqn:E2;
    [|reflexivity].
  apply Z.leb_le in E1. apply Z.ltb_lt in E2. exfalso. apply H. lia.
Qed.

Lemma loadTrack_deck (t : Track) (d : DeckId) (autoplay : bool) (st : App) :
  deckSignal d (loadTrack t d autoplay st)
  = set_wasPlayingBeforeScratch autoplay
      (set_isPlaying autoplay (set_track t initialDeckState)).
Proof. unfold loadTrack. destruct d; reflexivity. Qed.

(** [X18]  A file chosen in the player view is appended to the playlist and
    becomes the current track; the tracks already there keep their places.
    The effect that follows the current track then loads it on deck A,
    playing if deck A was playing or the playlist was empty.  A track added
    without [playImmediate] while another one is current leaves the current
    track as it is. *)
Theorem X18_added_file_becomes_current (t : Track) (st : App) :
  isPlayerMode (mainViewMode st) = true ->
  let st1 := handleFileInput (Some t) st in
  playlist st1 = playlist st ++ [t]
  /\ (forall i x, playlist st !! i = Some x -> playlist st1 !! i = Some x)
  /\ currentTrackIndex st1 = Z.of_nat (length (playlist st))
  /\ currentPlayerTrack st1 = Some t
  /\ deckSignal A (playerTrackEffect st1)
     = (let autoplay := isPlaying (deckA st) || (length (playlist st) =? 0)%nat in
        set_wasPlayingBeforeScratch autoplay
          (set_isPlaying autoplay (set_track t initialDeckState)))
  /\ (forall t' x,
        (0 <= currentTrackIndex x < Z.of_nat (length (playlist x)))%Z ->
        currentTrackIndex (addTrackToPlaylist t' false x) = currentTrackIndex x
        /\ currentPlayerTrack (addTrackToPlaylist t' false x) = currentPlayerTrack x).
Proof.
  intros Hm st1.
  assert (Hst1 : st1 = set_currentTrackIndex (Z.of_nat (length (playlist st)))
                         (set_playlist (playlist st ++ [t]) st)).
  { subst st1. unfold handleFileInput, addTrackToPlaylist. rewrite Hm.
    cbn [orb]. destruct st; cbn. rewrite length_app. cbn.
    f_equal. lia. }
  assert (Hp : playlist st1 = playlist st ++ [t]) by (rewrite Hst1; destruct st; reflexivity).
  assert (Hi : currentTrackIndex st1 = Z.of_nat (length (playlist st)))
    by (rewrite Hst1; destruct st; reflexivity).
  assert (Hc : currentPlayerTrack st1 = Some t).
  { rewrite currentPlayerTrack_in_range.
    - rewrite Hi, Hp, Nat2Z.id. apply list_lookup_middle. reflexivity.
    - rewrite Hi, Hp, length_app. cbn. lia. }
  split; [exact Hp|].
  split; [intros i x Hx; rewrite Hp; apply lookup_app_l_Some; exact Hx|].
  split; [exact Hi|]. split; [exact Hc|].
  split.
  { unfold playerTrackEffect. rewrite Hc.
    assert (Hm1 : mainViewMode st1 = mainViewMode st) by (rewrite Hst1; destruct st; reflexivity).
    rewrite Hm1, Hm, loadTrack_deck.
    assert (Hd : deckA st1 = deckA st) by (rewrite Hst1; destruct st; reflexivity).
    rewrite Hd, Hp, length_app. cbn [length].
    replace (length (playlist st) + 1 =? 1)%nat with (length (playlist st) =? 0)%nat.
    - reflexivity.
    - destruct (length (playlist st)) as [|n]; [reflexivity|].
      cbn. symmetry. apply Nat.eqb_neq. lia. }
  intros t' x Hx.
  assert (Hx' : addTrackToPlaylist t' false x = set_playlist (playlist x ++ [t']) x).
  { unfold addTrackToPlaylist. cbn [orb].
    replace (currentTrackIndex (set_playlist (playlist x ++ [t']) x) =? -1)%Z with false;
      [reflexivity|].
    symmetry. apply Z.eqb_neq. destruct x; cbn in *. lia. }
  rewrite Hx'.
  assert (Hi' : currentTrackIndex (set_playlist (playlist x ++ [t']) x) = currentTrackIndex x)
    by (destruct x; reflexivity).
  assert (Hp' : playlist (set_playlist (playlist x ++ [t']) x) = playlist x ++ [t'])
    by (destruct x; reflexivity).
  split; [exact Hi'|].
  rewrite !currentPlayerTrack_in_range.
  - rewrite Hi', Hp'. apply lookup_app_l. lia.
  - exact Hx.
  - rewrite Hi', Hp', length_app. cbn. lia.
Qed.

Lemma X18_added_file_becomes_current_witness :
  currentPlayerTrack (handleFileInput (Some some_track) init) = Some some_track.
Proof.
  destruct (X18_added_file_becomes_current some_track init eq_refl) as (_ & _ & _ & H & _).
  exact H.
Defined.

(** [X19]  With a current track inside a non-empty playlist, [playNext]
    and [playPrevious] stay inside the playlist, step by one and wrap at the
    ends, undo each other, and change nothing but the index. *)
Theorem X19_next_and_previous_wrap (st : App) :
  let n := Z.of_nat (length (playlist st)) in
  let i := currentTrackIndex st in
  (0 <= i < n)%Z ->
  currentTrackIndex (playNext st) = (if (i =? n - 1)%Z then 0 else i + 1)%Z
  /\ currentTrackIndex (playPrevious st) = (if (i =? 0)%Z then n - 1 else i - 1)%Z
  /\ (0 <= currentTrackIndex (playNext st) < n)%Z
  /\ (0 <= currentTrackIndex (playPrevious st) < n)%Z
  /\ playPrevious (playNext st) = st
  /\ playNext (playPrevious st) = st
  /\ playNext st = set_currentTrackIndex (currentTrackIndex (playNext st)) st
  /\ playPrevious st = set_currentTrackIndex (currentTrackIndex (playPrevious st)) st.
Proof.
  intros n i Hi.
  assert (Hn : forall x, (0 <= x < n)%Z ->
             JS.rem (x + 1) n = (if (x =? n - 1)%Z then 0 else x + 1)%Z).
  { intros x Hx. unfold JS.rem. destruct (Z.eqb_spec x (n - 1)) as [->|Hne].
    - replace (n - 1 + 1)%Z with n by lia. apply Z.rem_same. lia.
    - apply Z.rem_small. lia. }
  assert (Hp : forall x, (0 <= x < n)%Z ->
             JS.rem (x - 1 + n) n = (if (x =? 0)%Z then n - 1 else x - 1)%Z).
  { intros x Hx. unfold JS.rem. destruct (Z.eqb_spec x 0) as [->|Hne].
    - replace (0 - 1 + n)%Z with (n - 1)%Z by lia. apply Z.rem_small. lia.
    - rewrite Z.rem_mod_nonneg by lia.
      replace (x - 1 + n)%Z with (x - 1 + 1 * n)%Z by lia.
      rewrite Z.mod_add by lia. apply Z.mod_small. lia. }
  assert (N1 : currentTrackIndex (playNext st) = (if (i =? n - 1)%Z then 0 else i + 1)%Z).
  { unfold playNext. fold n i. rewrite (Hn i Hi). destruct st; reflexivity. }
  assert (P1 : currentTrackIndex (playPrevious st) = (if (i =? 0)%Z then n - 1 else i - 1)%Z).
  { unfold playPrevious. cbv zeta. fold n i. rewrite (Hp i Hi). destruct st; reflexivity. }
  assert (N2 : (0 <= currentTrackIndex (playNext st) < n)%Z).
  { rewrite N1. destruct (Z.eqb_spec i (n - 1)); lia. }
  assert (P2 : (0 <= currentTrackIndex (playPrevious st) < n)%Z).
  { rewrite P1. destruct (Z.eqb_spec i 0); lia. }
  assert (LN : playlist (playNext st) = playlist st) by (destruct st; reflexivity).
  assert (LP : playlist (playPrevious st) = playlist st) by (destruct st; reflexivity).
  split; [exact N1|]. split; [exact P1|]. split; [exact N2|]. split; [exact P2|].
  split.
  { unfold playPrevious at 1. cbv zeta. rewrite LN. fold n.
    rewrite (Hp _ N2), N1.
    assert (E : (if ((if (i =? n - 1)%Z then 0 else i + 1) =? 0)%Z then n - 1
                 else (if (i =? n - 1)%Z then 0 else i + 1) - 1)%Z = i).
    { destruct (Z.eqb_spec i (n - 1)); cbn.
      - lia.
      - destruct (Z.eqb_spec (i + 1) 0); lia. }
    rewrite E. subst i. destruct st; reflexivity. }
  split.
  { unfold playNext at 1. rewrite LP. fold n.
    rewrite (Hn _ P2), P1.
    assert (E : (if ((if (i =? 0)%Z then n - 1 else i - 1) =? n - 1)%Z then 0
                 else (if (i =? 0)%Z then n - 1 else i - 1) + 1)%Z = i).
    { destruct (Z.eqb_spec i 0).
      - rewrite Z.eqb_refl. lia.
      - destruct (Z.eqb_spec (i - 1) (n - 1)); lia. }
    rewrite E. subst i. destruct st; reflexivity. }
  split; destruct st; reflexivity.
Qed.

Lemma X19_next_and_previous_wrap_witness :
  currentTrackIndex (playNext (run [AddTrackToPlaylist some_track false;
                                    AddTrackToPlaylist some_track true] init)) = 0%Z.
Proof.
  assert (H : (0 <= 1 < 2)%Z) by lia.
  destruct (X19_next_and_previous_wrap
              (run [AddTrackToPlaylist some_track false;
                    AddTrackToPlaylist some_track true] init) H) as (E & _).
  exact E.
Defined.

(** [X20]  [playTrackFromPlaylist] with an index outside the playlist does
    nothing.  With an index inside it, that entry becomes the current track;
    in the player view deck A is reset to it and plays, in the other views
    both decks are left alone.  So in the player view, pressing play on a
    deck without a source starts the current entry of a non-empty playlist,
    or the first one when none is current. *)
Theorem X20_playlist_entry_starts (index : Z) (st : App) (t : Track) :
  playlist st !! Z.to_nat index = Some t ->
  (0 <= index)%Z ->
  let st' := playTrackFromPlaylist index st in
  currentTrackIndex st' = index
  /\ currentPlayerTrack st' = Some t
  /\ playlist st' = playlist st
  /\ (isPlayerMode (mainViewMode st) = true ->
        deckA st' = set_wasPlayingBeforeScratch true
                      (set_isPlaying true (set_track t initialDeckState))
        /\ deckB st' = deckB st)
  /\ (isPlayerMode (mainViewMode st) = false -> deckA st' = deckA st /\ deckB st' = deckB st)
  /\ (forall d,
        isPlayerMode (mainViewMode st) = true ->
        JS.truthy (audioSrc (track (deckSignal d st))) = false ->
        (currentTrackIndex st = index \/ (currentTrackIndex st < 0 /\ index = 0)%Z) ->
        togglePlayPause d st = st')
  /\ (forall j x,
        ~ (0 <= j < Z.of_nat (length (playlist x)))%Z -> playTrackFromPlaylist j x = x).
Proof.
  intros Ht H0 st'.
  assert (Hlt : (index < Z.of_nat (length (playlist st)))%Z).
  { apply lookup_lt_Some in Ht. lia. }
  assert (Hst' : st' = (if isPlayerMode (mainViewMode st)
                        then set_deckA
                               (set_wasPlayingBeforeScratch true
                                  (set_isPlaying true (set_track t initialDeckState)))
                               (set_currentTrackIndex index st)
                        else set_currentTrackIndex index st)).
  { subst st'. unfold playTrackFromPlaylist.
    replace (0 <=? index)%Z with true by (symmetry; apply Z.leb_le; lia).
    replace (index <? Z.of_nat (length (playlist st)))%Z with true
      by (symmetry; apply Z.ltb_lt; lia).
    cbn [andb]. rewrite Ht.
    replace (mainViewMode (set_currentTrackIndex index st)) with (mainViewMode st)
      by (destruct st; reflexivity).
    reflexivity. }
  assert (Hi : currentTrackIndex st' = index).
  { rewrite Hst'. destruct (isPlayerMode (mainViewMode st)); destruct st; reflexivity. }
  assert (Hp : playlist st' = playlist st).
  { rewrite Hst'. destruct (isPlayerMode (mainViewMode st)); destruct st; reflexivity. }
  split; [exact Hi|].
  split.
  { rewrite currentPlayerTrack_in_range; rewrite Hi, Hp; [exact Ht | lia]. }
  split; [exact Hp|].
  split.
  { intros Hm. rewrite Hst', Hm. destruct st; split; reflexivity. }
  split.
  { intros Hm. rewrite Hst', Hm. destruct st; split; reflexivity. }
  split.
  { intros d Hm Hsrc Hidx. unfold togglePlayPause. rewrite Hsrc, Hm.
    replace (0 <? length (playlist st))%nat with true
      by (symmetry; apply Nat.ltb_lt; lia).
    cbn [andb].
    replace (if (0 <=? currentTrackIndex st)%Z then currentTrackIndex st else 0%Z)
      with index; [reflexivity|].
    destruct Hidx as [E | (E1 & E2)].
    - rewrite E. replace (0 <=? index)%Z with true by (symmetry; apply Z.leb_le; lia).
      reflexivity.
    - replace (0 <=? currentTrackIndex st)%Z with false
        by (symmetry; apply Z.leb_gt; lia).
      exact E2. }
  intros j x Hj. unfold playTrackFromPlaylist.
  destruct (0 <=? j)%Z eqn:E1; [|reflexivity].
  destruct (j <? Z.of_nat (length (playlist x)))%Z eqn:E2; [|reflexivity].
  apply Z.leb_le in E1. apply Z.ltb_lt in E2. exfalso. apply Hj. lia.
Qed.

Lemma X20_playlist_entry_starts_witness :
  isPlaying (deckA (playTrackFromPlaylist 0 (addTrackToPlaylist some_track false init)))
  = true.
Proof.
  assert (H0 : (0 <= 0)%Z) by lia.
  destruct (X20_playlist_entry_starts 0 (addTrackToPlaylist some_track false init)
              some_track eq_refl H0) as (_ & _ & _ & H & _).
  destruct (H eq_refl) as (E & _). rewrite E. reflexivity.
Defined.

Lemma findIndex_none {X : Type} (f : X -> bool) (l : list X) :
  (forall x, x ∈ l -> f x = false) -> Playlist.findIndex f l = (-1)%Z.
Proof.
  induction l as [|x l IH]; intros H; cbn; [reflexivity|].
  rewrite (H x) by (apply list_elem_of_here).
  rewrite IH by (intros y Hy; apply H; apply list_elem_of_further; exact Hy).
  reflexivity.
Qed.

Lemma findIndex_range {X : Type} (f : X -> bool) (l : list X) :
  (-1 <= Playlist.findIndex f l < Z.of_nat (length l))%Z.
Proof.
  induction l as [|x l IH]; cbn [Playlist.findIndex length]; [lia|].
  destruct (f x); [lia|].
  destruct (Z.ltb_spec (Playlist.findIndex f l) 0); lia.
Qed.

Lemma findIndex_missing {X : Type} (f : X -> bool) (l : list X) :
  Playlist.findIndex f l = (-1)%Z -> forall k y, l !! k = Some y -> f y = false.
Proof.
  induction l as [|x l IH]; cbn [Playlist.findIndex]; intros Hm k y Hk;
    [discriminate Hk|].
  destruct (f x) eqn:Ex; [lia|].
  pose proof (findIndex_range f l) as Hr.
  destruct (Z.ltb_spec (Playlist.findIndex f l) 0) as [Hneg|Hpos]; [|lia].
  destruct k as [|k]; cbn in Hk.
  - injection Hk as <-. exact Ex.
  - apply (IH ltac:(lia) k y Hk).
Qed.

Lemma findIndex_first {X : Type} (f : X -> bool) (l : list X) (i : nat) :
  Playlist.findIndex f l = Z.of_nat i ->
  (exists x, l !! i = Some x /\ f x = true)
  /\ (forall j y, (j < i)%nat -> l !! j = Some y -> f y = false).
Proof.
  revert i. induction l as [|x l IH]; intros i; cbn [Playlist.findIndex]; [lia|].
  destruct (f x) eqn:Ex.
  - intros Hi. assert (i = 0%nat) by lia. subst i. split.
    + exists x. split; [reflexivity | exact Ex].
    + intros j y Hj. lia.
  - destruct (Z.ltb_spec (Playlist.findIndex f l) 0) as [Hneg|Hpos]; [lia|].
    intros Hi. destruct i as [|i]; [lia|].
    assert (Hi' : Playlist.findIndex f l = Z.of_nat i) by lia.
    destruct (IH i Hi') as ((y & Hy & Fy) & Hfirst). split.
    + exists y. split; [exact Hy | exact Fy].
    + intros [|j] z Hj Hz; cbn in Hz.
      * injection Hz as <-. exact Ex.
      * apply (Hfirst j z); [lia | exact Hz].
Qed.

(** [X21]  Removing the playlist entry at a valid index deletes exactly that
    entry.  If it was the current track, nothing is current afterwards and
    deck A is reset; otherwise the current track is still the same track
    (its index moves down when the removed entry was before it) and deck A
    is left alone.  An index outside the playlist, an identifier with
    neither index nor title, and a title that matches no entry remove
    nothing; a title that does match removes the first entry whose
    lower-cased title equals it. *)
Theorem X21_remove_keeps_current_track
    (toLowerCase : string -> string) (i : Z) (st : App) :
  (0 <= i < Z.of_nat (length (playlist st)))%Z ->
  let remove := Playlist.removeTrackFromPlaylist toLowerCase in
  let st' := remove (TrackIdentifier.mk (Some i) None) st in
  playlist st' = delete (Z.to_nat i) (playlist st)
  /\ length (playlist st') = (length (playlist st) - 1)%nat
  /\ (currentTrackIndex st = i ->
        currentTrackIndex st' = (-1)%Z /\ currentPlayerTrack st' = None
        /\ deckA st' = initialDeckState)
  /\ (currentTrackIndex st <> i ->
        currentPlayerTrack st' = currentPlayerTrack st /\ deckA st' = deckA st)
  /\ (forall j x, ~ (0 <= j < Z.of_nat (length (playlist x)))%Z ->
        remove (TrackIdentifier.mk (Some j) None) x = x)
  /\ (forall x, remove (TrackIdentifier.mk None None) x = x)
  /\ (forall title x,
        (forall tr, tr ∈ playlist x -> toLowerCase (App.title tr) <> toLowerCase title) ->
        remove (TrackIdentifier.mk None (Some title)) x = x)
  /\ (forall title tr,
        JS.truthy title = true ->
        playlist st !! Z.to_nat i = Some tr ->
        toLowerCase (App.title tr) = toLowerCase title ->
        (forall j y, (j < Z.to_nat i)%nat -> playlist st !! j = Some y ->
           toLowerCase (App.title y) <> toLowerCase title) ->
        remove (TrackIdentifier.mk None (Some title)) st = st').
Proof.
  intros Hi remove st'.
  assert (Hout : forall j x id,
            ~ (0 <= j < Z.of_nat (length (playlist x)))%Z ->
            (if (0 <=? j)%Z && (j <? Z.of_nat (length (playlist x)))%Z
             then id else x) = x).
  { intros j x id Hj.
    destruct (0 <=? j)%Z eqn:E1; [|reflexivity].
    destruct (j <? Z.of_nat (length (playlist x)))%Z eqn:E2; [|reflexivity].
    apply Z.leb_le in E1. apply Z.ltb_lt in E2. exfalso. apply Hj. lia. }
  assert (Hst' : st' = set_playlist (delete (Z.to_nat i) (playlist st))
                   (if (currentTrackIndex st =? i)%Z
                    then set_deckA initialDeckState (set_currentTrackIndex (-1) st)
                    else if (i <? currentTrackIndex st)%Z
                         then set_currentTrackIndex (currentTrackIndex st - 1) st
                         else st)).
  { subst st' remove. unfold Playlist.removeTrackFromPlaylist. cbn.
    replace (0 <=? i)%Z with true by (symmetry; apply Z.leb_le; lia).
    replace (i <? Z.of_nat (length (playlist st)))%Z with true
      by (symmetry; apply Z.ltb_lt; lia).
    reflexivity. }
  assert (Hp : playlist st' = delete (Z.to_nat i) (playlist st)).
  { rewrite Hst'. destruct (currentTrackIndex st =? i)%Z; [destruct st; reflexivity|].
    destruct (i <? currentTrackIndex st)%Z; destruct st; reflexivity. }
  assert (Hl : length (playlist st') = (length (playlist st) - 1)%nat).
  { rewrite Hp. apply length_delete. apply lookup_lt_is_Some_2. lia. }
  split; [exact Hp|]. split; [exact Hl|].
  split.
  { intros Hc. rewrite Hst'. apply Z.eqb_eq in Hc. rewrite Hc.
    split; [destruct st; reflexivity|].
    split; [|destruct st; reflexivity].
    apply currentPlayerTrack_out_of_range. destruct st; cbn. lia. }
  split.
  { intros Hc. split.
    - assert (Hidx : currentTrackIndex st'
                     = (if (i <? currentTrackIndex st)%Z then currentTrackIndex st - 1
                        else currentTrackIndex st)%Z).
      { rewrite Hst'. apply Z.eqb_neq in Hc. rewrite Hc.
        destruct (i <? currentTrackIndex st)%Z; destruct st; reflexivity. }
      set (c := currentTrackIndex st) in *.
      destruct (Z.ltb_spec i c) as [Hlt|Hge].
      + destruct (Z_lt_dec c (Z.of_nat (length (playlist st)))) as [Hin|Hnin].
        * rewrite !currentPlayerTrack_in_range; fold c; [|lia|rewrite Hidx, Hl; lia].
          rewrite Hidx, Hp, list_lookup_delete_ge by lia.
          f_equal. lia.
        * rewrite !currentPlayerTrack_out_of_range; fold c;
            [reflexivity | lia | rewrite Hidx, Hl; lia].
      + destruct (Z_le_dec 0 c) as [Hin|Hnin].
        * rewrite !currentPlayerTrack_in_range; fold c; [|lia|rewrite Hidx, Hl; lia].
          rewrite Hidx, Hp, list_lookup_delete_lt by lia. reflexivity.
        * rewrite !currentPlayerTrack_out_of_range; fold c;
            [reflexivity | lia | rewrite Hidx, Hl; lia].
    - rewrite Hst'. apply Z.eqb_neq in Hc. rewrite Hc.
      destruct (i <? currentTrackIndex st)%Z; destruct st; reflexivity. }
  split.
  { intros j x Hj. subst remove. unfold Playlist.removeTrackFromPlaylist. cbn.
    apply Hout. exact Hj. }
  split; [intros x; reflexivity|].
  split.
  { intros title x Hx. subst remove. unfold Playlist.removeTrackFromPlaylist. cbn.
    destruct (JS.truthy title); [|reflexivity].
    rewrite findIndex_none; [reflexivity|].
    intros tr Htr. apply String.eqb_neq. apply Hx. exact Htr. }
  intros title tr Htitle Htr Heq Hfirst.
  rewrite Hst'. subst remove. unfold Playlist.removeTrackFromPlaylist. cbn.
  rewrite Htitle.
  set (f := fun tr0 : Track => String.eqb (toLowerCase (App.title tr0)) (toLowerCase title)).
  assert (Hf : Playlist.findIndex f (playlist st) = i).
  { pose proof (findIndex_range f (playlist st)) as Hr.
    destruct (Z.eq_dec (Playlist.findIndex f (playlist st)) (-1)%Z) as [Hm|Hm].
    - exfalso.
      pose proof (findIndex_missing f (playlist st) Hm _ _ Htr) as Hall.
      subst f. cbn in Hall.
      apply String.eqb_neq in Hall. contradiction.
    - set (k := Z.to_nat (Playlist.findIndex f (playlist st))).
      assert (Hk : Playlist.findIndex f (playlist st) = Z.of_nat k) by lia.
      destruct (findIndex_first f (playlist st) k Hk) as ((y & Hy & Fy) & Hbefore).
      destruct (Nat.lt_trichotomy k (Z.to_nat i)) as [Hlt | [Heqk | Hgt]].
      + exfalso. apply (Hfirst k y Hlt Hy). subst f. cbn in Fy.
        apply String.eqb_eq. exact Fy.
      + lia.
      + exfalso. specialize (Hbefore _ _ Hgt Htr). subst f. cbn in Hbefore.
        apply String.eqb_neq in Hbefore. contradiction. }
  rewrite Hf.
  replace (0 <=? i)%Z with true by (symmetry; apply Z.leb_le; lia).
  replace (i <? Z.of_nat (length (playlist st)))%Z with true
    by (symmetry; apply Z.ltb_lt; lia).
  reflexivity.
Qed.

Lemma X21_remove_keeps_current_track_witness :
  currentPlayerTrack
    (Playlist.removeTrackFromPlaylist (fun s => s) (TrackIdentifier.mk (Some 0%Z) None)
       (run [AddTrackToPlaylist (mkTrack "a" "x" "art" "a.mp3" None) false;
             AddTrackToPlaylist some_track true] init))
  = Some some_track.
Proof.
  assert (H : (0 <= 0 < Z.of_nat (length (playlist
             (run [AddTrackToPlaylist (mkTrack "a" "x" "art" "a.mp3" None) false;
                   AddTrackToPlaylist some_track true] init))))%Z) by (cbn; lia).
  destruct (X21_remove_keeps_current_track (fun s => s) 0
              (run [AddTrackToPlaylist (mkTrack "a" "x" "art" "a.mp3" None) false;
                    AddTrackToPlaylist some_track true] init) H)
    as (_ & _ & _ & Hk & _).
  assert (Hne : currentTrackIndex
                  (run [AddTrackToPlaylist (mkTrack "a" "x" "art" "a.mp3" None) false;
                        AddTrackToPlaylist some_track true] init) <> 0%Z)
    by (cbn; lia).
  destruct (Hk Hne) as (E & _). rewrite E. reflexivity.
Defined.

End MorePlaylist.

(** * Further properties of the mixer's mappings *)

Section MoreMixer.

Import App.
Local Open Scope R_scope.




Lemma filter_power_order (v w : R) :
  v < w -> 20 * Rpower (20000 / 20) v < 20 * Rpower (20000 / 20) w.
Proof.
  intros H. rewrite ratio_1000.
  pose proof (Rpower_lt 1000 v w ltac:(lra) H). lra.
Qed.

(** [X23]  The filter slider is strictly increasing: on [[0,1]] a higher
    slider value stores a higher cutoff, every stored cutoff lies between
    20 Hz and 20000 Hz, and the other deck's signals are not touched. *)
Theorem X23_filter_slider_increasing (d : DeckId) (st : App) (v w : R) :
  0 <= v -> v < w -> w <= 1 ->
  let freq := fun x => filterFreq (deckSignal d (onFilterChange x d st)) in
  20 <= freq v /\ freq v < freq w /\ freq w <= 20000
  /\ deckSignal (otherDeck d) (onFilterChange v d st) = deckSignal (otherDeck d) st
  /\ deckSignal d (onFilterChange v d st) = set_filterFreq (freq v) (deckSignal d st).
Proof.
  intros Hv Hvw Hw freq.
  assert (Hf : forall x, freq x = 20 * Rpower (20000 / 20) x).
  { intros x. subst freq. cbv beta. unfold onFilterChange, JS.Math_pow.
    destruct d, st; reflexivity. }
  rewrite !Hf.
  assert (H0 : 20 * Rpower (20000 / 20) 0 = 20)
    by (rewrite ratio_1000, Rpower_O by lra; lra).
  assert (H1 : 20 * Rpower (20000 / 20) 1 = 20000)
    by (rewrite ratio_1000, Rpower_1 by lra; lra).
  split.
  { destruct Hv as [Hv | <-]; [|lra].
    pose proof (filter_power_order 0 v Hv). lra. }
  split; [apply filter_power_order; exact Hvw|].
  split.
  { destruct Hw as [Hw | ->]; [|lra].
    pose proof (filter_power_order w 1 Hw). lra. }
  split; [destruct d, st; reflexivity|].
  unfold onFilterChange, JS.Math_pow. destruct d, st; reflexivity.
Qed.

Lemma X23_filter_slider_increasing_witness :
  filterFreq (deckSignal A (onFilterChange 0 A init))
  < filterFreq (deckSignal A (onFilterChange 1 A init)).
Proof.
  assert (H0 : 0 <= 0) by lra.
  assert (H1 : 0 < 1) by lra.
  assert (H2 : 1 <= 1) by lra.
  destruct (X23_filter_slider_increasing A init 0 1 H0 H1 H2) as (_ & H & _).
  exact H.
Defined.

Lemma filter_log_span : JS.Math_log 20000 - JS.Math_log 20 = ln 1000.
Proof. unfold JS.Math_log. rewrite ln_20000. lra. Qed.

(** [X24]  The slider position shown for a cutoff is defined for every
    number, lies in [[0,1]], and never decreases when the cutoff grows.  For
    a cutoff between 20 Hz and 20000 Hz, putting the slider at the position
    shown stores that same cutoff again. *)
Theorem X24_filter_display_range_and_inverse (d : DeckId) (st : App) (a b : R) :
  a <= b ->
  0 <= getNormalizedFilterValue a
  /\ getNormalizedFilterValue a <= getNormalizedFilterValue b
  /\ getNormalizedFilterValue b <= 1
  /\ (20 <= a <= 20000 ->
        filterFreq (deckSignal d (onFilterChange (getNormalizedFilterValue a) d st)) = a).
Proof.
  intros Hab.
  pose proof ln_1000_pos as Hpos.
  assert (Hform : forall f, 20 < f -> f < 20000 ->
            getNormalizedFilterValue f = (ln f - ln 20) / ln 1000
            /\ 0 < (ln f - ln 20) / ln 1000 < 1).
  { intros f Hlo Hhi. split.
    - unfold getNormalizedFilterValue. cbv zeta.
      destruct (Rle_dec f 20); [lra|]. destruct (Rle_dec 20000 f); [lra|].
      rewrite filter_log_span. reflexivity.
    - pose proof (ln_increasing 20 f ltac:(lra) Hlo) as L1.
      pose proof (ln_increasing f 20000 ltac:(lra) Hhi) as L2.
      rewrite ln_20000 in L2.
      split.
      + apply Rdiv_lt_0_compat; lra.
      + apply Rmult_lt_reg_r with (ln 1000); [exact Hpos|].
        unfold Rdiv. rewrite Rmult_assoc, Rinv_l by lra. lra. }
  assert (Hrange : forall f, 0 <= getNormalizedFilterValue f <= 1).
  { intros f. destruct (Rle_dec f 20) as [Hlo|Hlo].
    - unfold getNormalizedFilterValue. cbv zeta.
      destruct (Rle_dec f 20); [lra | contradiction].
    - destruct (Rle_dec 20000 f) as [Hhi|Hhi].
      + unfold getNormalizedFilterValue. cbv zeta.
        destruct (Rle_dec f 20); [contradiction|].
        destruct (Rle_dec 20000 f); [lra | contradiction].
      + destruct (Hform f ltac:(lra) ltac:(lra)) as (E & R). rewrite E. lra. }
  split; [apply Hrange|].
  split.
  { destruct (Rle_dec a 20) as [Ha|Ha].
    - assert (E : getNormalizedFilterValue a = 0).
      { unfold getNormalizedFilterValue. cbv zeta.
        destruct (Rle_dec a 20); [reflexivity | contradiction]. }
      rewrite E. apply Hrange.
    - destruct (Rle_dec 20000 b) as [Hb|Hb].
      + assert (E : getNormalizedFilterValue b = 1).
        { unfold getNormalizedFilterValue. cbv zeta.
          destruct (Rle_dec b 20); [lra|].
          destruct (Rle_dec 20000 b); [reflexivity | contradiction]. }
        rewrite E. apply Hrange.
      + destruct (Hform a ltac:(lra) ltac:(lra)) as (Ea & _).
        destruct (Hform b ltac:(lra) ltac:(lra)) as (Eb & _).
        rewrite Ea, Eb.
        pose proof (ln_le_mono a b ltac:(lra) Hab) as Hl.
        apply Rmult_le_compat_r; [left; apply Rinv_0_lt_compat; exact Hpos | lra]. }
  split; [apply Hrange|].
  intros [Ha1 Ha2].
  assert (Hf : forall x, filterFreq (deckSignal d (onFilterChange x d st))
                         = 20 * Rpower 1000 x).
  { intros x. rewrite <- ratio_1000. unfold onFilterChange, JS.Math_pow.
    destruct d, st; reflexivity. }
  rewrite Hf.
  destruct Ha1 as [Ha1 | <-].
  - destruct Ha2 as [Ha2 | ->].
    + destruct (Hform a Ha1 Ha2) as (E & _). rewrite E.
      unfold Rpower.
      replace ((ln a - ln 20) / ln 1000 * ln 1000) with (ln a - ln 20)
        by (field; lra).
      unfold Rminus. rewrite exp_plus, exp_Ropp, !exp_ln by lra. field.
    + assert (E : getNormalizedFilterValue 20000 = 1).
      { unfold getNormalizedFilterValue. cbv zeta.
        destruct (Rle_dec 20000 20); [lra|].
        destruct (Rle_dec 20000 20000); [reflexivity | lra]. }
      rewrite E, Rpower_1 by lra. lra.
  - assert (E : getNormalizedFilterValue 20 = 0).
    { unfold getNormalizedFilterValue. cbv zeta.
      destruct (Rle_dec 20 20); [reflexivity | lra]. }
    rewrite E, Rpower_O by lra. lra.
Qed.

Lemma X24_filter_display_range_and_inverse_witness :
  filterFreq (deckSignal B (onFilterChange (getNormalizedFilterValue 20000) B init))
  = 20000.
Proof.
  assert (H : 20000 <= 20000) by lra.
  destruct (X24_filter_display_range_and_inverse B init 20000 20000 H)
    as (_ & _ & _ & E).
  apply E. lra.
Defined.



End MoreMixer.

(** * Properties of the level meters *)

Section Meters.

Import VuMeter.

Lemma peak_fold_bounds (l : list Z) (acc : Z) :
  let peak := fold_left (fun max current => Z.max max (Z.abs (current - 128))) l acc in
  (acc <= peak)%Z
  /\ (forall b, b ∈ l -> (Z.abs (b - 128) <= peak)%Z)
  /\ (peak = acc \/ exists b, b ∈ l /\ peak = Z.abs (b - 128)).
Proof.
  revert acc. induction l as [|x l IH]; intros acc; cbn.
  - split; [lia|]. split; [|left; reflexivity].
    intros b Hb. apply elem_of_nil in Hb. contradiction.
  - destruct (IH (Z.max acc (Z.abs (x - 128)))) as (I1 & I2 & I3).
    split; [lia|]. split.
    + intros b Hb. apply elem_of_cons in Hb. destruct Hb as [-> | Hb].
      * lia.
      * apply I2. exact Hb.
    + destruct I3 as [E | (b & Hb & E)].
      * destruct (Z.max_spec acc (Z.abs (x - 128))) as [(_ & M) | (_ & M)].
        -- right. exists x. split; [apply list_elem_of_here | lia].
        -- left. lia.
      * right. exists b. split; [apply list_elem_of_further; exact Hb | exact E].
Qed.

Lemma sum_fold_bounds (l : list Z) (acc : Z) :
  bytes l ->
  (acc <= fold_left (fun sum b => sum + b) l acc <= acc + 255 * Z.of_nat (length l))%Z.
Proof.
  revert acc. induction l as [|x l IH]; intros acc Hb; cbn [fold_left length].
  - lia.
  - apply Forall_cons in Hb. destruct Hb as (Hx & Hl).
    specialize (IH (acc + x)%Z Hl). lia.
Qed.

(** [X26]  The meters stay on their scale.  For analyser bytes the peak
    level lies in [[0,1]], is the largest distance of a byte from the
    centre value 128 divided by 128, and is 0 exactly when every byte is
    128; the microphone level of a non-empty buffer lies in [[0,1]]. *)
Theorem X26_meter_levels_in_range (l : list Z) :
  bytes l ->
  (0 <= calculatePeak l <= 1)%R
  /\ (forall b, b ∈ l -> (IZR (Z.abs (b - 128)) / 128 <= calculatePeak l)%R)
  /\ (l <> [] -> exists b, b ∈ l /\ calculatePeak l = (IZR (Z.abs (b - 128)) / 128)%R)
  /\ (calculatePeak l = 0%R <-> forall b, b ∈ l -> b = 128%Z)
  /\ (l <> [] -> (0 <= micLevel l <= 1)%R).
Proof.
  intros Hb. unfold calculatePeak, micLevel.
  set (peak := fold_left (fun max current => Z.max max (Z.abs (current - 128))) l 0%Z).
  destruct (peak_fold_bounds l 0) as (P1 & P2 & P3). fold peak in P1, P2, P3.
  assert (Hle : (peak <= 128)%Z).
  { destruct P3 as [-> | (b & Hbl & ->)]; [lia|].
    unfold bytes in Hb. rewrite Forall_forall in Hb. specialize (Hb b Hbl). lia. }
  assert (Hdiv : forall z : Z, (IZR z / 128 = IZR z * / 128)%R) by (intros; reflexivity).
  split.
  { apply IZR_le in P1, Hle. split; lra. }
  split.
  { intros b Hbl. specialize (P2 b Hbl). apply IZR_le in P2. lra. }
  split.
  { intros Hne. destruct P3 as [E | (b & Hbl & E)].
    - destruct l as [|x l']; [contradiction|].
      exists x. split; [apply list_elem_of_here|].
      assert (Hx : (Z.abs (x - 128) <= peak)%Z) by (apply P2; apply list_elem_of_here).
      assert (E' : Z.abs (x - 128) = peak) by lia.
      rewrite E'. reflexivity.
    - exists b. split; [exact Hbl|]. rewrite E. reflexivity. }
  split.
  { split.
    - intros H0 b Hbl.
      assert (Hp : peak = 0%Z).
      { apply eq_IZR. lra. }
      specialize (P2 b Hbl). lia.
    - intros Hall.
      assert (Hp : peak = 0%Z).
      { destruct P3 as [E | (b & Hbl & E)]; [exact E|].
        rewrite E, (Hall b Hbl). reflexivity. }
      rewrite Hp. lra. }
  intros Hne.
  pose proof (sum_fold_bounds l 0 Hb) as Hs.
  set (sum := fold_left (fun sum b => (sum + b)%Z) l 0%Z) in *.
  assert (Hlen : (0 < Z.of_nat (length l))%Z) by (destruct l; [contradiction | cbn; lia]).
  rewrite INR_IZR_INZ.
  set (n := Z.of_nat (length l)) in *.
  assert (Hn : (0 < IZR n)%R) by (apply IZR_lt in Hlen; exact Hlen).
  assert (H1 : (0 <= IZR sum)%R) by (apply IZR_le; lia).
  assert (H2 : (IZR sum <= 255 * IZR n)%R).
  { rewrite <- mult_IZR. apply IZR_le. lia. }
  split.
  - apply Rmult_le_pos; [|lra]. apply Rmult_le_pos; [exact H1|].
    left. apply Rinv_0_lt_compat. exact Hn.
  - apply Rmult_le_reg_r with 255%R; [lra|].
    unfold Rdiv at 1. rewrite Rmult_assoc, Rinv_l, Rmult_1_r, Rmult_1_l by lra.
    apply Rmult_le_reg_r with (IZR n); [exact Hn|].
    unfold Rdiv. rewrite Rmult_assoc, Rinv_l by lra. lra.
Qed.

Lemma X26_meter_levels_in_range_witness :
  (0 <= calculatePeak [128; 0; 255]%Z <= 1)%R.
Proof.
  assert (H : bytes [128; 0; 255]%Z).
  { unfold bytes. repeat apply Forall_cons_2; try lia. apply Forall_nil_2. }
  destruct (X26_meter_levels_in_range [128; 0; 255]%Z H) as (E & _).
  exact E.
Defined.

End Meters.
